(** * EaselJS display list: a shallow embedding and its verified properties

    The development follows the source files of the library:
    - [JS]             the fragment of JavaScript semantics the code relies on
                       (numbers, truthiness, [%], [|0]);
    - [Matrix2D]       the affine matrix with its inherited visual properties;
    - [Graphics]       the deferred instruction buffer;
    - [DisplayObject]  the cache / updateCache / uncache life cycle;
    - [Container]      the child list mutators over an object heap;
    - [HitTest]        the point queries of Container over a display tree;
    - [BitmapSequence] the sprite-sheet player.

    Definitions come first, module by module; all lemmas and theorems follow. *)

From Stdlib Require Import ZArith QArith Qround Qfield Floats Lia Bool.
From stdpp Require Import gmap strings list sorting.

Set Warnings "-register-all".
Local Open Scope Z_scope.

(* ===================================================================== *)
(** * JavaScript values                                                   *)
(* ===================================================================== *)

Module JS.

(** A JavaScript Number, kept abstract so that the same code can be read over
    IEEE-754 doubles (what the engine computes) and over exact rationals (the
    arithmetic the comments of the library reason in). *)
Class JSNumber (num : Type) := {
  nadd : num -> num -> num;
  nsub : num -> num -> num;
  nmul : num -> num -> num;
  ndiv : num -> num -> num;
  nneg : num -> num;
  (** a numeric literal of the source text *)
  lit : Q -> num;
  (** [x == y] *)
  neqb : num -> num -> bool;
  (** ToBoolean: false for 0, -0 and NaN *)
  truthy : num -> bool
}.

Declare Scope js_scope.
Delimit Scope js_scope with js.
Infix "+" := nadd : js_scope.
Infix "-" := nsub : js_scope.
Infix "*" := nmul : js_scope.
Infix "/" := ndiv : js_scope.
Notation "- x" := (nneg x) : js_scope.

(** [x || y] on numbers. *)
Definition num_or {num} `{JSNumber num} (x y : num) : num :=
  if truthy x then x else y.

(** The library's [Math] object, as far as the code uses it. *)
Class JSMath (num : Type) := {
  Math_cos : num -> num;
  Math_sin : num -> num;
  Math_PI : num
}.

(** IEEE-754 binary64, the Number type of the engine. *)
Definition float_of_Z (z : Z) : float :=
  SF2Prim (binary_normalize prec emax z 0 false).

#[export] Instance float_number : JSNumber float := {|
  nadd := PrimFloat.add;
  nsub := PrimFloat.sub;
  nmul := PrimFloat.mul;
  ndiv := PrimFloat.div;
  nneg := PrimFloat.opp;
  lit q := PrimFloat.div (float_of_Z (Qnum q)) (float_of_Z (Zpos (Qden q)));
  neqb := PrimFloat.eqb;
  truthy x := negb (PrimFloat.eqb x PrimFloat.zero || PrimFloat.is_nan x)
|}.

(** Exact rational arithmetic. *)
#[export] Instance rational_number : JSNumber Q := {|
  nadd := Qplus;
  nsub := Qminus;
  nmul := Qmult;
  ndiv := Qdiv;
  nneg := Qopp;
  lit q := q;
  neqb := Qeq_bool;
  truthy x := negb (Qeq_bool x 0)
|}.

(** ToBoolean on an optional string: [null] and the empty string are falsy. *)
Definition truthy_str (s : option string) : bool :=
  match s with
  | None => false
  | Some s => negb (String.eqb s "")
  end.

(** [x || y] on optional strings and on optional objects (an object is
    always truthy). *)
Definition str_or (x y : option string) : option string :=
  if truthy_str x then x else y.

Definition obj_or {A} (x y : option A) : option A :=
  match x with Some _ => x | None => y end.

(** [(a % b) == 0] on integers: the remainder by zero is NaN, which equals
    nothing. *)
Definition rem_is_zero (a b : Z) : bool :=
  if b =? 0 then false else Z.rem a b =? 0.

(** [a / b | 0] on integers: truncation towards zero; a division by zero
    yields Infinity or NaN, which [|0] turns into 0. *)
Definition div_trunc (a b : Z) : Z := Z.quot a b.

(** [x % y] on numbers. *)
Class JSRemainder (num : Type) := {
  nrem : num -> num -> num
}.

(** On the rationals: the dividend minus the divisor times the quotient
    truncated towards zero. *)
Definition Qtruncate (q : Q) : Z :=
  if Qle_bool 0 q then Qfloor q else Qceiling q.

#[export] Instance rational_remainder : JSRemainder Q := {|
  nrem x y := (x - y * inject_Z (Qtruncate (x / y)))%Q
|}.

End JS.
Import JS.

(* ===================================================================== *)
(** * Matrix2D                                                            *)
(* ===================================================================== *)

Module Matrix2D.

(** easel.Shadow, as [applyShadow] reads it. *)
Record Shadow (num : Type) := mkShadow {
  color : string;
  offsetX : num;
  offsetY : num;
  blur : num
}.

Record t (num : Type) := mk {
  a : num;
  b : num;
  c : num;
  d : num;
  tx : num;
  ty : num;
  alpha : num;
  shadow : option (Shadow num);
  compositeOperation : option string
}.
Arguments mk {num}.
Arguments a {num}. Arguments b {num}. Arguments c {num}. Arguments d {num}.
Arguments tx {num}. Arguments ty {num}. Arguments alpha {num}.
Arguments shadow {num}. Arguments compositeOperation {num}.

Section Methods.
Context {num : Type} `{JSNumber num}.
Local Open Scope js_scope.

(** The prototype: the values a fresh instance reads before any assignment. *)
Definition prototype : t num :=
  mk (lit 1) (lit 0) (lit 0) (lit 1) (lit 0) (lit 0) (lit 1) None None.

(** [initialize(a, b, c, d, tx, ty)]; an omitted argument is [None]. *)
Definition initialize (m : t num) (a' b' c' d' tx' ty' : option num) : t num :=
  mk (match a' with Some v => v | None => a m end)
     (match b' with Some v => num_or v (lit 0) | None => lit 0 end)
     (match c' with Some v => num_or v (lit 0) | None => lit 0 end)
     (match d' with Some v => v | None => d m end)
     (match tx' with Some v => num_or v (lit 0) | None => lit 0 end)
     (match ty' with Some v => num_or v (lit 0) | None => lit 0 end)
     (alpha m) (shadow m) (compositeOperation m).

(** [new easel.Matrix2D(a, b, c, d, tx, ty)] *)
Definition new (a' b' c' d' tx' ty' : option num) : t num :=
  initialize prototype a' b' c' d' tx' ty'.

Definition prepend (m : t num) (a' b' c' d' tx' ty' : num) : t num :=
  let tx1 := tx m in
  let m1 :=
    if negb (neqb a' (lit 1)) || negb (neqb b' (lit 0))
       || negb (neqb c' (lit 0)) || negb (neqb d' (lit 1))
    then
      let a1 := a m in
      let c1 := c m in
      let na := a1 * a' + b m * c' in
      let nb := a1 * b' + b m * d' in
      let nc := c1 * a' + d m * c' in
      let nd := c1 * b' + d m * d' in
      mk na nb nc nd (tx m) (ty m) (alpha m) (shadow m) (compositeOperation m)
    else m in
  let ntx := tx1 * a' + ty m1 * c' + tx' in
  let nty := tx1 * b' + ty m1 * d' + ty' in
  mk (a m1) (b m1) (c m1) (d m1) ntx nty
     (alpha m1) (shadow m1) (compositeOperation m1).

Definition append (m : t num) (a' b' c' d' tx' ty' : num) : t num :=
  let a1 := a m in
  let b1 := b m in
  let c1 := c m in
  let d1 := d m in
  mk (a' * a1 + b' * c1) (a' * b1 + b' * d1)
     (c' * a1 + d' * c1) (c' * b1 + d' * d1)
     (tx' * a1 + ty' * c1 + tx m) (tx' * b1 + ty' * d1 + ty m)
     (alpha m) (shadow m) (compositeOperation m).

Definition identity (m : t num) : t num :=
  mk (lit 1) (lit 0) (lit 0) (lit 1) (lit 0) (lit 0) (lit 1) None None.

Definition invert (m : t num) : t num :=
  let a1 := a m in
  let b1 := b m in
  let c1 := c m in
  let d1 := d m in
  let tx1 := tx m in
  let n := a1 * d1 - b1 * c1 in
  let ntx := (c1 * ty m - d1 * tx1) / n in
  mk (d1 / n) (- b1 / n) (- c1 / n) (a1 / n)
     ntx
     (- (a1 * ty m - b1 * tx1) / n)
     (alpha m) (shadow m) (compositeOperation m).

(** [reinitialize]; [alpha || 1]. *)
Definition reinitialize (m : t num) (a' b' c' d' tx' ty' : option num)
    (alpha' : num) (shadow' : option (Shadow num))
    (compositeOperation' : option string) : t num :=
  let m1 := initialize m a' b' c' d' tx' ty' in
  mk (a m1) (b m1) (c m1) (d m1) (tx m1) (ty m1)
     (num_or alpha' (lit 1)) shadow' compositeOperation'.

Definition appendProperties (m : t num) (alpha' : num)
    (shadow' : option (Shadow num)) (compositeOperation' : option string)
    : t num :=
  mk (a m) (b m) (c m) (d m) (tx m) (ty m)
     (alpha m * alpha')
     (obj_or shadow' (shadow m))
     (str_or compositeOperation' (compositeOperation m)).

Definition prependProperties (m : t num) (alpha' : num)
    (shadow' : option (Shadow num)) (compositeOperation' : option string)
    : t num :=
  mk (a m) (b m) (c m) (d m) (tx m) (ty m)
     (alpha m * alpha')
     (obj_or (shadow m) shadow')
     (str_or (compositeOperation m) compositeOperation').

Definition prependMatrix (m matrix : t num) : t num :=
  prependProperties
    (prepend m (a matrix) (b matrix) (c matrix) (d matrix) (tx matrix) (ty matrix))
    (alpha matrix) (shadow matrix) (compositeOperation matrix).

Definition appendMatrix (m matrix : t num) : t num :=
  appendProperties
    (append m (a matrix) (b matrix) (c matrix) (d matrix) (tx matrix) (ty matrix))
    (alpha matrix) (shadow matrix) (compositeOperation matrix).

Definition clone (m : t num) : t num :=
  let mtx := new (Some (a m)) (Some (b m)) (Some (c m)) (Some (d m))
                 (Some (tx m)) (Some (ty m)) in
  mk (a mtx) (b mtx) (c mtx) (d mtx) (tx mtx) (ty mtx)
     (alpha m) (shadow m) (compositeOperation m).

(** The determinant the code divides by. *)
Definition det (m : t num) : num := a m * d m - b m * c m.

End Methods.

(** ** Vocabulary of the statements about matrices *)

(** Two matrices over the rationals with equal coefficients. *)
Definition coefficients_eq (m1 m2 : t Q) : Prop :=
  (a m1 == a m2 /\ b m1 == b m2 /\ c m1 == c m2 /\ d m1 == d m2 /\
   tx m1 == tx m2 /\ ty m1 == ty m2)%Q.

(** A double that is NaN, +Infinity or -Infinity. *)
Definition nan_or_infinite (x : float) : bool :=
  PrimFloat.is_nan x || PrimFloat.is_infinity x.

Definition coefficients_nan_or_infinite (m : t float) : bool :=
  nan_or_infinite (a m) && nan_or_infinite (b m) && nan_or_infinite (c m)
  && nan_or_infinite (d m) && nan_or_infinite (tx m) && nan_or_infinite (ty m).

(** The matrix [[3, 1, 2, 5, 7, 0.5]]: determinant 13. *)
Definition round_trip_input : t float :=
  mk 3%float 1%float 2%float 5%float 7%float 0.5%float 1%float None None.

(** A matrix of tiny scale: its determinant, 2^-1060, is not zero. *)
Definition tiny_scale_input : t float :=
  mk 0x1p-530%float 0%float 0%float 0x1p-530%float 1%float 0%float
    1%float None None.

(** ** The transformations *)

Section Transforms.
Context {num : Type} `{JSNumber num} `{JSMath num} `{JSRemainder num}.
Local Open Scope js_scope.

Definition DEG_TO_RAD : num := Math_PI / lit 180.

(** The [tx] and [ty] of a matrix replaced. *)
Definition set_translation (m : t num) (tx' ty' : num) : t num :=
  mk (a m) (b m) (c m) (d m) tx' ty' (alpha m) (shadow m)
     (compositeOperation m).

(** [cos] and [sin] as both [prependTransform] and [appendTransform]
    compute them. *)
Definition rotation_cos_sin (rotation : num) : num * num :=
  if truthy (nrem rotation (lit 360))
  then let r := rotation * DEG_TO_RAD in (Math_cos r, Math_sin r)
  else (lit 1, lit 0).

Definition prependTransform (m : t num)
    (x y scaleX scaleY rotation skewX skewY regX regY : num) : t num :=
  let '(cos, sin) := rotation_cos_sin rotation in
  let m1 :=
    if truthy regX || truthy regY
    then set_translation m (tx m - regX) (ty m - regY)
    else m in
  if truthy skewX || truthy skewY
  then
    let skewX := skewX * DEG_TO_RAD in
    let skewY := skewY * DEG_TO_RAD in
    let m2 := prepend m1 (cos * scaleX) (sin * scaleX)
                (nneg sin * scaleY) (cos * scaleY) (lit 0) (lit 0) in
    prepend m2 (Math_cos skewY) (Math_sin skewY)
      (nneg (Math_sin skewX)) (Math_cos skewX) x y
  else
    prepend m1 (cos * scaleX) (sin * scaleX)
      (nneg sin * scaleY) (cos * scaleY) x y.

Definition appendTransform (m : t num)
    (x y scaleX scaleY rotation skewX skewY regX regY : num) : t num :=
  if neqb (nrem rotation (lit 360)) (lit 0) && neqb scaleX (lit 1)
     && neqb scaleY (lit 1) && neqb skewX (lit 0) && neqb skewY (lit 0)
  then set_translation m (tx m + (x - regX)) (ty m + (y - regY))
  else
    let '(cos, sin) := rotation_cos_sin rotation in
    let m1 :=
      if truthy skewX || truthy skewY
      then
        let skewX := skewX * DEG_TO_RAD in
        let skewY := skewY * DEG_TO_RAD in
        let m2 := append m (Math_cos skewY) (Math_sin skewY)
                    (nneg (Math_sin skewX)) (Math_cos skewX) x y in
        append m2 (cos * scaleX) (sin * scaleX)
          (nneg sin * scaleY) (cos * scaleY) (lit 0) (lit 0)
      else
        append m (cos * scaleX) (sin * scaleX)
          (nneg sin * scaleY) (cos * scaleY) x y in
    if truthy regX || truthy regY
    then set_translation m1
           (tx m1 - (regX * a m1 + regY * c m1))
           (ty m1 - (regX * b m1 + regY * d m1))
    else m1.

(** [rotate(angle)]: the angle goes to [Math.cos] and [Math.sin] as it
    is. *)
Definition rotate (m : t num) (angle : num) : t num :=
  let cos := Math_cos angle in
  let sin := Math_sin angle in
  let a1 := a m in
  let c1 := c m in
  let tx1 := tx m in
  mk (a1 * cos - b m * sin) (a1 * sin + b m * cos)
     (c1 * cos - d m * sin) (c1 * sin + d m * cos)
     (tx1 * cos - ty m * sin) (tx1 * sin + ty m * cos)
     (alpha m) (shadow m) (compositeOperation m).

Definition skew (m : t num) (skewX skewY : num) : t num :=
  let skewX := skewX * DEG_TO_RAD in
  let skewY := skewY * DEG_TO_RAD in
  append m (Math_cos skewY) (Math_sin skewY)
    (nneg (Math_sin skewX)) (Math_cos skewX) (lit 0) (lit 0).

Definition scale (m : t num) (x y : num) : t num :=
  mk (a m * x) (b m) (c m) (d m * y) (tx m * x) (ty m * y)
     (alpha m) (shadow m) (compositeOperation m).

Definition translate (m : t num) (x y : num) : t num :=
  set_translation m (tx m + x) (ty m + y).

Definition isIdentity (m : t num) : bool :=
  neqb (tx m) (lit 0) && neqb (ty m) (lit 0) && neqb (a m) (lit 1)
  && neqb (b m) (lit 0) && neqb (c m) (lit 0) && neqb (d m) (lit 1).

End Transforms.

(** Two matrices over the rationals that agree in every field. *)
Definition matrix_eq (m1 m2 : t Q) : Prop :=
  coefficients_eq m1 m2 /\ (alpha m1 == alpha m2)%Q /\
  shadow m1 = shadow m2 /\ compositeOperation m1 = compositeOperation m2.

End Matrix2D.

(* ===================================================================== *)
(** * Graphics                                                            *)
(* ===================================================================== *)

Module Graphics.

(** The methods of the 2D context that a Command can hold. *)
Inductive CtxMethod :=
| ctx_beginPath | ctx_fill | ctx_stroke
| ctx_moveTo | ctx_lineTo | ctx_arcTo | ctx_arc
| ctx_quadraticCurveTo | ctx_bezierCurveTo | ctx_rect | ctx_closePath.

(** The function of a Command: a context method, or [Graphics._setProp]. *)
Inductive Fn :=
| Ctx (m : CtxMethod)
| SetProp.

(** An image, canvas or video handed to a pattern: an opaque handle. *)
Definition Image := nat.

(** The values captured as parameters of a Command. *)
Inductive Value (num : Type) :=
| VUndefined
| VNum (n : num)
| VStr (s : string)
| VBool (v : bool)
| VLinearGradient (x0 y0 x1 y1 : num) (stops : list (option num * string))
| VRadialGradient (x0 y0 r0 x1 y1 r1 : num) (stops : list (option num * string))
| VPattern (image : Image) (repetition : string).
Arguments VUndefined {num}.
Arguments VNum {num}.
Arguments VStr {num}.
Arguments VBool {num}.
Arguments VLinearGradient {num}.
Arguments VRadialGradient {num}.
Arguments VPattern {num}.

(** [new easel.Command(f, params)] *)
Record Command (num : Type) := mkCommand {
  f : Fn;
  params : list (Value num)
}.
Arguments mkCommand {num}.
Arguments f {num}.
Arguments params {num}.

(** The fields of a Graphics instance. *)
Record t (num : Type) := mk {
  _strokeInstructions : option (list (Command num));
  _strokeStyleInstructions : option (list (Command num));
  _fillInstructions : option (list (Command num));
  _instructions : list (Command num);
  _oldInstructions : list (Command num);
  _activeInstructions : list (Command num);
  _active : bool;
  _dirty : bool
}.
Arguments mk {num}.
Arguments _strokeInstructions {num}.
Arguments _strokeStyleInstructions {num}.
Arguments _fillInstructions {num}.
Arguments _instructions {num}.
Arguments _oldInstructions {num}.
Arguments _activeInstructions {num}.
Arguments _active {num}.
Arguments _dirty {num}.

(** A cap or joint given by name, or by its index in the tiny API. *)
Inductive StyleArg :=
| ByName (s : string)
| ByIndex (n : nat).

Definition STROKE_CAPS_MAP : list string := ["butt"; "round"; "square"]%string.
Definition STROKE_JOINTS_MAP : list string := ["miter"; "round"; "bevel"]%string.

Section Methods.
Context {num : Type} `{JSNumber num} `{JSMath num}.
Local Open Scope js_scope.

Abbreviation Cmd := (Command num).
Abbreviation G := (t num).

Definition beginCmd : Cmd := mkCommand (Ctx ctx_beginPath) [].
Definition fillCmd : Cmd := mkCommand (Ctx ctx_fill) [].
Definition strokeCmd : Cmd := mkCommand (Ctx ctx_stroke) [].

(** Field updates, written as the assignments of the source. *)
Definition set_active_dirty (g : G) (v : bool) : G :=
  mk (_strokeInstructions g) (_strokeStyleInstructions g) (_fillInstructions g)
     (_instructions g) (_oldInstructions g) (_activeInstructions g) v v.

Definition set_dirty (g : G) (v : bool) : G :=
  mk (_strokeInstructions g) (_strokeStyleInstructions g) (_fillInstructions g)
     (_instructions g) (_oldInstructions g) (_activeInstructions g) (_active g) v.

Definition push_active (g : G) (cmds : list Cmd) : G :=
  mk (_strokeInstructions g) (_strokeStyleInstructions g) (_fillInstructions g)
     (_instructions g) (_oldInstructions g) (_activeInstructions g ++ cmds)
     (_active g) (_dirty g).

Definition set_fillInstructions (g : G) (v : option (list Cmd)) : G :=
  mk (_strokeInstructions g) (_strokeStyleInstructions g) v
     (_instructions g) (_oldInstructions g) (_activeInstructions g)
     (_active g) (_dirty g).

Definition set_strokeInstructions (g : G) (v : option (list Cmd)) : G :=
  mk v (_strokeStyleInstructions g) (_fillInstructions g)
     (_instructions g) (_oldInstructions g) (_activeInstructions g)
     (_active g) (_dirty g).

Definition set_strokeStyleInstructions (g : G) (v : option (list Cmd)) : G :=
  mk (_strokeInstructions g) v (_fillInstructions g)
     (_instructions g) (_oldInstructions g) (_activeInstructions g)
     (_active g) (_dirty g).

(** [arr.push.apply(arr, list)] when [list] is set. *)
Definition opt_cmds (o : option (list Cmd)) : list Cmd :=
  match o with Some l => l | None => [] end.

Definition _updateInstructions (g : G) : G :=
  let i0 := _oldInstructions g in
  let i1 := i0 ++ [beginCmd] in
  let i2 := match _fillInstructions g with
            | Some fi => i1 ++ fi
            | None => i1
            end in
  let i3 := match _strokeInstructions g with
            | Some si =>
                let j := i2 ++ si in
                match _strokeStyleInstructions g with
                | Some ssi => j ++ ssi
                | None => j
                end
            | None => i2
            end in
  let i4 := i3 ++ _activeInstructions g in
  let i5 := match _fillInstructions g with
            | Some _ => i4 ++ [fillCmd]
            | None => i4
            end in
  let i6 := match _strokeInstructions g with
            | Some _ => i5 ++ [strokeCmd]
            | None => i5
            end in
  mk (_strokeInstructions g) (_strokeStyleInstructions g) (_fillInstructions g)
     i6 (_oldInstructions g) (_activeInstructions g) (_active g) (_dirty g).

Definition _newPath (g : G) : G :=
  let g1 := if _dirty g then _updateInstructions g else g in
  mk (_strokeInstructions g1) (_strokeStyleInstructions g1) (_fillInstructions g1)
     (_instructions g1) (_instructions g1) [] false false.

(** [if (this._active) { this._newPath(); }] *)
Definition end_subpath (g : G) : G :=
  if _active g then _newPath g else g.

Definition clear (g : G) : G :=
  mk None None None [] [] [] false false.

(** [new easel.Graphics()] *)
Definition new : G := clear (mk None None None [] [] [] false false).

(** [draw(ctx)]: the instance afterwards, and the commands executed on the
    context, in order. *)
Definition draw (g : G) : G * list Cmd :=
  let g1 := if _dirty g then _updateInstructions g else g in
  (g1, _instructions g1).

Definition moveTo (g : G) (x y : num) : G :=
  push_active g [mkCommand (Ctx ctx_moveTo) [VNum x; VNum y]].

Definition lineTo (g : G) (x y : num) : G :=
  push_active (set_active_dirty g true)
    [mkCommand (Ctx ctx_lineTo) [VNum x; VNum y]].

Definition arcTo (g : G) (x1 y1 x2 y2 radius : num) : G :=
  push_active (set_active_dirty g true)
    [mkCommand (Ctx ctx_arcTo) [VNum x1; VNum y1; VNum x2; VNum y2; VNum radius]].

Definition arc (g : G) (x y radius startAngle endAngle : num)
    (anticlockwise : option bool) : G :=
  let anticlockwise := match anticlockwise with Some v => v | None => false end in
  push_active (set_active_dirty g true)
    [mkCommand (Ctx ctx_arc)
       [VNum x; VNum y; VNum radius; VNum startAngle; VNum endAngle;
        VBool anticlockwise]].

Definition quadraticCurveTo (g : G) (cpx cpy x y : num) : G :=
  push_active (set_active_dirty g true)
    [mkCommand (Ctx ctx_quadraticCurveTo) [VNum cpx; VNum cpy; VNum x; VNum y]].

Definition bezierCurveTo (g : G) (cp1x cp1y cp2x cp2y x y : num) : G :=
  push_active (set_active_dirty g true)
    [mkCommand (Ctx ctx_bezierCurveTo)
       [VNum cp1x; VNum cp1y; VNum cp2x; VNum cp2y; VNum x; VNum y]].

Definition rect (g : G) (x y w h : num) : G :=
  push_active (set_active_dirty g true)
    [mkCommand (Ctx ctx_rect) [VNum x; VNum y; VNum w; VNum h]].

Definition closePath (g : G) : G :=
  if _active g
  then push_active (set_dirty g true) [mkCommand (Ctx ctx_closePath) []]
  else g.

Definition beginFill (g : G) (color : option string) : G :=
  let g1 := end_subpath g in
  set_fillInstructions g1
    (match color with
     | Some s => if truthy_str color
                 then Some [mkCommand SetProp [VStr "fillStyle"; VStr s]]
                 else None
     | None => None
     end).

(** [o.addColorStop(ratios[i], colors[i])] for every index of [colors]. *)
Definition colorStops (colors : list string) (ratios : list num)
    : list (option num * string) :=
  imap (fun i col => (ratios !! i, col)) colors.

Definition beginLinearGradientFill (g : G) (colors : list string)
    (ratios : list num) (x0 y0 x1 y1 : num) : G :=
  let g1 := end_subpath g in
  let o := VLinearGradient x0 y0 x1 y1 (colorStops colors ratios) in
  set_fillInstructions g1 (Some [mkCommand SetProp [VStr "fillStyle"; o]]).

Definition beginRadialGradientFill (g : G) (colors : list string)
    (ratios : list num) (x0 y0 r0 x1 y1 r1 : num) : G :=
  let g1 := end_subpath g in
  let o := VRadialGradient x0 y0 r0 x1 y1 r1 (colorStops colors ratios) in
  set_fillInstructions g1 (Some [mkCommand SetProp [VStr "fillStyle"; o]]).

Definition beginBitmapFill (g : G) (image : Image) (repetition : option string)
    : G :=
  let g1 := end_subpath g in
  let repetition := default ""%string (str_or repetition (Some ""%string)) in
  let o := VPattern image repetition in
  set_fillInstructions g1 (Some [mkCommand SetProp [VStr "fillStyle"; o]]).

Definition endFill (g : G) : G := beginFill g None.

(** [isNaN(v) ? v : MAP[v]]; a name is not a number, an index is. *)
Definition styleValue (map : list string) (dflt : string) (v : option StyleArg)
    : Value num :=
  match v with
  | None => VStr dflt
  | Some (ByName s) => VStr s
  | Some (ByIndex n) =>
      match map !! n with Some s => VStr s | None => VUndefined end
  end.

Definition setStrokeStyle (g : G) (thickness : option num)
    (caps joints : option StyleArg) (miterLimit : option num) : G :=
  let g1 := end_subpath g in
  set_strokeStyleInstructions g1
    (Some
       [mkCommand SetProp
          [VStr "lineWidth";
           match thickness with Some v => VNum v | None => VStr "1" end];
        mkCommand SetProp
          [VStr "lineCap"; styleValue STROKE_CAPS_MAP "butt" caps];
        mkCommand SetProp
          [VStr "lineJoin"; styleValue STROKE_JOINTS_MAP "miter" joints];
        mkCommand SetProp
          [VStr "miterLimit";
           match miterLimit with Some v => VNum v | None => VStr "10" end]]).

Definition beginStroke (g : G) (color : option string) : G :=
  let g1 := end_subpath g in
  set_strokeInstructions g1
    (match color with
     | Some s => if truthy_str color
                 then Some [mkCommand SetProp [VStr "strokeStyle"; VStr s]]
                 else None
     | None => None
     end).

Definition beginLinearGradientStroke (g : G) (colors : list string)
    (ratios : list num) (x0 y0 x1 y1 : num) : G :=
  let g1 := end_subpath g in
  let o := VLinearGradient x0 y0 x1 y1 (colorStops colors ratios) in
  set_strokeInstructions g1 (Some [mkCommand SetProp [VStr "strokeStyle"; o]]).

Definition beginRadialGradientStroke (g : G) (colors : list string)
    (ratios : list num) (x0 y0 r0 x1 y1 r1 : num) : G :=
  let g1 := end_subpath g in
  let o := VRadialGradient x0 y0 r0 x1 y1 r1 (colorStops colors ratios) in
  set_strokeInstructions g1 (Some [mkCommand SetProp [VStr "strokeStyle"; o]]).

Definition beginBitmapStroke (g : G) (image : Image)
    (repetition : option string) : G :=
  let g1 := end_subpath g in
  let repetition := default ""%string (str_or repetition (Some ""%string)) in
  let o := VPattern image repetition in
  set_strokeInstructions g1 (Some [mkCommand SetProp [VStr "strokeStyle"; o]]).

Definition endStroke (g : G) : G := beginStroke g None.

Definition curveTo := quadraticCurveTo.
Definition drawRect := rect.

Definition drawRoundRectComplex (g : G)
    (x y w h radiusTL radiusTR radiusBR radiusBL : num) : G :=
  let zero := lit 0 in
  let two := lit 2 in
  push_active (set_active_dirty g true)
    [mkCommand (Ctx ctx_moveTo) [VNum (x + radiusTL); VNum y];
     mkCommand (Ctx ctx_lineTo) [VNum (x + w - radiusTR); VNum y];
     mkCommand (Ctx ctx_arc)
       [VNum (x + w - radiusTR); VNum (y + radiusTR); VNum radiusTR;
        VNum (- Math_PI / two); VNum zero; VBool false];
     mkCommand (Ctx ctx_lineTo) [VNum (x + w); VNum (y + h - radiusBR)];
     mkCommand (Ctx ctx_arc)
       [VNum (x + w - radiusBR); VNum (y + h - radiusBR); VNum radiusBR;
        VNum zero; VNum (Math_PI / two); VBool false];
     mkCommand (Ctx ctx_lineTo) [VNum (x + radiusBL); VNum (y + h)];
     mkCommand (Ctx ctx_arc)
       [VNum (x + radiusBL); VNum (y + h - radiusBL); VNum radiusBL;
        VNum (Math_PI / two); VNum Math_PI; VBool false];
     mkCommand (Ctx ctx_lineTo) [VNum x; VNum (y + radiusTL)];
     mkCommand (Ctx ctx_arc)
       [VNum (x + radiusTL); VNum (y + radiusTL); VNum radiusTL;
        VNum Math_PI; VNum (Math_PI * lit 3 / two); VBool false]].

Definition drawRoundRect (g : G) (x y w h radius : num) : G :=
  drawRoundRectComplex g x y w h radius radius radius radius.

Definition drawCircle (g : G) (x y radius : num) : G :=
  arc g x y radius (lit 0) (Math_PI * lit 2) None.

Definition drawEllipse (g : G) (x y w h : num) : G :=
  let k := lit (5522848 # 10000000) in
  let ox := (w / lit 2) * k in
  let oy := (h / lit 2) * k in
  let xe := x + w in
  let ye := y + h in
  let xm := x + w / lit 2 in
  let ym := y + h / lit 2 in
  push_active (set_active_dirty g true)
    [mkCommand (Ctx ctx_moveTo) [VNum x; VNum ym];
     mkCommand (Ctx ctx_bezierCurveTo)
       [VNum x; VNum (ym - oy); VNum (xm - ox); VNum y; VNum xm; VNum y];
     mkCommand (Ctx ctx_bezierCurveTo)
       [VNum (xm + ox); VNum y; VNum xe; VNum (ym - oy); VNum xe; VNum ym];
     mkCommand (Ctx ctx_bezierCurveTo)
       [VNum xe; VNum (ym + oy); VNum (xm + ox); VNum ye; VNum xm; VNum ye];
     mkCommand (Ctx ctx_bezierCurveTo)
       [VNum (xm - ox); VNum ye; VNum x; VNum (ym + oy); VNum x; VNum ym]].

(** The body of the loop of [drawPolyStar], run [sides] times: the commands
    pushed, starting from [angle]. *)
Fixpoint polyStarLoop (sides : nat) (x y radius pointSize a angle : num)
    : list Cmd :=
  match sides with
  | O => []
  | S n =>
      let angle1 := angle + a in
      let inner :=
        if negb (neqb pointSize (lit 1))
        then [mkCommand (Ctx ctx_lineTo)
                [VNum (x + Math_cos angle1 * radius * pointSize);
                 VNum (y + Math_sin angle1 * radius * pointSize)]]
        else [] in
      let angle2 := angle1 + a in
      inner ++
      mkCommand (Ctx ctx_lineTo)
        [VNum (x + Math_cos angle2 * radius); VNum (y + Math_sin angle2 * radius)]
      :: polyStarLoop n x y radius pointSize a angle2
  end.

(** [sides] is a count; it enters the arithmetic as the number it denotes. *)
Definition drawPolyStar (g : G) (x y radius : num) (sides : nat)
    (pointSize angle : option num) : G :=
  let g1 := set_active_dirty g true in
  let pointSize := match pointSize with Some v => v | None => lit 0 end in
  let pointSize := lit 1 - pointSize in
  let angle := match angle with
               | Some v => v / (lit 180 / Math_PI)
               | None => lit 0
               end in
  let a := Math_PI / lit (inject_Z (Z.of_nat sides)) in
  let g2 := push_active g1
    [mkCommand (Ctx ctx_moveTo)
       [VNum (x + Math_cos angle * radius); VNum (y + Math_sin angle * radius)]] in
  push_active g2 (polyStarLoop sides x y radius pointSize a angle).

(** One recording call of the public API. *)
Inductive Call :=
| CallMoveTo (x y : num)
| CallLineTo (x y : num)
| CallArcTo (x1 y1 x2 y2 radius : num)
| CallArc (x y radius startAngle endAngle : num) (anticlockwise : option bool)
| CallQuadraticCurveTo (cpx cpy x y : num)
| CallBezierCurveTo (cp1x cp1y cp2x cp2y x y : num)
| CallRect (x y w h : num)
| CallClosePath
| CallClear
| CallBeginFill (color : option string)
| CallBeginLinearGradientFill (colors : list string) (ratios : list num)
    (x0 y0 x1 y1 : num)
| CallBeginRadialGradientFill (colors : list string) (ratios : list num)
    (x0 y0 r0 x1 y1 r1 : num)
| CallBeginBitmapFill (image : Image) (repetition : option string)
| CallEndFill
| CallSetStrokeStyle (thickness : option num) (caps joints : option StyleArg)
    (miterLimit : option num)
| CallBeginStroke (color : option string)
| CallBeginLinearGradientStroke (colors : list string) (ratios : list num)
    (x0 y0 x1 y1 : num)
| CallBeginRadialGradientStroke (colors : list string) (ratios : list num)
    (x0 y0 r0 x1 y1 r1 : num)
| CallBeginBitmapStroke (image : Image) (repetition : option string)
| CallEndStroke
| CallDrawRoundRect (x y w h radius : num)
| CallDrawRoundRectComplex (x y w h radiusTL radiusTR radiusBR radiusBL : num)
| CallDrawCircle (x y radius : num)
| CallDrawEllipse (x y w h : num)
| CallDrawPolyStar (x y radius : num) (sides : nat) (pointSize angle : option num).

Definition record (g : G) (call : Call) : G :=
  match call with
  | CallMoveTo x y => moveTo g x y
  | CallLineTo x y => lineTo g x y
  | CallArcTo x1 y1 x2 y2 r => arcTo g x1 y1 x2 y2 r
  | CallArc x y r s e acw => arc g x y r s e acw
  | CallQuadraticCurveTo cpx cpy x y => quadraticCurveTo g cpx cpy x y
  | CallBezierCurveTo a1 b1 a2 b2 x y => bezierCurveTo g a1 b1 a2 b2 x y
  | CallRect x y w h => rect g x y w h
  | CallClosePath => closePath g
  | CallClear => clear g
  | CallBeginFill color => beginFill g color
  | CallBeginLinearGradientFill cs rs x0 y0 x1 y1 =>
      beginLinearGradientFill g cs rs x0 y0 x1 y1
  | CallBeginRadialGradientFill cs rs x0 y0 r0 x1 y1 r1 =>
      beginRadialGradientFill g cs rs x0 y0 r0 x1 y1 r1
  | CallBeginBitmapFill image rep => beginBitmapFill g image rep
  | CallEndFill => endFill g
  | CallSetStrokeStyle th caps joints ml => setStrokeStyle g th caps joints ml
  | CallBeginStroke color => beginStroke g color
  | CallBeginLinearGradientStroke cs rs x0 y0 x1 y1 =>
      beginLinearGradientStroke g cs rs x0 y0 x1 y1
  | CallBeginRadialGradientStroke cs rs x0 y0 r0 x1 y1 r1 =>
      beginRadialGradientStroke g cs rs x0 y0 r0 x1 y1 r1
  | CallBeginBitmapStroke image rep => beginBitmapStroke g image rep
  | CallEndStroke => endStroke g
  | CallDrawRoundRect x y w h r => drawRoundRect g x y w h r
  | CallDrawRoundRectComplex x y w h tl tr br bl =>
      drawRoundRectComplex g x y w h tl tr br bl
  | CallDrawCircle x y r => drawCircle g x y r
  | CallDrawEllipse x y w h => drawEllipse g x y w h
  | CallDrawPolyStar x y r sides ps angle => drawPolyStar g x y r sides ps angle
  end.

(** A session: calls recorded one after the other on a fresh instance. *)
Definition recordAll (calls : list Call) : G := fold_left record calls new.

(** ** The shape of one replayed subpath *)

Definition is_setProp (name : string) (c : Cmd) : bool :=
  match f c, params c with
  | SetProp, VStr n :: _ => String.eqb n name
  | _, _ => false
  end.

Definition is_fillStyle (c : Cmd) : bool := is_setProp "fillStyle" c.
Definition is_strokeStyle (c : Cmd) : bool := is_setProp "strokeStyle" c.
Definition is_strokeAppearance (c : Cmd) : bool :=
  is_setProp "lineWidth" c || is_setProp "lineCap" c
  || is_setProp "lineJoin" c || is_setProp "miterLimit" c.

(** A path or geometry instruction: a context method other than beginPath,
    fill and stroke. *)
Definition is_path (c : Cmd) : bool :=
  match f c with
  | Ctx ctx_beginPath | Ctx ctx_fill | Ctx ctx_stroke => false
  | Ctx _ => true
  | SetProp => false
  end.

(** [begin-path, fill-style?, stroke-style?, stroke-appearance?,
     path-instructions, fill?, stroke?] *)
Inductive Subpath : list Cmd -> Prop :=
| Subpath_intro (fs ss sa path : list Cmd) :
    Forall (fun c => is_fillStyle c = true) fs ->
    Forall (fun c => is_strokeStyle c = true) ss ->
    Forall (fun c => is_strokeAppearance c = true) sa ->
    Forall (fun c => is_path c = true) path ->
    Subpath ([beginCmd] ++ fs ++ ss ++ sa ++ path
             ++ match fs with [] => [] | _ :: _ => [fillCmd] end
             ++ match ss with [] => [] | _ :: _ => [strokeCmd] end).

(** A replay list: the subpaths finalized so far, one after the other. *)
Definition Replay (l : list Cmd) : Prop :=
  exists subpaths, l = concat subpaths /\ Forall Subpath subpaths.

(** The style lists hold what their names say, and a fill or stroke style
    that is set is not empty. *)
Definition styles_ok (g : G) : Prop :=
  match _fillInstructions g with
  | Some l => l <> [] /\ Forall (fun c => is_fillStyle c = true) l
  | None => True
  end /\
  match _strokeInstructions g with
  | Some l => l <> [] /\ Forall (fun c => is_strokeStyle c = true) l
  | None => True
  end /\
  match _strokeStyleInstructions g with
  | Some l => Forall (fun c => is_strokeAppearance c = true) l
  | None => True
  end.

(** What every recording call maintains. *)
Definition well_formed (g : G) : Prop :=
  Replay (_instructions g) /\ Replay (_oldInstructions g) /\
  Forall (fun c => is_path c = true) (_activeInstructions g) /\
  styles_ok g.

(** The subpath under construction, as [_updateInstructions] lays it out. *)
Definition current_subpath (g : G) : list Cmd :=
  [beginCmd]
  ++ opt_cmds (_fillInstructions g)
  ++ opt_cmds (_strokeInstructions g)
  ++ match _strokeInstructions g with
     | Some _ => opt_cmds (_strokeStyleInstructions g)
     | None => []
     end
  ++ _activeInstructions g
  ++ match _fillInstructions g with Some _ => [fillCmd] | None => [] end
  ++ match _strokeInstructions g with Some _ => [strokeCmd] | None => [] end.

End Methods.

(** A stand-in for [Math] over the rationals; the examples below use no
    trigonometry. *)
#[export] Instance rational_math : JSMath Q := {|
  Math_cos := fun _ => 1%Q;
  Math_sin := fun _ => 0%Q;
  Math_PI := (355 # 113)%Q
|}.

Definition setFill (v : string) : Command Q :=
  mkCommand SetProp [VStr "fillStyle"; VStr v].

Definition setStroke (v : string) : Command Q :=
  mkCommand SetProp [VStr "strokeStyle"; VStr v].

Definition rectCmd : Command Q :=
  mkCommand (Ctx ctx_rect) [VNum 20%Q; VNum 20%Q; VNum 100%Q; VNum 50%Q].

(** ** What recording and drawing keep *)

Section History.
Context {num : Type} `{JSNumber num} `{JSMath num}.

(** While nothing has been drawn into the current subpath, the replay list
    is the list of the subpaths finalized so far. *)
Definition settled (g : t num) : Prop :=
  _dirty g = false -> _instructions g = _oldInstructions g.

(** The finalized subpaths of [g'] start with those of [g]. *)
Definition extends (g g' : t num) : Prop :=
  exists ext, _oldInstructions g' = _oldInstructions g ++ ext.

(** The instance [g] is settled, and its finalized subpaths start with
    those of the earlier instance [g0]. *)
Definition kept (g0 g : t num) : Prop := settled g /\ extends g0 g.

(** Two instances that differ at most in a replay list that is due to be
    rebuilt. *)
Definition same_recording (g g' : t num) : Prop :=
  _strokeInstructions g = _strokeInstructions g' /\
  _strokeStyleInstructions g = _strokeStyleInstructions g' /\
  _fillInstructions g = _fillInstructions g' /\
  _oldInstructions g = _oldInstructions g' /\
  _activeInstructions g = _activeInstructions g' /\
  _active g = _active g' /\
  _dirty g = _dirty g' /\
  (_dirty g = false -> _instructions g = _instructions g').

End History.

End Graphics.

(* ===================================================================== *)
(** * DisplayObject: the cache life cycle                                 *)
(* ===================================================================== *)

Module DisplayObject.

(** A filter of the [filters] array: an opaque handle. *)
Definition Filter := nat.

(** What reaches the pixels of a canvas, in the order it happened. The
    context applies the current transform to the rectangle of [clearRect] and
    to the position of [drawImage]; the code only ever sets translations. *)
Inductive PixelOp :=
| ClearRect (x y w h : Z) (e f : Z)
    (** [clearRect(x, y, w, h)] under the translation [(e, f)] *)
| DrawImage (dx dy : Z) (composite : string)
    (** [drawImage] of the cache canvas of the node, at a device position *)
| ApplyFilter (filter : Filter) (x y w h : Z).

(** The device pixels that an operation clears: [clearRect(x, y, w, h)] under
    the translation [(e, f)] clears the pixels of
    [[x+e, x+e+w) x [y+f, y+f+h)]. *)
Definition clears_pixel (op : PixelOp) (px py : Z) : bool :=
  match op with
  | ClearRect x y w h e f =>
      (x + e <=? px) && (px <? x + e + w) && (y + f <=? py) && (py <? y + f + h)
  | _ => false
  end.

(** The operation clears every pixel of a surface of the given size. *)
Definition clears_surface (op : PixelOp) (w h : Z) : Prop :=
  forall px py, 0 <= px < w -> 0 <= py < h -> clears_pixel op px py = true.

(** A canvas together with the state of its 2D context; [translate] is the
    [(e, f)] of the last [setTransform(1, 0, 0, 1, e, f)]. *)
Record Canvas := mkCanvas {
  width : Z;
  height : Z;
  translate : Z * Z;
  globalCompositeOperation : string;
  pixels : list PixelOp
}.

(** [document.createElement("canvas")] *)
Definition createCanvas : Canvas := mkCanvas 300 150 (0, 0) "source-over" [].

(** Assigning the size of a canvas clears it and resets its context. *)
Definition set_size (cv : Canvas) (w h : Z) : Canvas :=
  mkCanvas w h (0, 0) "source-over" [].

Definition setTransform (cv : Canvas) (e f : Z) : Canvas :=
  mkCanvas (width cv) (height cv) (e, f) (globalCompositeOperation cv) (pixels cv).

Definition clearRect (cv : Canvas) (x y w h : Z) : Canvas :=
  mkCanvas (width cv) (height cv) (translate cv) (globalCompositeOperation cv)
    (pixels cv ++ [ClearRect x y w h (fst (translate cv)) (snd (translate cv))]).

Definition set_globalCompositeOperation (cv : Canvas) (v : string) : Canvas :=
  mkCanvas (width cv) (height cv) (translate cv) v (pixels cv).

Definition drawImage (cv : Canvas) (source : Canvas) (dx dy : Z) : Canvas :=
  mkCanvas (width cv) (height cv) (translate cv) (globalCompositeOperation cv)
    (pixels cv ++ [DrawImage
                     (fst (translate cv) + dx) (snd (translate cv) + dy)
                     (globalCompositeOperation cv)]).

Definition applyFilter (cv : Canvas) (flt : Filter) (x y w h : Z) : Canvas :=
  mkCanvas (width cv) (height cv) (translate cv) (globalCompositeOperation cv)
    (pixels cv ++ [ApplyFilter flt x y w h]).

(** The fields of a display object that caching reads and writes. *)
Record t := mk {
  cacheCanvas : option Canvas;
  _cacheOffsetX : Z;
  _cacheOffsetY : Z;
  filters : option (list Filter)
}.

(** [throw "..."] or normal completion. *)
Inductive Completion (A : Type) :=
| Throw (message : string)
| Normal (value : A).
Arguments Throw {A}.
Arguments Normal {A}.

Section Methods.
(** The painting of the concrete class: what an override of [draw] does to
    the context once the cache check of the base class has declined. *)
Variable paint : Canvas -> Canvas.

(** [easel.DisplayObject.prototype.draw]: the context afterwards, and whether
    the draw was handled. *)
Definition draw_base (o : t) (ctx : Canvas) (ignoreCache : bool)
    : Canvas * bool :=
  match cacheCanvas o with
  | Some cc =>
      if ignoreCache then (ctx, false)
      else (drawImage ctx cc (_cacheOffsetX o) (_cacheOffsetY o), true)
  | None => (ctx, false)
  end.

(** [this.draw(ctx, ignoreCache)] on an instance of a concrete class. *)
Definition draw (o : t) (ctx : Canvas) (ignoreCache : bool) : Canvas :=
  let (ctx1, handled) := draw_base o ctx ignoreCache in
  if handled then ctx1 else paint ctx1.

Definition _applyFilters (o : t) : t :=
  match filters o, cacheCanvas o with
  | Some (flt :: fs), Some cc =>
      let w := width cc in
      let h := height cc in
      mk (Some (fold_left (fun ctx fl => applyFilter ctx fl 0 0 w h) (flt :: fs) cc))
         (_cacheOffsetX o) (_cacheOffsetY o) (filters o)
  | _, _ => o
  end.

Definition cache (o : t) (x y w h : Z) : t :=
  let cc := match cacheCanvas o with Some cc => cc | None => createCanvas end in
  let cc := set_size cc w h in
  let ctx := setTransform cc (- x) (- y) in
  let ctx := clearRect ctx 0 0 (w + 1) (h + 1) in
  let ctx := draw (mk (Some cc) (_cacheOffsetX o) (_cacheOffsetY o) (filters o))
               ctx true in
  _applyFilters (mk (Some ctx) x y (filters o)).

Definition updateCache (o : t) (compositeOperation : option string)
    : Completion t :=
  match cacheCanvas o with
  | None => Throw "cache() must be called before updateCache()"
  | Some cc =>
      let ctx := setTransform cc (- _cacheOffsetX o) (- _cacheOffsetY o) in
      let ctx :=
        match compositeOperation with
        | Some s =>
            if truthy_str compositeOperation
            then set_globalCompositeOperation ctx s
            else clearRect ctx 0 0 (width cc + 1) (height cc + 1)
        | None => clearRect ctx 0 0 (width cc + 1) (height cc + 1)
        end in
      let ctx := draw o ctx true in
      let ctx :=
        if truthy_str compositeOperation
        then set_globalCompositeOperation ctx "source-over"
        else ctx in
      Normal (_applyFilters
                (mk (Some ctx) (_cacheOffsetX o) (_cacheOffsetY o) (filters o)))
  end.

Definition uncache (o : t) : t :=
  mk None 0 0 (filters o).

(** A node as its constructor leaves it. *)
Definition new : t := mk None 0 0 None.

End Methods.

(** ** Vocabulary of the statements about caching *)

Definition updateCache_message : string :=
  "cache() must be called before updateCache()".

(** The canvas on which the filters of the node have run. *)
Definition filtered (fl : option (list Filter)) (cv : Canvas) : Canvas :=
  match fl with
  | Some l => fold_left (fun ctx f => applyFilter ctx f 0 0 (width cv) (height cv)) l cv
  | None => cv
  end.

(** ** Coordinate conversions *)

(** The transform and the inherited properties of a display object. *)
Record Placement (num : Type) := mkPlacement {
  x : num;
  y : num;
  scaleX : num;
  scaleY : num;
  rotation : num;
  skewX : num;
  skewY : num;
  regX : num;
  regY : num;
  alpha : num;
  shadow : option (Matrix2D.Shadow num);
  compositeOperation : option string
}.
Arguments mkPlacement {num}.
Arguments x {num}. Arguments y {num}.
Arguments scaleX {num}. Arguments scaleY {num}. Arguments rotation {num}.
Arguments skewX {num}. Arguments skewY {num}.
Arguments regX {num}. Arguments regY {num}. Arguments alpha {num}.
Arguments shadow {num}. Arguments compositeOperation {num}.

Section Coordinates.
Context {num : Type} `{JSNumber num} `{JSMath num} `{JSRemainder num}.

(** [getConcatenatedMatrix(mtx)]. The walk up the [parent] fields, until
    [null], is over [chain]: the object first, then its parent, and so on up
    to the highest ancestor. *)
Definition getConcatenatedMatrix (chain : list (Placement num))
    : Matrix2D.t num :=
  fold_left
    (fun mtx target =>
       Matrix2D.prependProperties
         (Matrix2D.prependTransform mtx (x target) (y target)
            (scaleX target) (scaleY target) (rotation target)
            (skewX target) (skewY target) (regX target) (regY target))
         (alpha target) (shadow target) (compositeOperation target))
    chain (Matrix2D.identity Matrix2D.prototype).

(** [localToGlobal(x, y)]: the point as [(x, y)]. *)
Definition localToGlobal (chain : list (Placement num)) (px py : num)
    : num * num :=
  let mtx := getConcatenatedMatrix chain in
  let mtx := Matrix2D.append mtx (lit 1) (lit 0) (lit 0) (lit 1) px py in
  (Matrix2D.tx mtx, Matrix2D.ty mtx).

Definition globalToLocal (chain : list (Placement num)) (px py : num)
    : num * num :=
  let mtx := getConcatenatedMatrix chain in
  let mtx := Matrix2D.invert mtx in
  let mtx := Matrix2D.append mtx (lit 1) (lit 0) (lit 0) (lit 1) px py in
  (Matrix2D.tx mtx, Matrix2D.ty mtx).

(** [localToLocal(x, y, target)]; [target] is the chain of the target. *)
Definition localToLocal (chain : list (Placement num)) (px py : num)
    (target : list (Placement num)) : num * num :=
  let pt := localToGlobal chain px py in
  globalToLocal target (fst pt) (snd pt).

End Coordinates.

(** Two points over the rationals with equal coordinates. *)
Definition point_eq (p q : Q * Q) : Prop :=
  (fst p == fst q /\ snd p == snd q)%Q.

(** An object that is only moved and faded: no scale, rotation, skew or
    registration point. *)
Definition moved_only (p : Placement Q) : Prop :=
  scaleX p = 1%Q /\ scaleY p = 1%Q /\ rotation p = 0%Q /\
  skewX p = 0%Q /\ skewY p = 0%Q /\ regX p = 0%Q /\ regY p = 0%Q.

(** An object at [(x, y)] with the given alpha, and otherwise the defaults
    of a display object. *)
Definition placed_at (px py al : Q) : Placement Q :=
  mkPlacement px py 1%Q 1%Q 0%Q 0%Q 0%Q 0%Q 0%Q al None None.

(** The sum and the product of a list of rationals. *)
Definition Qsum (l : list Q) : Q := fold_right Qplus 0%Q l.
Definition Qproduct (l : list Q) : Q := fold_right Qmult 1%Q l.

End DisplayObject.

(* ===================================================================== *)
(** * Container: the child list over an object heap                       *)
(* ===================================================================== *)

Module Container.

(** Object identity. *)
Definition oid := nat.

(** The heap, as far as the display list is concerned: the [parent] field of
    every display object ([null] when absent) and the [children] array of
    every Container (an object outside this map is not a Container). *)
Record Heap := mkHeap {
  parent : gmap oid oid;
  children : gmap oid (list oid)
}.

(** [array.indexOf(x)] *)
Definition indexOf (l : list oid) (x : oid) : Z :=
  match list_find (fun y => y = x) l with
  | Some (i, _) => Z.of_nat i
  | None => -1
  end.

(** The body of [removeChildAt] for a single argument. A method called on an
    object that has no [children] raises a TypeError: [None]. *)
Definition removeChildAt1 (h : Heap) (this : oid) (index : Z)
    : option (Heap * bool) :=
  cs ← children h !! this;
  if bool_decide (index < 0 ∨ index > Z.of_nat (length cs) - 1)
  then Some (h, false)
  else
    let i := Z.to_nat index in
    let parent1 := match cs !! i with
                   | Some child => delete child (parent h)
                   | None => parent h
                   end in
    Some (mkHeap parent1 (<[this := delete i cs]> (children h)), true).

(** [a.sort(function(a, b) { return b-a; })] *)
Definition sort_descending (a : list Z) : list Z := merge_sort Z.ge a.

(** [for (...) { good = good && this.removeChildAt(a[i]); }] *)
Fixpoint removeChildAt_loop (h : Heap) (this : oid) (a : list Z) (good : bool)
    : option (Heap * bool) :=
  match a with
  | [] => Some (h, good)
  | i :: a' =>
      if good
      then '(h1, r) ← removeChildAt1 h this i; removeChildAt_loop h1 this a' r
      else removeChildAt_loop h this a' false
  end.

(** [removeChildAt(index, ...)] *)
Definition removeChildAt (h : Heap) (this : oid) (index : Z) (more : list Z)
    : option (Heap * bool) :=
  match more with
  | [] => removeChildAt1 h this index
  | _ :: _ => removeChildAt_loop h this (sort_descending (index :: more)) true
  end.

(** [removeChild(child)] *)
Definition removeChild (h : Heap) (this : oid) (child : oid)
    : option (Heap * bool) :=
  cs ← children h !! this;
  removeChildAt h this (indexOf cs child) [].

(** The body of [addChild] for a single argument. *)
Definition addChild1 (h : Heap) (this : oid) (child : oid)
    : option (Heap * oid) :=
  h1 ← match parent h !! child with
       | Some p => fst <$> removeChild h p child
       | None => Some h
       end;
  let parent2 := <[child := this]> (parent h1) in
  cs ← children h1 !! this;
  Some (mkHeap parent2 (<[this := cs ++ [child]]> (children h1)), child).

(** [for (...) { this.addChild(arguments[i]); }] *)
Fixpoint addChild_loop (h : Heap) (this : oid) (args : list oid) : option Heap :=
  match args with
  | [] => Some h
  | x :: args' => '(h1, _) ← addChild1 h this x; addChild_loop h1 this args'
  end.

(** [addChild(child, ...)] *)
Definition addChild (h : Heap) (this : oid) (child : oid) (more : list oid)
    : option (Heap * oid) :=
  match more with
  | [] => addChild1 h this child
  | _ :: _ =>
      h1 ← addChild_loop h this (child :: more);
      Some (h1, List.last more child)
  end.

Definition getNumChildren (h : Heap) (this : oid) : option nat :=
  length <$> children h !! this.

(** ** Single ownership *)

(** Every child list is free of repetitions, and a node names a Container as
    its parent exactly when it is in the child list of that Container: a node
    is in at most one child list, once, and its parent is that Container. *)
Definition single_owner (h : Heap) : Prop :=
  (forall g cs, children h !! g = Some cs -> NoDup cs) /\
  (forall x g, parent h !! x = Some g <->
               exists cs, children h !! g = Some cs /\ x ∈ cs).

(** The list without the entries whose position is in [s]; positions are
    counted from [i]. *)
Fixpoint omit_from (i : Z) (s : list Z) (l : list oid) : list oid :=
  match l with
  | [] => []
  | x :: l' =>
      if bool_decide (i ∈ s) then omit_from (i + 1) s l'
      else x :: omit_from (i + 1) s l'
  end.

Definition omit (s : list Z) (l : list oid) : list oid := omit_from 0 s l.

(** The parent fields after the children at the positions [a] of [cs] have
    been detached. *)
Definition detach_all (cs : list oid) (pm : gmap oid oid) (a : list Z)
    : gmap oid oid :=
  fold_left (fun pm i => match cs !! Z.to_nat i with
                         | Some c => delete c pm
                         | None => pm
                         end) a pm.

(** The heap once the child at position [i] of the Container [g] has been
    removed, and once [child] has been pushed on the Container [g]. *)
Definition detached (h : Heap) (g : oid) (cs : list oid) (i : nat)
    (child : oid) : Heap :=
  mkHeap (delete child (parent h)) (<[g := delete i cs]> (children h)).

Definition attached (h : Heap) (g : oid) (cs : list oid) (child : oid)
    : Heap :=
  mkHeap (<[child := g]> (parent h)) (<[g := cs ++ [child]]> (children h)).

(** A Container, object 1, with the three children 10, 11 and 12. *)
Definition three_children : Heap :=
  mkHeap (<[10%nat := 1%nat]> (<[11%nat := 1%nat]> (<[12%nat := 1%nat]> ∅)))
         (<[1%nat := [10; 11; 12]%nat]> ∅).

(** Two Containers, 1 with the children 10 and 11, and 2 with the child 20. *)
Definition two_groups : Heap :=
  mkHeap (<[10%nat := 1%nat]> (<[11%nat := 1%nat]> (<[20%nat := 2%nat]> ∅)))
         (<[1%nat := [10; 11]%nat]> (<[2%nat := [20%nat]]> ∅)).

(** ** The other methods of the child list *)

(** [getChildAt(index)]: the child, or [undefined] ([None]) when nothing is
    stored at the index. *)
Definition getChildAt (h : Heap) (this : oid) (index : Z)
    : option (option oid) :=
  cs ← children h !! this;
  Some (if bool_decide (0 <= index) then cs !! Z.to_nat index else None).

(** [getChildIndex(child)] *)
Definition getChildIndex (h : Heap) (this : oid) (child : oid) : option Z :=
  cs ← children h !! this;
  Some (indexOf cs child).

(** [for (...) { good = good && this.removeChild(arguments[i]); }] *)
Fixpoint removeChild_loop (h : Heap) (this : oid) (args : list oid)
    (good : bool) : option (Heap * bool) :=
  match args with
  | [] => Some (h, good)
  | x :: args' =>
      if good
      then '(h1, r) ← removeChild h this x; removeChild_loop h1 this args' r
      else removeChild_loop h this args' false
  end.

(** [removeChild(child, ...)] with one argument or several. *)
Definition removeChildren (h : Heap) (this : oid) (child : oid)
    (more : list oid) : option (Heap * bool) :=
  match more with
  | [] => removeChild h this child
  | _ :: _ => removeChild_loop h this (child :: more) true
  end.

(** How a loop that the source does not bound ends: it runs out of the
    iterations granted, it raises a TypeError, or it finishes. *)
Inductive Loop (A : Type) :=
| OutOfFuel
| Raised
| Finished (a : A).
Arguments OutOfFuel {A}.
Arguments Raised {A}.
Arguments Finished {A}.

(** [while (this.children.length) { this.removeChildAt(0); }]; [fuel] is the
    number of iterations granted. *)
Fixpoint removeAllChildren (fuel : nat) (h : Heap) (this : oid) : Loop Heap :=
  match children h !! this with
  | None => Raised
  | Some [] => Finished h
  | Some (_ :: _) =>
      match fuel with
      | O => OutOfFuel
      | S fuel' =>
          match removeChildAt h this 0 [] with
          | Some (h1, _) => removeAllChildren fuel' h1 this
          | None => Raised
          end
      end
  end.

(** [array.splice(index, 0, child)]: a negative index counts from the end,
    and the position is clamped to the array. *)
Definition splice_insert (cs : list oid) (index : Z) (child : oid)
    : list oid :=
  let len := Z.of_nat (length cs) in
  let start := if bool_decide (index < 0)
               then Z.max (len + index) 0
               else Z.min index len in
  take (Z.to_nat start) cs ++ child :: drop (Z.to_nat start) cs.

(** [addChildAt(child, index)], called with these two arguments. *)
Definition addChildAt (h : Heap) (this : oid) (child : oid) (index : Z)
    : option (Heap * oid) :=
  h1 ← match parent h !! child with
       | Some p => fst <$> removeChild h p child
       | None => Some h
       end;
  let parent2 := <[child := this]> (parent h1) in
  cs ← children h1 !! this;
  Some (mkHeap parent2 (<[this := splice_insert cs index child]> (children h1)),
        child).

(** [contains(child)]: the walk up the [parent] fields from [child] ([None]
    for [null]); [fuel] is the number of iterations granted. *)
Fixpoint contains (fuel : nat) (h : Heap) (this : oid) (child : option oid)
    : Loop bool :=
  match child with
  | None => Finished false
  | Some c =>
      match fuel with
      | O => OutOfFuel
      | S fuel' =>
          if bool_decide (c = this) then Finished true
          else contains fuel' h this (parent h !! c)
      end
  end.

(** The ancestors of a node, nearest first: the chain of [parent] fields,
    as far as [n] steps. *)
Fixpoint ancestors (n : nat) (h : Heap) (x : oid) : list oid :=
  match n with
  | O => []
  | S n' =>
      match parent h !! x with
      | Some p => p :: ancestors n' h p
      | None => []
      end
  end.

(** The heap in which every child of the list [cs] of the Container [g] has
    been detached. *)
Definition emptied (h : Heap) (g : oid) (cs : list oid) : Heap :=
  mkHeap (foldr delete (parent h) cs) (<[g := []]> (children h)).

End Container.

(* ===================================================================== *)
(** * Container: drawing and point queries over a display tree            *)
(* ===================================================================== *)

Module HitTest.

(** The fields of a display object that drawing and point queries read. A
    handler field holds whether a handler is set; [cacheCanvas] whether a
    cache is active. *)
Record Props := mkProps {
  id : nat;
  visible : bool;
  alpha : Q;
  scaleX : Q;
  scaleY : Q;
  mouseEnabled : bool;
  cacheCanvas : bool;
  onPress : bool;
  onClick : bool;
  onDoubleClick : bool;
  onMouseOver : bool;
  onMouseOut : bool
}.

(** What a leaf class adds to the visibility test of the base class. *)
Inductive Content :=
| Plain
    (** a class that inherits [DisplayObject.isVisible] *)
| Bitmap (imageReady : bool)
    (** [image && (image.complete || image.getContext)] *)
| BitmapSequence (imageReady : bool) (currentFrame : Z)
    (** the frame is the one that normalization leaves current *)
| DOMElement (htmlElement : bool).

(** A display list below a node. The children of a Container are in paint
    order, index 0 first. *)
Inductive Node :=
| Leaf (p : Props) (k : Content)
| Container (p : Props) (children : list Node).

Definition props (n : Node) : Props :=
  match n with Leaf p _ => p | Container p _ => p end.

Definition isVisible_base (p : Props) : bool :=
  visible p && negb (Qle_bool (alpha p) 0)
  && negb (Qeq_bool (scaleX p) 0) && negb (Qeq_bool (scaleY p) 0).

(** [isVisible()], by class. *)
Definition isVisible (n : Node) : bool :=
  match n with
  | Leaf p Plain => isVisible_base p
  | Leaf p (Bitmap ready) => isVisible_base p && ready
  | Leaf p (BitmapSequence ready currentFrame) =>
      isVisible_base p && ready && bool_decide (0 <= currentFrame)
  | Leaf p (DOMElement htmlElement) => htmlElement
  | Container p children =>
      visible p && negb (Qle_bool (alpha p) 0)
      && negb (bool_decide (length children = 0%nat))
      && negb (Qeq_bool (scaleX p) 0) && negb (Qeq_bool (scaleY p) 0)
  end.

(** What a draw puts on the context. *)
Inductive PaintOp :=
| Blit (n : Node)      (** the cache canvas of [n] *)
| Content_ (n : Node). (** the own content of the leaf [n] *)

(** [draw(ctx, ignoreCache)]: the paint operations, in order. A Container
    paints every child that [isVisible()], whatever its [mouseEnabled]. *)
Definition draw_children (rec : Node -> bool -> list PaintOp)
    : list Node -> list PaintOp :=
  fix each (l : list Node) :=
    match l with
    | [] => []
    | child :: l' =>
        (if isVisible child then rec child false else []) ++ each l'
    end.

Fixpoint draw (n : Node) (ignoreCache : bool) : list PaintOp :=
  match n with
  | Leaf p (DOMElement htmlElement) =>
      if htmlElement then [Content_ n] else []
  | Leaf p (BitmapSequence _ currentFrame) =>
      if cacheCanvas p && negb ignoreCache then [Blit n]
      else if bool_decide (0 <= currentFrame) then [Content_ n] else []
  | Leaf p _ =>
      if cacheCanvas p && negb ignoreCache then [Blit n] else [Content_ n]
  | Container p children =>
      if cacheCanvas p && negb ignoreCache then [Blit n]
      else draw_children draw children
  end.

(** [mouseEvents & bit]; an omitted [mouseEvents] reads as 0. *)
Definition has_bit (mouseEvents : Z) (bit : Z) : bool :=
  negb (Z.land mouseEvents bit =? 0).

Definition handles (mouseEvents : Z) (p : Props) : bool :=
  (has_bit mouseEvents 1 && (onPress p || onClick p || onDoubleClick p))
  || (has_bit mouseEvents 2 && (onMouseOver p || onMouseOut p)).

(** The state of the shared 1x1 probe canvas: the nodes drawn into it since
    it was last reset ([canvas.width = 0; canvas.width = 1]). *)
Definition Probe := list Node.

(** The outcome of one run of the loop over the children. *)
Inductive Flow :=
| Returned (result : option (list Node))
| Fallthrough.

Section Queries.
(** [_testHit(ctx)] after a node was drawn into the probe: whether the pixel
    read back has alpha above 1. The first argument is what the probe held
    before. *)
Variable testHit : Probe -> Node -> bool.

(** The value of a call of [_getObjectsUnderPoint]: what it returns ([None]
    for [null]), the array [arr] it was given (shared with the caller), and
    the probe afterwards. *)
Definition Outcome : Type := option (list Node) * option (list Node) * Probe.

(** The loop of [_getObjectsUnderPoint] over the children [l], from the last
    to the first; [rec] is [_getObjectsUnderPoint] itself, called on a child
    that is a Container. *)
Definition children_loop
    (rec : Node -> option (list Node) -> Z -> Probe -> Outcome)
    (this : Node) (hasHandler : bool) (mouseEvents : Z)
    : list Node -> option (list Node) -> Probe
      -> Flow * option (list Node) * Probe :=
  fix loop (l : list Node) (arr : option (list Node)) (probe : Probe) :=
    match l with
    | [] => (Fallthrough, arr, probe)
    | child :: l' =>
        match loop l' arr probe with
        | (Returned r, arr1, probe1) => (Returned r, arr1, probe1)
        | (Fallthrough, arr1, probe1) =>
            if negb (isVisible child) || negb (mouseEnabled (props child))
            then (Fallthrough, arr1, probe1)
            else
              match child with
              | Container _ _ =>
                  if hasHandler then
                    match rec child None 0 probe1 with
                    | (Some _, _, probe2) =>
                        (Returned (Some [this]), arr1, probe2)
                    | (None, _, probe2) => (Fallthrough, arr1, probe2)
                    end
                  else
                    match rec child arr1 mouseEvents probe1 with
                    | (Some r, arr2, probe2) =>
                        match arr2 with
                        | None => (Returned (Some r), arr2, probe2)
                        | Some _ => (Fallthrough, arr2, probe2)
                        end
                    | (None, arr2, probe2) => (Fallthrough, arr2, probe2)
                    end
              | Leaf cp _ =>
                  if (mouseEvents =? 0) || hasHandler || handles mouseEvents cp
                  then
                    if negb (testHit probe1 child)
                    then (Fallthrough, arr1, probe1 ++ [child])
                    else if hasHandler
                    then (Returned (Some [this]), arr1, [])
                    else
                      match arr1 with
                      | Some a => (Fallthrough, Some (a ++ [child]), [])
                      | None => (Returned (Some [child]), arr1, [])
                      end
                  else (Fallthrough, arr1, probe1)
              end
        end
    end.

(** [return null] once the loop has fallen through. *)
Definition loop_result (r : Flow * option (list Node) * Probe) : Outcome :=
  match r with
  | (Returned v, arr1, probe1) => (v, arr1, probe1)
  | (Fallthrough, arr1, probe1) => (None, arr1, probe1)
  end.

(** [_getObjectsUnderPoint(x, y, arr, mouseEvents)]; it is a method of
    Container, a leaf has none. *)
Fixpoint _getObjectsUnderPoint (this : Node) (arr : option (list Node))
    (mouseEvents : Z) (probe : Probe) {struct this} : Outcome :=
  match this with
  | Leaf _ _ => (None, arr, probe)
  | Container p children =>
      let hasHandler := handles mouseEvents p in
      let run (probe : Probe) :=
        loop_result
          (children_loop _getObjectsUnderPoint this hasHandler mouseEvents
             children arr probe) in
      if cacheCanvas p then
        if testHit probe this then
          if hasHandler then (Some [this], arr, []) else run []
        else (Some [], arr, probe ++ [this])
      else run probe
  end.

(** [getObjectsUnderPoint(x, y)] *)
Definition getObjectsUnderPoint (this : Node) (probe : Probe) : list Node :=
  match _getObjectsUnderPoint this (Some []) 0 probe with
  | (_, Some arr, _) => arr
  | (_, None, _) => []
  end.

(** [getObjectUnderPoint(x, y)]: the value returned, or [None] when the
    indexing of a [null] result raises a TypeError. *)
Definition getObjectUnderPoint (this : Node) (probe : Probe)
    : option (option Node) :=
  match _getObjectsUnderPoint this None 0 probe with
  | (Some r, _, _) => Some (head r)
  | (None, _, _) => None
  end.

End Queries.

(** ** Vocabulary of the statements about point queries *)

(** Induction on a display tree, with the hypothesis for every child. *)
Definition Node_nested_ind (P : Node -> Prop)
    (Hleaf : forall p k, P (Leaf p k))
    (Hcontainer : forall p cs, Forall P cs -> P (Container p cs))
    : forall n, P n :=
  fix go (n : Node) : P n :=
    match n with
    | Leaf p k => Hleaf p k
    | Container p cs =>
        Hcontainer p cs
          ((fix all (l : list Node) : Forall P l :=
              match l with
              | [] => List.Forall_nil P
              | x :: l' => @List.Forall_cons Node P x l' (go x) (all l')
              end) cs)
    end.

(** A node that a point query may report: visible and mouse enabled. *)
Definition reportable (n : Node) : bool :=
  isVisible n && mouseEnabled (props n).

Definition all_reportable (o : option (list Node)) : Prop :=
  forall l, o = Some l -> Forall (fun n => reportable n = true) l.

Definition outcome_reportable (r : Outcome) : Prop :=
  all_reportable (fst (fst r)) /\ all_reportable (snd (fst r)).

Definition flow_reportable (r : Flow * option (list Node) * Probe) : Prop :=
  match fst (fst r) with
  | Returned v => all_reportable v
  | Fallthrough => True
  end /\ all_reportable (snd (fst r)).

(** A visible node with the given id. *)
Definition plain_props (i : nat) (enabled : bool) : Props :=
  mkProps i true 1%Q 1%Q 1%Q enabled false false false false false false.

(** A Container with two shapes under the query point: the lower one mouse
    enabled, the upper one not. *)
Definition lower_shape : Node := Leaf (plain_props 1 true) Plain.

Definition upper_shape : Node := Leaf (plain_props 2 false) Plain.

Definition two_shapes : Node :=
  Container (plain_props 0 true) [lower_shape; upper_shape].

(** Every pixel test hits. *)
Definition always_hit : Probe -> Node -> bool := fun _ _ => true.

(** [Container.prototype.hitTest]: [getObjectUnderPoint(x, y) != null];
    [None] when [getObjectUnderPoint] raises. *)
Definition hitTest (testHit : Probe -> Node -> bool) (this : Node)
    (probe : Probe) : option bool :=
  r ← getObjectUnderPoint testHit this probe;
  Some (bool_decide (is_Some r)).

(** ** The nodes under the point *)

Section Under.
(** Whether a node, drawn alone, covers the query point. *)
Variable hit : Node -> bool.

(** The leaves under the point among the descendants of the children [l],
    the top-most first: the last child comes first, a child that is not
    reportable hides its descendants, and so does a Container whose cache
    does not cover the point. *)
Definition under_children (rec : Node -> list Node)
    : list Node -> list Node :=
  fix each (l : list Node) :=
    match l with
    | [] => []
    | child :: l' =>
        each l' ++
        (if reportable child then
           match child with
           | Leaf _ _ => if hit child then [child] else []
           | Container _ _ => rec child
           end
         else [])
    end.

Fixpoint under (n : Node) : list Node :=
  match n with
  | Leaf _ _ => []
  | Container p children =>
      if cacheCanvas p && negb (hit n) then []
      else under_children under children
  end.

(** The pixel test of a probe canvas on which the misses before leave
    nothing that counts. *)
Definition pixel_test : Probe -> Node -> bool := fun _ n => hit n.

End Under.

(** No Container of the tree has a cache. *)
Fixpoint uncached (n : Node) : bool :=
  match n with
  | Leaf _ _ => true
  | Container p children => negb (cacheCanvas p) && forallb uncached children
  end.

(** Three shapes under the query point, all reportable. *)
Definition three_shapes : Node :=
  Container (plain_props 0 true)
    [Leaf (plain_props 1 true) Plain;
     Leaf (plain_props 2 true) Plain;
     Leaf (plain_props 3 true) Plain].

End HitTest.

(* ===================================================================== *)
(** * BitmapSequence                                                      *)
(* ===================================================================== *)

Module BitmapSequence.

(** The third entry of a sequence in [frameData]: omitted, [false], or the
    name of the sequence to play next. *)
Inductive Next :=
| NextOmitted
| NextFalse
| NextName (name : string).

(** An entry of [frameData]: [[start, end, next]] or a single frame. *)
Inductive FrameData :=
| FrameArray (startFrame : Z) (endFrame : option Z) (next : Next)
| FrameNumber (frame : Z).

(** easel.SpriteSheet, with the size of its image. *)
Record SpriteSheet := mkSpriteSheet {
  image_width : Z;
  image_height : Z;
  frameWidth : Z;
  frameHeight : Z;
  totalFrames : option Z;
  loop : bool;
  frameData : option (gmap string FrameData)
}.

(** A callback: a handle; what calling it does is a parameter below. *)
Definition Callback := nat.

Record t := mk {
  callback : option Callback;
  currentFrame : Z;
  currentSequence : option string;
  currentEndFrame : option Z;
  currentStartFrame : option Z;
  nextSequence : option string;
  paused : bool;
  spriteSheet : SpriteSheet;
  advanceFrequency : Z;
  advanceOffset : Z;
  _advanceCount : Z
}.

Record Rectangle := mkRectangle {
  x : Z;
  y : Z;
  width : Z;
  height : Z
}.

(** The argument of [_goto]: a frame number, or the name of a sequence (a
    string that does not read as a number). *)
Inductive FrameOrSequence :=
| Frame (n : Z)
| Sequence (name : string).

(** The calls of callbacks so far, oldest first: the handle, and the instance
    as the callback received it. *)
Definition Calls := list (Callback * t).

Definition set_currentFrame (s : t) (v : Z) : t :=
  mk (callback s) v (currentSequence s) (currentEndFrame s)
     (currentStartFrame s) (nextSequence s) (paused s) (spriteSheet s)
     (advanceFrequency s) (advanceOffset s) (_advanceCount s).

Definition set_paused (s : t) (v : bool) : t :=
  mk (callback s) (currentFrame s) (currentSequence s) (currentEndFrame s)
     (currentStartFrame s) (nextSequence s) v (spriteSheet s)
     (advanceFrequency s) (advanceOffset s) (_advanceCount s).

Definition set_advanceCount (s : t) (v : Z) : t :=
  mk (callback s) (currentFrame s) (currentSequence s) (currentEndFrame s)
     (currentStartFrame s) (nextSequence s) (paused s) (spriteSheet s)
     (advanceFrequency s) (advanceOffset s) v.

(** [_goto(frameOrSequence)]. [None] when the call raises a TypeError (no
    [frameData]) or assigns a frame that is not a number (the name is not in
    [frameData], or the sequence replayed has no start frame). *)
Definition _goto (s : t) (frameOrSequence : FrameOrSequence) : option t :=
  match frameOrSequence with
  | Sequence name =>
      if bool_decide (Some name = currentSequence s)
      then start ← currentStartFrame s; Some (set_currentFrame s start)
      else
        table ← frameData (spriteSheet s);
        data ← table !! name;
        match data with
        | FrameArray start endFrame next =>
            Some (mk (callback s) start (Some name)
                    (Some (match endFrame with Some e => e | None => start end))
                    (Some start)
                    (match next with
                     | NextOmitted => Some name
                     | NextFalse => None
                     | NextName n => if String.eqb n "" then None else Some n
                     end)
                    (paused s) (spriteSheet s)
                    (advanceFrequency s) (advanceOffset s) (_advanceCount s))
        | FrameNumber frame =>
            Some (mk (callback s) frame None (Some frame) (Some frame) None
                    (paused s) (spriteSheet s)
                    (advanceFrequency s) (advanceOffset s) (_advanceCount s))
        end
  | Frame n =>
      Some (mk (callback s) n None None (Some 0) None
              (paused s) (spriteSheet s)
              (advanceFrequency s) (advanceOffset s) (_advanceCount s))
  end.

Definition gotoAndPlay (s : t) (frameOrSequence : FrameOrSequence) : option t :=
  _goto (set_paused s false) frameOrSequence.

Definition gotoAndStop (s : t) (frameOrSequence : FrameOrSequence) : option t :=
  _goto (set_paused s true) frameOrSequence.

(** [advance()]; like every method below it is given the calls of callbacks
    so far and returns them with its own added. *)
Definition advance (s : t) (calls : Calls) : t * Calls :=
  (set_currentFrame s (currentFrame s + 1), calls).

(** [spriteSheet.totalFrames || cols*rows] *)
Definition ttlFrames (sheet : SpriteSheet) : Z :=
  let cols := div_trunc (image_width sheet) (frameWidth sheet) in
  let rows := div_trunc (image_height sheet) (frameHeight sheet) in
  match totalFrames sheet with
  | Some n => if n =? 0 then cols * rows else n
  | None => cols * rows
  end.

Section Methods.
(** What calling a callback does to the instance it receives. *)
Variable invoke : Callback -> t -> t.

(** [if (this.callback) { this.callback(this); }] *)
Definition run_callback (s : t) (calls : Calls) : t * Calls :=
  match callback s with
  | Some cb => (invoke cb s, calls ++ [(cb, s)])
  | None => (s, calls)
  end.

Definition _normalizeCurrentFrame (s : t) (calls : Calls) : option (t * Calls) :=
  match currentEndFrame s with
  | Some endFrame =>
      (* use sequencing. *)
      if bool_decide (currentFrame s > endFrame)
      then
        s1 ← match nextSequence s with
             | Some name =>
                 if truthy_str (nextSequence s)
                 then _goto s (Sequence name)
                 else Some (set_currentFrame (set_paused s true) endFrame)
             | None => Some (set_currentFrame (set_paused s true) endFrame)
             end;
        Some (run_callback s1 calls)
      else Some (s, calls)
  | None =>
      (* use simple mode. *)
      let ttl := ttlFrames (spriteSheet s) in
      if bool_decide (currentFrame s >= ttl)
      then
        let s1 := if loop (spriteSheet s)
                  then set_currentFrame s 0
                  else set_paused (set_currentFrame s (ttl - 1)) true in
        Some (run_callback s1 calls)
      else Some (s, calls)
  end.

Definition _tick (s : t) (calls : Calls) : option (t * Calls) :=
  let s1 :=
    if bool_decide (currentFrame s = -1) && bool_decide (is_Some (frameData (spriteSheet s)))
    then set_paused s true
    else s in
  if paused s1 then Some (s1, calls)
  else
    let s2 := set_advanceCount s1 (_advanceCount s1 + 1) in
    if rem_is_zero (_advanceCount s2 + advanceOffset s2) (advanceFrequency s2)
    then _normalizeCurrentFrame (set_currentFrame s2 (currentFrame s2 + 1)) calls
    else Some (s2, calls).

(** [getCurrentFrameRect()]; the rectangle is [None] when the function
    returns nothing. The run is [None] when [cols] is 0 and a frame is
    current (the rectangle would hold NaN). *)
Definition getCurrentFrameRect (s : t) (calls : Calls)
    : option (t * Calls * option Rectangle) :=
  let sheet := spriteSheet s in
  let cols := div_trunc (image_width sheet) (frameWidth sheet) in
  '(s1, calls1) ← _normalizeCurrentFrame s calls;
  if bool_decide (currentFrame s1 >= 0)
  then
    if cols =? 0 then None
    else
      let col := Z.rem (currentFrame s1) cols in
      let row := div_trunc (currentFrame s1) cols in
      Some (s1, calls1,
            Some (mkRectangle (frameWidth sheet * col) (frameHeight sheet * row)
                    (frameWidth sheet) (frameHeight sheet)))
  else Some (s1, calls1, None).

End Methods.

(** ** Vocabulary of the statements about frames *)

(** The instance that simple-mode normalization hands to the callback when
    the current frame has run past the last one. *)
Definition wrapped (s : t) : t :=
  if loop (spriteSheet s)
  then set_currentFrame s 0
  else set_paused (set_currentFrame s (ttlFrames (spriteSheet s) - 1)) true.

(** A sheet of four frames that loops, the last frame current, a callback
    registered, playing on every tick. *)
Definition looping_at_last_frame (cb : Callback) : t :=
  mk (Some cb) 3 None None (Some 0) None false
     (mkSpriteSheet 200 100 50 50 (Some 4) true None) 1 0 0.

(** The same on a sheet that does not loop. *)
Definition stopping_at_last_frame (cb : Callback) : t :=
  mk (Some cb) 3 None None (Some 0) None false
     (mkSpriteSheet 200 100 50 50 (Some 4) false None) 1 0 0.

(** A callback that leaves the instance alone. *)
Definition quiet_callback : Callback -> t -> t := fun _ s => s.

(** ** Runs of ticks, and the frame rectangle *)

Section Runs.
Variable invoke : Callback -> t -> t.

(** [n] calls of [_tick] in a row. *)
Fixpoint ticks (n : nat) (s : t) (calls : Calls) : option (t * Calls) :=
  match n with
  | O => Some (s, calls)
  | S n' => '(s1, calls1) ← _tick invoke s calls; ticks n' s1 calls1
  end.

End Runs.

(** [new easel.BitmapSequence(spriteSheet)]: the defaults of the prototype. *)
Definition new (sheet : SpriteSheet) : t :=
  mk None (-1) None None None None false sheet 1 0 0.

(** The rectangle lies within the image of the sheet. *)
Definition inside_image (sheet : SpriteSheet) (r : Rectangle) : Prop :=
  0 <= x r /\ 0 <= y r /\
  x r + width r <= image_width sheet /\
  y r + height r <= image_height sheet.

(** The frame is within the window that normalization enforces: up to the
    end frame of the sequence, or below the frame count in simple mode. *)
Definition in_window (s : t) (frame : Z) : Prop :=
  match currentEndFrame s with
  | Some endFrame => frame <= endFrame
  | None => frame < ttlFrames (spriteSheet s)
  end.

(** The instance with the frame and the tick count replaced. *)
Definition at_frame (s : t) (frame count : Z) : t :=
  mk (callback s) frame (currentSequence s) (currentEndFrame s)
     (currentStartFrame s) (nextSequence s) (paused s) (spriteSheet s)
     (advanceFrequency s) (advanceOffset s) count.

(** An instance in simple mode on a sheet of 4 x 2 frames, at frame 0, that
    advances on every second tick. *)
Definition every_second_tick : t :=
  mk None 0 None None (Some 0) None false
     (mkSpriteSheet 200 100 50 50 None true None) 2 0 0.

(** A sheet of 4 x 2 frames with the sequence "run" over the frames 2 to
    5. *)
Definition run_sheet : SpriteSheet :=
  mkSpriteSheet 200 100 50 50 None true
    (Some (<["run"%string := FrameArray 2 (Some 5) NextOmitted]> ∅)).

End BitmapSequence.

(* ===================================================================== *)
(** * Theorems                                                            *)
(* ===================================================================== *)

(* --------------------------------------------------------------------- *)
(** ** Matrix2D                                                           *)
(* --------------------------------------------------------------------- *)

Section Matrix2D_facts.
Import Matrix2D.

Lemma num_or_rational (x : Q) : (num_or x (lit 0) == x)%Q.
Proof.
  unfold num_or; simpl.
  destruct (Qeq_bool x 0) eqn:E; simpl; [|reflexivity].
  apply Qeq_bool_iff in E. now rewrite E.
Qed.

Lemma clone_rational (m : Matrix2D.t Q) : coefficients_eq (clone m) m.
Proof.
  destruct m; unfold coefficients_eq, clone, new, initialize; simpl.
  rewrite !num_or_rational. repeat split; reflexivity.
Qed.

(** Over the rationals the inverse of the inverse is the matrix itself. *)
Lemma invert_invert_rational (m : Matrix2D.t Q) :
  ~ (det m == 0)%Q -> coefficients_eq (invert (invert m)) m.
Proof.
  destruct m as [a0 b0 c0 d0 tx0 ty0 al sh co].
  unfold det, coefficients_eq, invert; simpl. intros Hn.
  repeat split; field; exact Hn.
Qed.

(** The inherited properties are not touched by [invert] and [clone]. *)
Lemma invert_properties {num} `{JSNumber num} (m : Matrix2D.t num) :
  alpha (invert m) = alpha m /\ shadow (invert m) = shadow m /\
  compositeOperation (invert m) = compositeOperation m.
Proof. now destruct m. Qed.

Lemma clone_properties {num} `{JSNumber num} (m : Matrix2D.t num) :
  alpha (clone m) = alpha m /\ shadow (clone m) = shadow m /\
  compositeOperation (clone m) = compositeOperation m.
Proof. now destruct m. Qed.

(** IEEE-754: any double divided by a zero of either sign is NaN or an
    infinity. *)
Lemma float_div_zero (x n : float) :
  PrimFloat.eqb n PrimFloat.zero = true -> nan_or_infinite (x / n) = true.
Proof.
  unfold nan_or_infinite, PrimFloat.is_nan, PrimFloat.is_infinity.
  rewrite !FloatAxioms.eqb_spec, FloatAxioms.abs_spec, FloatAxioms.div_spec.
  change (Prim2SF PrimFloat.zero) with (S754_zero false).
  change (Prim2SF PrimFloat.infinity) with (S754_infinity false).
  destruct (Prim2SF n) as [sn|sn| |sn mn en]; simpl;
    try discriminate; try (destruct sn; discriminate).
  intros _.
  destruct (Prim2SF x) as [sx|sx| |sx mx ex]; try reflexivity;
    destruct sx, sn; reflexivity.
Qed.

Lemma invert_zero_determinant (m : Matrix2D.t float) :
  neqb (det m) (lit 0) = true -> coefficients_nan_or_infinite (invert m) = true.
Proof.
  intros Hn.
  assert (Hz : PrimFloat.eqb (det m) PrimFloat.zero = true) by exact Hn.
  unfold coefficients_nan_or_infinite, invert; simpl.
  fold (det m).
  rewrite !float_div_zero by exact Hz. reflexivity.
Qed.




(** C7 (as amended). [appendProperties] and [prependProperties] multiply
    alpha by the argument and leave the six coefficients alone. For the
    shadow, an object, the incoming value replaces the existing one in
    [appendProperties] exactly when it is not null, and in
    [prependProperties] exactly when the existing one is null. For
    compositeOperation, a string, the test is truthiness: the empty string
    counts as absent like null. *)
Theorem appendProperties_prependProperties_precedence
    {num : Type} `{JSNumber num} (m : Matrix2D.t num) (alpha' : num)
    (shadow' : option (Shadow num)) (compositeOperation' : option string) :
  let ap := appendProperties m alpha' shadow' compositeOperation' in
  let pp := prependProperties m alpha' shadow' compositeOperation' in
  alpha ap = nmul (alpha m) alpha' /\
  alpha pp = nmul (alpha m) alpha' /\
  shadow ap = match shadow' with
              | Some s => Some s
              | None => shadow m
              end /\
  shadow pp = match shadow m with
              | Some s => Some s
              | None => shadow'
              end /\
  compositeOperation ap = match compositeOperation' with
                          | None | Some EmptyString => compositeOperation m
                          | Some s => Some s
                          end /\
  compositeOperation pp = match compositeOperation m with
                          | None | Some EmptyString => compositeOperation'
                          | Some s => Some s
                          end /\
  (a ap, b ap, c ap, d ap, tx ap, ty ap) = (a m, b m, c m, d m, tx m, ty m) /\
  (a pp, b pp, c pp, d pp, tx pp, ty pp) = (a m, b m, c m, d m, tx m, ty m).
Proof.
  destruct m as [a0 b0 c0 d0 tx0 ty0 al sh co]; simpl.
  repeat split.
  - now destruct shadow'.
  - now destruct sh.
  - now destruct compositeOperation' as [[|]|].
  - now destruct co as [[|]|].
Qed.

(** C7, counterexample. An incoming compositeOperation that is the empty
    string is not null, yet [appendProperties] keeps the existing value; an
    existing compositeOperation that is the empty string is not null, yet
    [prependProperties] takes the incoming value. *)
Lemma properties_empty_string_counterexample :
  let m := Matrix2D.mk 1%Q 0%Q 0%Q 1%Q 0%Q 0%Q 1%Q None (Some "multiply"%string) in
  let e := Matrix2D.mk 1%Q 0%Q 0%Q 1%Q 0%Q 0%Q 1%Q None (Some ""%string) in
  Some ""%string <> None /\
  compositeOperation (appendProperties m 1%Q None (Some ""%string))
    = Some "multiply"%string /\
  compositeOperation (prependProperties e 1%Q None (Some "lighter"%string))
    = Some "lighter"%string.
Proof. repeat split. discriminate. Qed.

End Matrix2D_facts.

(* --------------------------------------------------------------------- *)
(** ** DisplayObject: updateCache                                         *)
(* --------------------------------------------------------------------- *)

Section DisplayObject_facts.
Import DisplayObject.
Variable paint : Canvas -> Canvas.

Lemma applyFilter_fold_state (l : list Filter) (w h : Z) (cv : Canvas) :
  let r := fold_left (fun ctx f => applyFilter ctx f 0 0 w h) l cv in
  globalCompositeOperation r = globalCompositeOperation cv /\
  width r = width cv /\ height r = height cv /\ translate r = translate cv.
Proof.
  revert cv. induction l as [|f l IH]; intros cv; simpl; [easy|].
  destruct (IH (applyFilter cv f 0 0 w h)) as (-> & -> & -> & ->). easy.
Qed.

Lemma filtered_globalCompositeOperation fl cv :
  globalCompositeOperation (filtered fl cv) = globalCompositeOperation cv.
Proof.
  destruct fl as [l|]; [|reflexivity]. apply applyFilter_fold_state.
Qed.

Lemma _applyFilters_cached fl cv ox oy :
  _applyFilters (mk (Some cv) ox oy fl) = mk (Some (filtered fl cv)) ox oy fl.
Proof. unfold _applyFilters, filtered; simpl. now destruct fl as [[|f l]|]. Qed.

Lemma updateCache_without_cache ox oy fl comp :
  updateCache paint (mk None ox oy fl) comp = Throw updateCache_message.
Proof. reflexivity. Qed.

Lemma updateCache_clear_redraw cc ox oy fl comp :
  truthy_str comp = false ->
  updateCache paint (mk (Some cc) ox oy fl) comp
  = Normal (mk (Some (filtered fl
       (paint (clearRect (setTransform cc (- ox) (- oy))
                 0 0 (width cc + 1) (height cc + 1))))) ox oy fl).
Proof.
  intros Hc. unfold updateCache; simpl. rewrite Hc.
  unfold draw, draw_base; simpl.
  rewrite _applyFilters_cached. now destruct comp.
Qed.

Lemma updateCache_draw_over cc ox oy fl s :
  truthy_str (Some s) = true ->
  updateCache paint (mk (Some cc) ox oy fl) (Some s)
  = Normal (mk (Some (filtered fl
       (set_globalCompositeOperation
          (paint (set_globalCompositeOperation (setTransform cc (- ox) (- oy)) s))
          "source-over"))) ox oy fl).
Proof.
  intros Hc. unfold updateCache; simpl. simpl in Hc. rewrite Hc.
  unfold draw, draw_base; simpl.
  now rewrite _applyFilters_cached.
Qed.

(** Without a cache -- on a node as constructed, after [uncache()], or
    on any node whose [cacheCanvas] is null -- [updateCache] raises the error
    "cache() must be called before updateCache()" and returns no node. With a
    cache [cc] and no compositeOperation (null, or the empty string) it sets
    the cache transform, issues [clearRect(0, 0, width+1, height+1)] on the
    cache, lets the node paint itself with the cache ignored, and runs the
    filters; the composite rule of the context is as the painting left it.
    With a compositeOperation [s] it issues no clear: the node paints over the
    pixels the cache held, on a context whose rule is [s], and the rule is
    "source-over" when [updateCache] returns. *)
Lemma updateCache_outcomes
    (o : t) (cc : Canvas) (ox oy : Z) (fl : option (list Filter))
    (ch : Ascii.ascii) (rest : string) :
  let cached := mk (Some cc) ox oy fl in
  let s := String ch rest in
  let ctx := setTransform cc (- ox) (- oy) in
  (forall comp, updateCache paint new comp = Throw updateCache_message) /\
  (forall comp, updateCache paint (uncache o) comp = Throw updateCache_message) /\
  (forall comp, updateCache paint (mk None ox oy fl) comp
                = Throw updateCache_message) /\
  updateCache paint cached None
  = Normal (mk (Some (filtered fl
       (paint (clearRect ctx 0 0 (width cc + 1) (height cc + 1))))) ox oy fl) /\
  updateCache paint cached (Some ""%string) = updateCache paint cached None /\
  pixels (clearRect ctx 0 0 (width cc + 1) (height cc + 1))
  = pixels cc ++ [ClearRect 0 0 (width cc + 1) (height cc + 1) (- ox) (- oy)] /\
  updateCache paint cached (Some s)
  = Normal (mk (Some (filtered fl
       (set_globalCompositeOperation
          (paint (set_globalCompositeOperation ctx s)) "source-over"))) ox oy fl) /\
  pixels (set_globalCompositeOperation ctx s) = pixels cc /\
  globalCompositeOperation (set_globalCompositeOperation ctx s) = s /\
  (exists cc', updateCache paint cached (Some s) = Normal (mk (Some cc') ox oy fl) /\
               globalCompositeOperation cc' = "source-over"%string).
Proof.
  intros cached s ctx. subst cached s ctx.
  split; [reflexivity|]. split; [reflexivity|]. split; [reflexivity|].
  split; [now apply updateCache_clear_redraw|].
  split; [now rewrite !updateCache_clear_redraw|].
  split; [reflexivity|].
  assert (Hs : truthy_str (Some (String ch rest)) = true) by reflexivity.
  split; [now apply updateCache_draw_over|].
  split; [reflexivity|]. split; [reflexivity|].
  eexists. split; [now apply updateCache_draw_over|].
  now rewrite filtered_globalCompositeOperation.
Qed.

(** [cache(x, y, w, h)] on a fresh node: a new canvas of that size, cleared,
    painted under the translation [(-x, -y)]. *)
Lemma cache_new x y w h :
  cache paint new x y w h
  = mk (Some (paint (clearRect (setTransform (set_size createCanvas w h) (- x) (- y))
                       0 0 (w + 1) (h + 1)))) x y None.
Proof. reflexivity. Qed.

(** The rectangle that [updateCache] clears is [(0, 0, width+1, height+1)]
    moved by the cache translation: it contains the surface exactly when
    both cache offsets are 0 or 1. *)
Lemma updateCache_clear_region (ox oy w h : Z) :
  0 < w -> 0 < h ->
  clears_surface (ClearRect 0 0 (w + 1) (h + 1) (- ox) (- oy)) w h
  <-> 0 <= ox <= 1 /\ 0 <= oy <= 1.
Proof.
  intros Hw Hh. unfold clears_surface, clears_pixel. split.
  - intros H.
    pose proof (H 0 0 ltac:(lia) ltac:(lia)) as H0.
    pose proof (H (w - 1) (h - 1) ltac:(lia) ltac:(lia)) as H1.
    rewrite !andb_true_iff, !Z.leb_le, !Z.ltb_lt in H0, H1. lia.
  - intros Ho px py Hx Hy.
    rewrite !andb_true_iff, !Z.leb_le, !Z.ltb_lt. lia.
Qed.

(** C3 (defect of the code). A node cached with [cache(-25, -25, 50, 50)],
    the example of the documentation of [cache], holds a 50 x 50 surface and
    the offsets (-25, -25). [updateCache()] without a compositeOperation
    then sets the translation (25, 25) and issues [clearRect(0, 0, 51, 51)]:
    the pixels cleared are those of [25, 76) x [25, 76), pixel (0, 0) is not
    among them, and the surface is not cleared before the node is painted
    again. The painting of the node is any that leaves the size of the canvas
    alone. *)
Theorem updateCache_clear_misses_offset_cache :
  (forall c, width (paint c) = width c /\ height (paint c) = height c) ->
  let o := cache paint new (-25) (-25) 50 50 in
  let op := ClearRect 0 0 51 51 25 25 in
  exists cc,
    cacheCanvas o = Some cc /\
    _cacheOffsetX o = -25 /\ _cacheOffsetY o = -25 /\
    width cc = 50 /\ height cc = 50 /\
    updateCache paint o None
    = Normal (mk (Some (paint (clearRect (setTransform cc 25 25) 0 0 51 51)))
                (-25) (-25) None) /\
    pixels (clearRect (setTransform cc 25 25) 0 0 51 51) = pixels cc ++ [op] /\
    (forall px py,
        clears_pixel op px py = true <-> 25 <= px < 76 /\ 25 <= py < 76) /\
    clears_pixel op 0 0 = false /\
    ~ clears_surface op (width cc) (height cc).
Proof.
  intros Hsize o op. subst o op. rewrite cache_new.
  set (cc := paint _).
  assert (Hw : width cc = 50) by (subst cc; now rewrite (proj1 (Hsize _))).
  assert (Hh : height cc = 50) by (subst cc; now rewrite (proj2 (Hsize _))).
  exists cc. repeat (split; [reflexivity|]).
  split; [exact Hw|]. split; [exact Hh|].
  split.
  { rewrite (updateCache_clear_redraw cc (-25) (-25) None None eq_refl).
    now rewrite Hw, Hh. }
  split; [reflexivity|].
  split.
  { intros px py. unfold clears_pixel.
    rewrite !andb_true_iff, !Z.leb_le, !Z.ltb_lt. lia. }
  split; [reflexivity|].
  rewrite Hw, Hh. intros H.
  specialize (H 0 0 ltac:(lia) ltac:(lia)). discriminate H.
Qed.

End DisplayObject_facts.

(** The node that paints nothing, cached over (-25, -25, 50, 50). *)
Lemma updateCache_clear_misses_witness :
  exists cc,
    DisplayObject.cacheCanvas
      (DisplayObject.cache (fun c => c) DisplayObject.new (-25) (-25) 50 50)
    = Some cc /\
    ~ DisplayObject.clears_surface (DisplayObject.ClearRect 0 0 51 51 25 25)
        (DisplayObject.width cc) (DisplayObject.height cc).
Proof.
  destruct (updateCache_clear_misses_offset_cache (fun c => c))
    as (cc & Hcc & _ & _ & _ & _ & _ & _ & _ & _ & Hno).
  - intros c. split; reflexivity.
  - exists cc. split; [exact Hcc | exact Hno].
Defined.

(* --------------------------------------------------------------------- *)
(** ** Container: removeChildAt                                           *)
(* --------------------------------------------------------------------- *)

Section Container_removal.
Import Container.
Implicit Types (h : Heap) (this child : oid) (cs : list oid) (a s : list Z).

#[local] Instance Zge_transitive : Transitive Z.ge.
Proof. intros x y z; lia. Qed.

#[local] Instance Zge_total : Total Z.ge.
Proof. intros x y. lia. Qed.

Lemma heap_eta h : mkHeap (parent h) (children h) = h.
Proof. now destruct h. Qed.

Lemma removeChildAt1_out_of_range h this cs index :
  children h !! this = Some cs ->
  index < 0 \/ index >= Z.of_nat (length cs) ->
  removeChildAt1 h this index = Some (h, false).
Proof.
  intros Hcs Hr. unfold removeChildAt1. rewrite Hcs; simpl.
  rewrite bool_decide_eq_true_2 by lia. reflexivity.
Qed.

Lemma removeChildAt1_in_range h this cs index child :
  children h !! this = Some cs ->
  0 <= index ->
  cs !! Z.to_nat index = Some child ->
  removeChildAt1 h this index
  = Some (mkHeap (delete child (parent h))
            (<[this := delete (Z.to_nat index) cs]> (children h)), true).
Proof.
  intros Hcs H0 Hc. unfold removeChildAt1. rewrite Hcs; simpl.
  apply lookup_lt_Some in Hc as Hlt.
  rewrite bool_decide_eq_false_2 by lia. now rewrite Hc.
Qed.

Lemma detach_all_ext cs cs' pm a :
  Forall (fun i => cs' !! Z.to_nat i = cs !! Z.to_nat i) a ->
  detach_all cs' pm a = detach_all cs pm a.
Proof.
  revert pm. induction a as [|i a IH]; intros pm Ha; [reflexivity|].
  apply Forall_cons in Ha as [Hi Ha]. simpl. rewrite Hi. now apply IH.
Qed.

Lemma detach_all_None cs pm a x :
  pm !! x = None -> detach_all cs pm a !! x = None.
Proof.
  revert pm. induction a as [|i a IH]; intros pm Hx; [exact Hx|].
  simpl. apply IH. destruct (cs !! Z.to_nat i) as [c|]; [|exact Hx].
  destruct (decide (c = x)) as [->|Hne].
  - apply lookup_delete_eq.
  - now rewrite lookup_delete_ne.
Qed.

Lemma detach_all_removed cs pm a i x :
  i ∈ a -> cs !! Z.to_nat i = Some x -> detach_all cs pm a !! x = None.
Proof.
  revert pm. induction a as [|j a IH]; intros pm Hin Hx.
  - now apply elem_of_nil in Hin.
  - apply elem_of_cons in Hin as [<-|Hin]; simpl.
    + rewrite Hx. apply detach_all_None, lookup_delete_eq.
    + now apply IH.
Qed.

Lemma detach_all_other cs pm a x :
  (forall i, i ∈ a -> cs !! Z.to_nat i <> Some x) ->
  detach_all cs pm a !! x = pm !! x.
Proof.
  revert pm. induction a as [|j a IH]; intros pm Hx; [reflexivity|].
  simpl. rewrite IH by (intros i Hi; apply Hx; now right).
  destruct (cs !! Z.to_nat j) as [c|] eqn:E; [|reflexivity].
  apply lookup_delete_ne. intros ->. apply (Hx j); [now left|exact E].
Qed.

Lemma omit_from_ext k s s' l :
  (forall i, i ∈ s <-> i ∈ s') -> omit_from k s l = omit_from k s' l.
Proof.
  intros H. revert k. induction l as [|x l IH]; intros k; [reflexivity|].
  simpl. rewrite (bool_decide_ext _ _ (H k)), !IH. reflexivity.
Qed.

Lemma omit_from_below k s l :
  (forall i, i ∈ s -> i < k) -> omit_from k s l = l.
Proof.
  revert k. induction l as [|x l IH]; intros k H; [reflexivity|].
  simpl. rewrite bool_decide_eq_false_2.
  - f_equal. apply IH. intros i Hi. specialize (H i Hi). lia.
  - intros Hk. specialize (H k Hk). lia.
Qed.

(** Deleting position [i], then omitting positions below it, omits both. *)
Lemma omit_from_delete k s l (i : nat) :
  (forall j, j ∈ s -> j < k + Z.of_nat i) ->
  (i < length l)%nat ->
  omit_from k s (delete i l) = omit_from k ((k + Z.of_nat i) :: s) l.
Proof.
  revert k i. induction l as [|x l IH]; intros k i Hs Hi; [simpl in Hi; lia|].
  destruct i as [|i]; simpl.
  - rewrite Z.add_0_r in *.
    rewrite bool_decide_eq_true_2 by (now left).
    rewrite omit_from_below by exact Hs.
    symmetry. apply omit_from_below.
    intros j [->|Hj]%elem_of_cons; [lia|]. specialize (Hs j Hj). lia.
  - assert (E : k + Z.of_nat (S i) = (k + 1) + Z.of_nat i) by lia.
    rewrite E in *.
    rewrite (IH (k + 1) i) by (simpl in Hi; first [exact Hs | lia]).
    assert (Hk : k ∈ s <-> k ∈ (k + 1 + Z.of_nat i) :: s).
    { rewrite elem_of_cons. split; [now right|]. intros [?|?]; [lia|easy]. }
    now rewrite (bool_decide_ext _ _ Hk).
Qed.

Lemma omit_length_bound k s l : (length (omit_from k s l) <= length l)%nat.
Proof.
  revert k. induction l as [|x l IH]; intros k; simpl; [lia|].
  specialize (IH (k + 1)). case_bool_decide; simpl; lia.
Qed.

(** The loop of [removeChildAt] over indices in strictly descending order,
    all in range: every call succeeds. *)
Lemma removeChildAt_loop_descending this a :
  forall h cs,
  children h !! this = Some cs ->
  StronglySorted Z.ge a -> NoDup a ->
  (forall i, i ∈ a -> 0 <= i < Z.of_nat (length cs)) ->
  removeChildAt_loop h this a true
  = Some (mkHeap (detach_all cs (parent h) a)
            (<[this := omit a cs]> (children h)), true).
Proof.
  induction a as [|i a IH]; intros h cs Hcs Hsort Hnd Hr.
  - simpl. unfold omit. rewrite omit_from_below by (intros ? []%elem_of_nil).
    rewrite insert_id by exact Hcs. now rewrite heap_eta.
  - apply StronglySorted_inv in Hsort as [Hsort Hall].
    apply NoDup_cons in Hnd as [Hni Hnd].
    assert (Hlt : forall j, j ∈ a -> j < i).
    { intros j Hj. rewrite Forall_forall in Hall. specialize (Hall j Hj).
      assert (j <> i) by (intros ->; contradiction). lia. }
    destruct (Hr i) as [Hi0 Hil]; [now left|].
    destruct (lookup_lt_is_Some_2 cs (Z.to_nat i)) as [child Hchild]; [lia|].
    simpl. rewrite (removeChildAt1_in_range h this cs i child) by assumption.
    simpl.
    rewrite (IH _ (delete (Z.to_nat i) cs)); simpl.
    + rewrite Hchild, insert_insert_eq. do 3 f_equal.
      * apply detach_all_ext, Forall_forall. intros j Hj.
        apply list_lookup_delete_lt. specialize (Hlt j Hj).
        destruct (Hr j); [now right|]. lia.
      * unfold omit. rewrite omit_from_delete.
        -- now rewrite Z.add_0_l, Z2Nat.id.
        -- intros j Hj. specialize (Hlt j Hj). lia.
        -- lia.
    + apply lookup_insert_eq.
    + exact Hsort.
    + exact Hnd.
    + intros j Hj. specialize (Hlt j Hj). destruct (Hr j); [now right|].
      rewrite length_delete by (exists child; exact Hchild). lia.
Qed.

Lemma sort_descending_spec a :
  StronglySorted Z.ge (sort_descending a) /\
  (NoDup a -> NoDup (sort_descending a)) /\
  (forall i, i ∈ sort_descending a <-> i ∈ a).
Proof.
  unfold sort_descending. split; [apply StronglySorted_merge_sort; apply _|].
  pose proof (merge_sort_Permutation Z.ge a) as Hp. split.
  - intros Hnd. now rewrite Hp.
  - intros i. now rewrite Hp.
Qed.

(** The general form of C5, for one index or several. *)
Lemma removeChildAt_distinct_in_range h this cs index more :
  children h !! this = Some cs ->
  NoDup (index :: more) ->
  (forall i, i ∈ index :: more -> 0 <= i < Z.of_nat (length cs)) ->
  removeChildAt h this index more
  = Some (mkHeap (detach_all cs (parent h) (sort_descending (index :: more)))
            (<[this := omit (index :: more) cs]> (children h)), true).
Proof.
  intros Hcs Hnd Hr.
  destruct (sort_descending_spec (index :: more)) as (Hs & Hn & Hm).
  destruct more as [|j more].
  - unfold removeChildAt.
    destruct (Hr index) as [H0 Hl]; [now left|].
    destruct (lookup_lt_is_Some_2 cs (Z.to_nat index)) as [child Hc]; [lia|].
    rewrite (removeChildAt1_in_range h this cs index child) by assumption.
    unfold omit. rewrite <- (Z2Nat.id index) at 3 by exact H0.
    rewrite <- (Z.add_0_l (Z.of_nat (Z.to_nat index))).
    rewrite <- omit_from_delete; [|intros ? []%elem_of_nil|lia].
    rewrite omit_from_below by (intros ? []%elem_of_nil).
    cbv [sort_descending merge_sort merge_sort_aux merge_list_to_stack
         merge_stack list_merge detach_all fold_left].
    now rewrite Hc.
  - unfold removeChildAt.
    rewrite (removeChildAt_loop_descending this _ h cs); auto.
    + unfold omit. now rewrite (omit_from_ext 0 _ _ cs Hm).
    + intros i Hi. apply Hr. now apply Hm.
Qed.

End Container_removal.

Section Container_removal_theorems.
Import Container.

(** C5. For a Container with child list [cs] and distinct indices, all
    within [0, length cs), passed to one call of [removeChildAt] in any
    order: the call returns true; the child list afterwards is [cs] without
    the entries at those positions, the others in their original order; the
    parent of every child that stood at one of those positions is null; no
    other parent field and no other child list changes. *)
Theorem removeChildAt_removes_the_indexed_children
    (h : Heap) (this : oid) (cs : list oid) (index : Z) (more : list Z) :
  children h !! this = Some cs ->
  NoDup (index :: more) ->
  (forall i, i ∈ index :: more -> 0 <= i < Z.of_nat (length cs)) ->
  exists h',
    removeChildAt h this index more = Some (h', true) /\
    children h' !! this = Some (omit (index :: more) cs) /\
    (forall i c, i ∈ index :: more -> cs !! Z.to_nat i = Some c ->
                 parent h' !! c = None) /\
    (forall x, (forall i, i ∈ index :: more -> cs !! Z.to_nat i <> Some x) ->
               parent h' !! x = parent h !! x) /\
    (forall g, g <> this -> children h' !! g = children h !! g).
Proof.
  intros Hcs Hnd Hr.
  destruct (sort_descending_spec (index :: more)) as (_ & _ & Hm).
  pose proof (removeChildAt_distinct_in_range h this cs index more Hcs Hnd Hr)
    as Hrun.
  eexists. split; [exact Hrun|]. simpl.
  split; [apply lookup_insert_eq|].
  split; [|split].
  - intros i c Hi Hc. apply (detach_all_removed cs _ _ i); [now apply Hm|exact Hc].
  - intros x Hx. apply detach_all_other. intros i Hi. apply Hx. now apply Hm.
  - intros g Hg. now apply lookup_insert_ne.
Qed.

(** C5, witness: [removeChildAt(2, 0)] on the Container with three children
    removes the first and the third and keeps the second. *)
Lemma removeChildAt_2_0_witness :
  exists h',
    removeChildAt three_children 1%nat 2 [0] = Some (h', true) /\
    children h' !! 1%nat = Some [11%nat] /\
    parent h' !! 10%nat = None /\
    parent h' !! 12%nat = None /\
    parent h' !! 11%nat = Some 1%nat.
Proof.
  destruct (removeChildAt_removes_the_indexed_children
              three_children 1%nat [10; 11; 12]%nat 2 [0])
    as (h' & Hrun & Hcs & Hrem & Hkeep & _).
  - reflexivity.
  - apply NoDup_cons. split; [|apply NoDup_singleton].
    intros Hin. apply list_elem_of_singleton in Hin. discriminate.
  - intros i Hi. apply elem_of_cons in Hi as [->|Hi]; [simpl; lia|].
    apply list_elem_of_singleton in Hi as ->. simpl; lia.
  - exists h'. split; [exact Hrun|]. split; [exact Hcs|].
    split; [apply (Hrem 0); [right; left|reflexivity]|].
    split; [apply (Hrem 2); [left|reflexivity]|].
    rewrite Hkeep; [reflexivity|].
    intros i Hi. apply elem_of_cons in Hi as [->|Hi]; [discriminate|].
    apply list_elem_of_singleton in Hi as ->. discriminate.
Defined.

(** [removeChildAt(0, 2)]: the same children go, whatever the order of the
    arguments. *)
Example removeChildAt_0_2 :
  (fun r => children (fst r) !! 1%nat) <$> removeChildAt three_children 1%nat 0 [2]
  = Some (Some [11%nat]) /\
  (fun r => children (fst r) !! 1%nat) <$> removeChildAt three_children 1%nat 2 [0]
  = Some (Some [11%nat]).
Proof. split; vm_compute; reflexivity. Qed.

(** C8. [removeChildAt] with a single index below 0, or at or beyond the
    number of children, returns false; nothing is raised and the heap -- the
    child list among it -- is the one before the call. *)
Theorem removeChildAt_out_of_range_returns_false
    (h : Heap) (this : oid) (cs : list oid) (index : Z) :
  children h !! this = Some cs ->
  index < 0 \/ index >= Z.of_nat (length cs) ->
  removeChildAt h this index [] = Some (h, false).
Proof. intros Hcs Hr. now apply (removeChildAt1_out_of_range h this cs). Qed.

(** C8, witness: index 3, and index -1, on the Container with three
    children. *)
Lemma removeChildAt_out_of_range_witness :
  removeChildAt three_children 1%nat 3 [] = Some (three_children, false) /\
  removeChildAt three_children 1%nat (-1) [] = Some (three_children, false).
Proof.
  split.
  - apply (removeChildAt_out_of_range_returns_false
             three_children 1%nat [10; 11; 12]%nat 3);
      [reflexivity|simpl; lia].
  - apply (removeChildAt_out_of_range_returns_false
             three_children 1%nat [10; 11; 12]%nat (-1));
      [reflexivity|simpl; lia].
Defined.

End Container_removal_theorems.

(* --------------------------------------------------------------------- *)
(** ** Container: addChild and single ownership                           *)
(* --------------------------------------------------------------------- *)

Section Container_ownership.
Import Container.
Implicit Types (h : Heap) (this child : oid) (cs : list oid).

Lemma indexOf_member cs child :
  child ∈ cs ->
  exists i : nat, indexOf cs child = Z.of_nat i /\ cs !! i = Some child.
Proof.
  intros Hin. unfold indexOf.
  destruct (list_find_elem_of (fun y => y = child) cs child Hin eq_refl)
    as [[i y] Hf].
  rewrite Hf. apply list_find_Some in Hf as (Hi & -> & _). now exists i.
Qed.

Lemma removeChild_member h g cs child :
  children h !! g = Some cs -> child ∈ cs ->
  exists i : nat, cs !! i = Some child /\
    removeChild h g child = Some (detached h g cs i child, true).
Proof.
  intros Hcs Hin. destruct (indexOf_member cs child Hin) as (i & Hi & Hc).
  exists i. split; [exact Hc|].
  unfold removeChild, removeChildAt. rewrite Hcs; simpl. rewrite Hi.
  rewrite (removeChildAt1_in_range h g cs (Z.of_nat i) child);
    rewrite ?Nat2Z.id; auto with lia.
Qed.

Lemma NoDup_delete_lookup cs (i : nat) child :
  NoDup cs -> cs !! i = Some child ->
  NoDup (delete i cs) /\ (child ∉ delete i cs) /\
  (∀ x, x ≠ child → x ∈ delete i cs ↔ x ∈ cs) /\
  length cs = S (length (delete i cs)).
Proof.
  intros Hnd Hc. pose proof (delete_Permutation cs i child Hc) as Hp.
  assert (Hmem : forall x, x ∈ cs <-> x ∈ child :: delete i cs).
  { intros x. now rewrite <- Hp. }
  assert (Hnd2 : NoDup (child :: delete i cs)) by (now rewrite <- Hp).
  apply NoDup_cons in Hnd2 as [Hni Hnd2].
  apply Permutation_length in Hp.
  repeat split; auto.
  - intros Hx. apply Hmem. now right.
  - intros [?|?]%Hmem%elem_of_cons; [contradiction|assumption].
Qed.

Lemma detached_single_owner h g cs i child :
  single_owner h -> children h !! g = Some cs -> cs !! i = Some child ->
  single_owner (detached h g cs i child).
Proof.
  intros [Hnd Hown] Hcs Hc.
  destruct (NoDup_delete_lookup cs i child (Hnd g cs Hcs) Hc)
    as (Hnd' & Hni & Hmem & _).
  assert (Hpar : parent h !! child = Some g).
  { apply Hown. exists cs. split; [exact Hcs|]. eapply list_elem_of_lookup_2, Hc. }
  split; simpl.
  - intros g' cs' Hg'. destruct (decide (g = g')) as [<-|Hne].
    + rewrite lookup_insert_eq in Hg'. now inversion Hg'.
    + rewrite lookup_insert_ne in Hg' by exact Hne. eauto.
  - intros x g'. destruct (decide (x = child)) as [->|Hx].
    + rewrite lookup_delete_eq. split; [discriminate|].
      intros (cs' & Hg' & Hin). exfalso.
      destruct (decide (g = g')) as [<-|Hne].
      * rewrite lookup_insert_eq in Hg'. inversion Hg'; subst. contradiction.
      * rewrite lookup_insert_ne in Hg' by exact Hne.
        assert (parent h !! child = Some g') by (apply Hown; eauto).
        congruence.
    + rewrite lookup_delete_ne by congruence. rewrite Hown.
      destruct (decide (g = g')) as [<-|Hne].
      * rewrite lookup_insert_eq, Hcs. split.
        -- intros (? & [= <-] & Hin). eexists. split; [reflexivity|].
           now apply Hmem.
        -- intros (? & [= <-] & Hin). eexists. split; [reflexivity|].
           now apply Hmem.
      * now rewrite lookup_insert_ne by exact Hne.
Qed.

Lemma attached_single_owner h g cs child :
  single_owner h -> children h !! g = Some cs -> parent h !! child = None ->
  single_owner (attached h g cs child).
Proof.
  intros [Hnd Hown] Hcs Hnone.
  assert (Hfree : forall g' cs', children h !! g' = Some cs' -> child ∉ cs').
  { intros g' cs' Hg' Hin.
    assert (parent h !! child = Some g') by (apply Hown; eauto). congruence. }
  split; simpl.
  - intros g' cs' Hg'. destruct (decide (g = g')) as [<-|Hne].
    + rewrite lookup_insert_eq in Hg'. inversion Hg'; subst.
      apply NoDup_app. split; [eauto|]. split; [|apply NoDup_singleton].
      intros x Hx ->%list_elem_of_singleton. now apply (Hfree g cs).
    + rewrite lookup_insert_ne in Hg' by exact Hne. eauto.
  - intros x g'. destruct (decide (x = child)) as [->|Hx].
    + rewrite lookup_insert_eq. split.
      * intros [= <-]. rewrite lookup_insert_eq. eexists. split; [reflexivity|].
        apply elem_of_app. right. now left.
      * intros (cs' & Hg' & Hin). destruct (decide (g = g')) as [<-|Hne];
          [reflexivity|].
        rewrite lookup_insert_ne in Hg' by exact Hne.
        now apply Hfree in Hg'.
    + rewrite lookup_insert_ne by congruence. rewrite Hown.
      destruct (decide (g = g')) as [<-|Hne].
      * rewrite lookup_insert_eq, Hcs. split.
        -- intros (? & [= <-] & Hin). eexists. split; [reflexivity|].
           apply elem_of_app. now left.
        -- intros (? & [= <-] & Hin). eexists. split; [reflexivity|].
           apply elem_of_app in Hin as [Hin|Hin]; [exact Hin|].
           apply list_elem_of_singleton in Hin. contradiction.
      * now rewrite lookup_insert_ne by exact Hne.
Qed.

(** [addChild(child)] on a heap that satisfies single ownership: the call
    returns [child], and the heap afterwards is the one where [child] has
    left the child list of its former parent, if it had one, and stands last
    in the child list of [this]. *)
Lemma addChild1_run h this child cs :
  single_owner h -> children h !! this = Some cs ->
  exists h1 cs1,
    (match parent h !! child with
     | Some p => exists ps i, children h !! p = Some ps /\ ps !! i = Some child /\
                              h1 = detached h p ps i child
     | None => h1 = h
     end) /\
    children h1 !! this = Some cs1 /\
    parent h1 !! child = None /\
    single_owner h1 /\
    addChild1 h this child = Some (attached h1 this cs1 child, child).
Proof.
  intros Hinv Hcs. unfold addChild1.
  destruct (parent h !! child) as [p|] eqn:Hp.
  - destruct Hinv as [Hnd Hown].
    destruct (proj1 (Hown child p) Hp) as (ps & Hps & Hin).
    destruct (removeChild_member h p ps child Hps Hin) as (i & Hi & Hrun).
    assert (exists cs1, children (detached h p ps i child) !! this = Some cs1)
      as [cs1 Hcs1].
    { simpl. destruct (decide (p = this)) as [->|Hne].
      - rewrite lookup_insert_eq. eauto.
      - rewrite lookup_insert_ne by exact Hne. eauto. }
    exists (detached h p ps i child), cs1.
    split; [now exists ps, i|]. split; [exact Hcs1|].
    split; [apply lookup_delete_eq|].
    split; [now apply detached_single_owner|].
    rewrite Hrun. simpl. simpl in Hcs1. now rewrite Hcs1.
  - exists h, cs. repeat split; try assumption; try apply Hinv.
    simpl. now rewrite Hcs.
Qed.

Lemma addChild1_single_owner h this child cs :
  single_owner h -> children h !! this = Some cs ->
  exists h' cs',
    addChild1 h this child = Some (h', child) /\
    single_owner h' /\
    children h' !! this = Some (cs' ++ [child]) /\
    parent h' !! child = Some this.
Proof.
  intros Hinv Hcs.
  destruct (addChild1_run h this child cs Hinv Hcs)
    as (h1 & cs1 & _ & Hcs1 & Hnone & Hinv1 & Hrun).
  exists (attached h1 this cs1 child), cs1.
  split; [exact Hrun|]. split; [now apply attached_single_owner|].
  split; simpl; apply lookup_insert_eq.
Qed.

Lemma addChild_loop_single_owner this args :
  forall h cs,
  single_owner h -> children h !! this = Some cs ->
  exists h' cs',
    addChild_loop h this args = Some h' /\ single_owner h' /\
    children h' !! this = Some cs'.
Proof.
  induction args as [|x args IH]; intros h cs Hinv Hcs; simpl.
  - now exists h, cs.
  - destruct (addChild1_single_owner h this x cs Hinv Hcs)
      as (h1 & cs1 & -> & Hinv1 & Hcs1 & _). simpl.
    now apply (IH h1 (cs1 ++ [x])).
Qed.

(** Every call of [addChild], with one argument or several, on a Container
    of a heap that satisfies single ownership, returns its last argument and
    leaves a heap that satisfies single ownership. *)
Lemma addChild_preserves_single_owner h this child more cs :
  single_owner h -> children h !! this = Some cs ->
  exists h',
    addChild h this child more = Some (h', List.last more child) /\
    single_owner h'.
Proof.
  intros Hinv Hcs. destruct more as [|y more].
  - destruct (addChild1_single_owner h this child cs Hinv Hcs)
      as (h' & ? & Hrun & Hinv' & _). now exists h'.
  - destruct (addChild_loop_single_owner this (child :: y :: more) h cs Hinv Hcs)
      as (h' & ? & Hrun & Hinv' & _).
    exists h'. unfold addChild. now rewrite Hrun.
Qed.

End Container_ownership.

Section Container_ownership_theorems.
Import Container.

Lemma two_groups_single_owner : single_owner two_groups.
Proof.
  split.
  - intros g cs Hg. unfold two_groups in Hg; simpl in Hg.
    apply lookup_insert_Some in Hg as [[<- <-]|[_ Hg]].
    { apply NoDup_cons. split; [|apply NoDup_singleton].
      intros Hin%list_elem_of_singleton. discriminate. }
    apply lookup_insert_Some in Hg as [[<- <-]|[_ Hg]]; [apply NoDup_singleton|].
    now rewrite lookup_empty in Hg.
  - intros x g. unfold two_groups; simpl. split.
    + intros Hx.
      apply lookup_insert_Some in Hx as [[<- <-]|[_ Hx]].
      { eexists. split; [reflexivity|]. now left. }
      apply lookup_insert_Some in Hx as [[<- <-]|[_ Hx]].
      { eexists. split; [reflexivity|]. right. now left. }
      apply lookup_insert_Some in Hx as [[<- <-]|[_ Hx]].
      { eexists. split; [reflexivity|]. now left. }
      now rewrite lookup_empty in Hx.
    + intros (cs & Hg & Hin).
      apply lookup_insert_Some in Hg as [[<- <-]|[_ Hg]].
      { apply elem_of_cons in Hin as [->|Hin]; [reflexivity|].
        apply list_elem_of_singleton in Hin as ->. reflexivity. }
      apply lookup_insert_Some in Hg as [[<- <-]|[_ Hg]].
      { apply list_elem_of_singleton in Hin as ->. reflexivity. }
      now rewrite lookup_empty in Hg.
Qed.

(** C1 (as amended). Let [c] be in the child list [ca] of the Container [A],
    with [c.parent = A], and let [B] be another Container, with child list
    [cb]. Then [B.addChild(c)] returns [c]; the child list of [A] loses one
    entry, an occurrence of [c] (its only one when [ca] has no repetition);
    the child list of [B] is [cb] followed by [c]; and [c.parent] is [B].
    Moreover every call of [addChild], with one child or several, on a
    Container of a heap that satisfies single ownership returns its last
    argument and leaves a heap that satisfies single ownership. *)
Theorem addChild_moves_child_to_other_group
    (h : Heap) (A B c : oid) (ca cb : list oid) :
  children h !! A = Some ca ->
  c ∈ ca ->
  parent h !! c = Some A ->
  children h !! B = Some cb ->
  A <> B ->
  (exists h' (i : nat),
     addChild h B c [] = Some (h', c) /\
     ca !! i = Some c /\
     children h' !! A = Some (delete i ca) /\
     length ca = S (length (delete i ca)) /\
     (NoDup ca -> c ∉ delete i ca) /\
     children h' !! B = Some (cb ++ [c]) /\
     length (cb ++ [c]) = S (length cb) /\
     parent h' !! c = Some B /\
     (single_owner h -> single_owner h')) /\
  (forall h0 G gs x xs,
     single_owner h0 -> children h0 !! G = Some gs ->
     exists h1, addChild h0 G x xs = Some (h1, List.last xs x) /\
                single_owner h1).
Proof.
  intros HA Hin Hpar HB Hne. split.
  - destruct (removeChild_member h A ca c HA Hin) as (i & Hi & Hrun).
    assert (Hadd : addChild h B c []
                   = Some (attached (detached h A ca i c) B cb c, c)).
    { unfold addChild, addChild1. rewrite Hpar; simpl. rewrite Hrun; simpl.
      rewrite lookup_insert_ne by exact Hne. now rewrite HB. }
    exists (attached (detached h A ca i c) B cb c), i.
    split; [exact Hadd|]. split; [exact Hi|]. simpl.
    split; [rewrite lookup_insert_ne by congruence; apply lookup_insert_eq|].
    split.
    { rewrite length_delete by (now exists c).
      apply lookup_lt_Some in Hi. lia. }
    split; [intros Hnd; now apply (NoDup_delete_lookup ca i c)|].
    split; [apply lookup_insert_eq|].
    split; [rewrite length_app; simpl; lia|].
    split; [apply lookup_insert_eq|].
    intros Hinv.
    destruct (addChild1_single_owner h B c cb Hinv HB) as (h2 & ? & Hrun2 & Hinv2 & _).
    unfold addChild in Hadd. rewrite Hrun2 in Hadd. now inversion Hadd; subst.
  - intros h0 G gs x xs Hinv HG.
    now apply (addChild_preserves_single_owner h0 G x xs gs).
Qed.

(** C1, witness: child 10 of Container 1 is added to Container 2. *)
Lemma addChild_moves_child_witness :
  exists h',
    addChild two_groups 2%nat 10%nat [] = Some (h', 10%nat) /\
    children h' !! 1%nat = Some [11%nat] /\
    children h' !! 2%nat = Some [20; 10]%nat /\
    parent h' !! 10%nat = Some 2%nat /\
    single_owner h'.
Proof.
  destruct (addChild_moves_child_to_other_group
              two_groups 1%nat 2%nat 10%nat [10; 11]%nat [20%nat])
    as ((h' & i & Hrun & Hi & HA & _ & _ & HB & _ & Hp & Hinv) & _).
  - reflexivity.
  - now left.
  - reflexivity.
  - reflexivity.
  - discriminate.
  - exists h'. split; [exact Hrun|].
    assert (i = 0%nat) as ->.
    { destruct i as [|[|i]]; [reflexivity|discriminate Hi|discriminate Hi]. }
    split; [exact HA|]. split; [exact HB|]. split; [exact Hp|].
    apply Hinv, two_groups_single_owner.
Defined.

(** C1, counterexample. When [A] and [B] are the same Container the child is
    removed and pushed again: [addChild(10)] on Container 1, whose children
    are 10 and 11, leaves it with the two children 11 and 10. Its length
    neither decreases nor increases. *)
Lemma addChild_same_group_counterexample :
  children two_groups !! 1%nat = Some [10; 11]%nat /\
  parent two_groups !! 10%nat = Some 1%nat /\
  (fun r => (children (fst r) !! 1%nat, parent (fst r) !! 10%nat, snd r))
    <$> addChild two_groups 1%nat 10%nat []
  = Some (Some [11; 10]%nat, Some 1%nat, 10%nat).
Proof. repeat split; vm_compute; reflexivity. Qed.

End Container_ownership_theorems.

(* --------------------------------------------------------------------- *)
(** ** BitmapSequence                                                     *)
(* --------------------------------------------------------------------- *)

Section BitmapSequence_facts.
Import BitmapSequence.
Variable invoke : Callback -> t -> t.

Lemma normalize_simple_past_end s calls :
  currentEndFrame s = None ->
  currentFrame s >= ttlFrames (spriteSheet s) ->
  _normalizeCurrentFrame invoke s calls
  = Some (run_callback invoke (wrapped s) calls).
Proof.
  intros Hmode Hpast. unfold _normalizeCurrentFrame. rewrite Hmode.
  rewrite bool_decide_eq_true_2 by exact Hpast. reflexivity.
Qed.

Lemma normalize_simple_in_range s calls :
  currentEndFrame s = None ->
  currentFrame s < ttlFrames (spriteSheet s) ->
  _normalizeCurrentFrame invoke s calls = Some (s, calls).
Proof.
  intros Hmode Hin. unfold _normalizeCurrentFrame. rewrite Hmode.
  rewrite bool_decide_eq_false_2 by lia. reflexivity.
Qed.

Lemma run_callback_registered s cb calls :
  callback s = Some cb ->
  run_callback invoke s calls = (invoke cb s, calls ++ [(cb, s)]).
Proof. intros H. unfold run_callback. now rewrite H. Qed.

Lemma wrapped_callback s : callback (wrapped s) = callback s.
Proof. unfold wrapped. now destruct (loop (spriteSheet s)). Qed.

Lemma wrapped_in_range s :
  0 < ttlFrames (spriteSheet s) ->
  spriteSheet (wrapped s) = spriteSheet s /\
  0 <= currentFrame (wrapped s) < ttlFrames (spriteSheet s).
Proof.
  intros Hpos. unfold wrapped.
  destruct (loop (spriteSheet s)); simpl; (split; [reflexivity|lia]).
Qed.

(** A tick of an instance that is not paused, on a tick that its cadence
    selects: the frame advances and is normalized. *)
Lemma tick_advances s calls :
  currentFrame s <> -1 ->
  paused s = false ->
  rem_is_zero (_advanceCount s + 1 + advanceOffset s) (advanceFrequency s) = true ->
  _tick invoke s calls
  = _normalizeCurrentFrame invoke
      (set_currentFrame (set_advanceCount s (_advanceCount s + 1))
         (currentFrame s + 1)) calls.
Proof.
  intros Hf Hp Hc. unfold _tick.
  rewrite (bool_decide_eq_false_2 (currentFrame s = -1)) by exact Hf.
  simpl. rewrite Hp. simpl. now rewrite Hc.
Qed.

(** C6 (as amended). Take an instance in simple mode (no end frame of a
    sequence) on a sheet with [totalFrames = 4] that loops, with
    [currentFrame = 3] and a callback [cb]. [advance()] alone leaves it at
    [currentFrame = 4] and calls nothing. Normalization -- run by the tick
    that advances the frame, and by [getCurrentFrameRect] -- takes the frame
    to 0 and calls [cb] exactly once, with the instance at frame 0: so one
    advancing tick from frame 3, or [advance()] followed by normalization,
    ends at frame 0 with one call. In simple mode generally, normalization
    of a frame at or beyond the total frame count sets it to 0 when the
    sheet loops, and otherwise to the last frame, with [paused] set; in both
    cases the callback, when set, is called once, after the change; a frame
    below the count is left alone and nothing is called. *)
Theorem simple_mode_wraps_on_normalization
    (s : t) (cb : Callback) (calls : Calls) :
  currentEndFrame s = None ->
  totalFrames (spriteSheet s) = Some 4 ->
  loop (spriteSheet s) = true ->
  currentFrame s = 3 ->
  callback s = Some cb ->
  advance s calls = (set_currentFrame s 4, calls) /\
  _normalizeCurrentFrame invoke (fst (advance s calls)) calls
  = Some (invoke cb (set_currentFrame s 0), calls ++ [(cb, set_currentFrame s 0)]) /\
  (paused s = false ->
   rem_is_zero (_advanceCount s + 1 + advanceOffset s) (advanceFrequency s) = true ->
   let s0 := set_currentFrame (set_advanceCount s (_advanceCount s + 1)) 0 in
   _tick invoke s calls = Some (invoke cb s0, calls ++ [(cb, s0)])) /\
  (forall s' cb',
     currentEndFrame s' = None -> callback s' = Some cb' ->
     (currentFrame s' >= ttlFrames (spriteSheet s') ->
      _normalizeCurrentFrame invoke s' calls
      = Some (invoke cb' (wrapped s'), calls ++ [(cb', wrapped s')]) /\
      (loop (spriteSheet s') = true ->
       wrapped s' = set_currentFrame s' 0) /\
      (loop (spriteSheet s') = false ->
       wrapped s'
       = set_paused (set_currentFrame s' (ttlFrames (spriteSheet s') - 1)) true)) /\
     (currentFrame s' < ttlFrames (spriteSheet s') ->
      _normalizeCurrentFrame invoke s' calls = Some (s', calls))).
Proof.
  intros Hmode Httl Hloop Hframe Hcb.
  assert (Hcount : ttlFrames (spriteSheet s) = 4).
  { unfold ttlFrames. now rewrite Httl. }
  split; [unfold advance; now rewrite Hframe|].
  split.
  { unfold advance; simpl. rewrite Hframe.
    rewrite normalize_simple_past_end by (simpl; first [assumption | lia]).
    rewrite (run_callback_registered _ cb)
      by (rewrite wrapped_callback; exact Hcb).
    unfold wrapped; simpl. now rewrite Hloop. }
  split.
  { intros Hp Hc s0.
    rewrite tick_advances by (first [assumption | lia]).
    rewrite normalize_simple_past_end by (simpl; first [assumption | lia]).
    rewrite (run_callback_registered _ cb)
      by (rewrite wrapped_callback; exact Hcb).
    unfold wrapped; simpl. now rewrite Hloop. }
  intros s' cb' Hmode' Hcb'. split.
  - intros Hpast. split.
    + rewrite normalize_simple_past_end by assumption.
      now rewrite (run_callback_registered _ cb')
        by (rewrite wrapped_callback; exact Hcb').
    + unfold wrapped. split; now intros ->.
  - intros Hin. now apply normalize_simple_in_range.
Qed.

End BitmapSequence_facts.

Section BitmapSequence_theorems.
Import BitmapSequence.

(** C6, witness: the instance of the claim, with callback 7, no call made
    before. *)
Lemma simple_mode_wrap_witness :
  let s := looping_at_last_frame 7%nat in
  advance s [] = (set_currentFrame s 4, []) /\
  _tick quiet_callback s []
  = Some (set_currentFrame (set_advanceCount s 1) 0,
          [(7%nat, set_currentFrame (set_advanceCount s 1) 0)]) /\
  _normalizeCurrentFrame quiet_callback
    (set_currentFrame (stopping_at_last_frame 7%nat) 9) []
  = Some (set_paused (stopping_at_last_frame 7%nat) true,
          [(7%nat, set_paused (stopping_at_last_frame 7%nat) true)]).
Proof.
  intros s.
  destruct (simple_mode_wraps_on_normalization quiet_callback s 7%nat [])
    as (Hadv & _ & Htick & Hgen); try reflexivity.
  split; [exact Hadv|]. split; [now apply Htick|].
  assert (Hge : currentFrame (set_currentFrame (stopping_at_last_frame 7%nat) 9)
                >= ttlFrames (spriteSheet
                     (set_currentFrame (stopping_at_last_frame 7%nat) 9))).
  { vm_compute. discriminate. }
  exact (proj1 (proj1 (Hgen (set_currentFrame (stopping_at_last_frame 7%nat) 9)
                         7%nat eq_refl eq_refl) Hge)).
Defined.

(** C6, counterexample. With [totalFrames = 4], [loop = true],
    [currentFrame = 3] and a callback registered, one call of [advance()]
    leaves [currentFrame = 4], not 0, and the callback has not been called. *)
Lemma advance_does_not_wrap_counterexample :
  totalFrames (spriteSheet (looping_at_last_frame 7%nat)) = Some 4 /\
  loop (spriteSheet (looping_at_last_frame 7%nat)) = true /\
  currentFrame (looping_at_last_frame 7%nat) = 3 /\
  callback (looping_at_last_frame 7%nat) = Some 7%nat /\
  currentFrame (fst (advance (looping_at_last_frame 7%nat) [])) = 4 /\
  snd (advance (looping_at_last_frame 7%nat) []) = [].
Proof. repeat split. Qed.

(** C9. [advance()] adds one to [currentFrame] and does nothing else: every
    other field keeps its value and no callback is called. It does so
    whatever [paused], [advanceFrequency], [advanceOffset] and the tick
    counter hold -- where a tick of a paused instance, or one that the
    cadence skips, leaves [currentFrame] alone. It does not normalize: from
    the last frame in simple mode it leaves [currentFrame] equal to the frame
    count, outside the valid range, and the normalization that
    [getCurrentFrameRect] and an advancing tick run brings it back inside
    before the callback sees it. *)
Theorem advance_increments_and_nothing_else
    (invoke : Callback -> t -> t) (s : t) (calls : Calls) :
  advance s calls
  = (mk (callback s) (currentFrame s + 1) (currentSequence s)
        (currentEndFrame s) (currentStartFrame s) (nextSequence s) (paused s)
        (spriteSheet s) (advanceFrequency s) (advanceOffset s) (_advanceCount s),
     calls) /\
  (paused s = true ->
   exists s1, _tick invoke s calls = Some (s1, calls) /\
              currentFrame s1 = currentFrame s) /\
  (paused s = false -> currentFrame s <> -1 ->
   rem_is_zero (_advanceCount s + 1 + advanceOffset s) (advanceFrequency s) = false ->
   exists s1, _tick invoke s calls = Some (s1, calls) /\
              currentFrame s1 = currentFrame s) /\
  (currentEndFrame s = None ->
   0 < ttlFrames (spriteSheet s) ->
   currentFrame s = ttlFrames (spriteSheet s) - 1 ->
   let s' := fst (advance s calls) in
   ~ (0 <= currentFrame s' < ttlFrames (spriteSheet s')) /\
   exists s1,
     _normalizeCurrentFrame invoke s' calls = Some (run_callback invoke s1 calls) /\
     0 <= currentFrame s1 < ttlFrames (spriteSheet s)).
Proof.
  split; [reflexivity|]. split; [|split].
  - intros Hp. unfold _tick.
    destruct (bool_decide (currentFrame s = -1)
              && bool_decide (is_Some (frameData (spriteSheet s)))); simpl.
    + now eexists.
    + rewrite Hp. now eexists.
  - intros Hp Hf Hc. unfold _tick.
    rewrite (bool_decide_eq_false_2 (currentFrame s = -1)) by exact Hf.
    simpl. rewrite Hp; simpl. rewrite Hc. now eexists.
  - intros Hmode Hpos Hlast s'. subst s'. unfold advance; simpl.
    split; [lia|].
    exists (wrapped (set_currentFrame s (currentFrame s + 1))). split.
    + apply normalize_simple_past_end; simpl; [exact Hmode|lia].
    + now apply (wrapped_in_range (set_currentFrame s (currentFrame s + 1))).
Qed.

(** C9, witness: the paused instance on the last frame of the looping sheet
    of four frames. *)
Lemma advance_increments_witness :
  let s := set_paused (looping_at_last_frame 7%nat) true in
  currentFrame (fst (advance s [])) = 4 /\
  paused (fst (advance s [])) = true /\
  snd (advance s []) = [] /\
  (exists s1, _tick quiet_callback s [] = Some (s1, []) /\ currentFrame s1 = 3) /\
  (exists s1,
     _normalizeCurrentFrame quiet_callback (fst (advance s [])) []
     = Some (run_callback quiet_callback s1 []) /\
     0 <= currentFrame s1 < 4).
Proof.
  intros s.
  destruct (advance_increments_and_nothing_else quiet_callback s [])
    as (Hadv & Hpaused & _ & Hrange).
  rewrite Hadv. simpl. repeat split.
  - now apply Hpaused.
  - destruct Hrange as (_ & s1 & Hrun & Hin); try reflexivity.
    exists s1. split; [exact Hrun|exact Hin].
Defined.

End BitmapSequence_theorems.

(* --------------------------------------------------------------------- *)
(** ** Container: point queries                                           *)
(* --------------------------------------------------------------------- *)

Section HitTest_facts.
Import HitTest.
Variable testHit : Probe -> Node -> bool.

Lemma handles_no_events p : handles 0 p = false.
Proof. reflexivity. Qed.

Lemma all_reportable_None : all_reportable None.
Proof. intros l Hl. discriminate. Qed.

Lemma all_reportable_nil : all_reportable (Some []).
Proof. intros l [= <-]. constructor. Qed.

Lemma all_reportable_single n :
  reportable n = true -> all_reportable (Some [n]).
Proof. intros Hn l [= <-]. now repeat constructor. Qed.

Lemma all_reportable_push a n :
  all_reportable (Some a) -> reportable n = true ->
  all_reportable (Some (a ++ [n])).
Proof.
  intros Ha Hn l [= <-]. apply Forall_app. split; [now apply Ha|].
  now repeat constructor.
Qed.

(** The loop, without mouse events to look for, reports reportable nodes
    only, provided the recursive calls do. *)
Lemma children_loop_reportable rec this l :
  Forall (fun c => forall arr probe,
            all_reportable arr -> outcome_reportable (rec c arr 0 probe)) l ->
  forall arr probe,
  all_reportable arr ->
  flow_reportable (children_loop testHit rec this false 0 l arr probe).
Proof.
  induction 1 as [|child l Hchild Hl IH]; intros arr probe Harr.
  - split; [exact I|exact Harr].
  - simpl. specialize (IH arr probe Harr).
    destruct (children_loop testHit rec this false 0 l arr probe)
      as [[[v|] arr1] probe1]; [exact IH|].
    destruct IH as [_ Harr1]; simpl in Harr1.
    destruct (negb (isVisible child) || negb (mouseEnabled (props child)))
      eqn:Hskip; [split; [exact I|exact Harr1]|].
    assert (Hrep : reportable child = true).
    { unfold reportable. apply orb_false_iff in Hskip as [Hv He].
      apply negb_false_iff in Hv, He. now rewrite Hv, He. }
    destruct child as [cp k|cp cs].
    + simpl. destruct (testHit probe1 (Leaf cp k)); simpl;
        [|split; [exact I|exact Harr1]].
      destruct arr1 as [a|].
      * split; [exact I|]. now apply all_reportable_push.
      * split; [now apply all_reportable_single|exact Harr1].
    + specialize (Hchild arr1 probe1 Harr1).
      destruct (rec (Container cp cs) arr1 0 probe1) as [[[r|] arr2] probe2];
        destruct Hchild as [Hr Harr2]; simpl in Hr, Harr2.
      * destruct arr2; (split; [first [exact I | exact Hr]|exact Harr2]).
      * split; [exact I|exact Harr2].
Qed.

Lemma loop_result_reportable r :
  flow_reportable r -> outcome_reportable (loop_result r).
Proof.
  destruct r as [[[v|] arr] probe]; intros [Hv Harr]; split;
    simpl in *; auto using all_reportable_None.
Qed.

(** [_getObjectsUnderPoint] without mouse events to look for. *)
Lemma _getObjectsUnderPoint_reportable this :
  forall arr probe,
  all_reportable arr ->
  outcome_reportable (_getObjectsUnderPoint testHit this arr 0 probe).
Proof.
  induction this as [p k|p cs IH] using Node_nested_ind; intros arr probe Harr.
  - split; [apply all_reportable_None|exact Harr].
  - simpl.
    assert (Hrun : forall probe',
      outcome_reportable
        (loop_result
           (children_loop testHit (_getObjectsUnderPoint testHit)
              (Container p cs) false 0 cs arr probe'))).
    { intros probe'. apply loop_result_reportable.
      now apply children_loop_reportable. }
    destruct (cacheCanvas p); [|apply Hrun].
    destruct (testHit probe (Container p cs)); [apply Hrun|].
    split; [apply all_reportable_nil|exact Harr].
Qed.

Lemma draw_children_includes children child op :
  child ∈ children -> isVisible child = true ->
  op ∈ draw child false -> op ∈ draw_children draw children.
Proof.
  intros Hin Hvis Hop. induction children as [|c l IH]; simpl.
  - now apply elem_of_nil in Hin.
  - apply elem_of_app. apply elem_of_cons in Hin as [<-|Hin].
    + left. now rewrite Hvis.
    + right. now apply IH.
Qed.

Lemma draw_leaf p k :
  isVisible (Leaf p k) = true ->
  Blit (Leaf p k) ∈ draw (Leaf p k) false \/
  Content_ (Leaf p k) ∈ draw (Leaf p k) false.
Proof.
  intros Hvis. destruct k as [|ready|ready frame|htmlElement]; simpl in *.
  - destruct (cacheCanvas p); [left|right]; now left.
  - destruct (cacheCanvas p); [left|right]; now left.
  - destruct (cacheCanvas p); simpl; [left; now left|right].
    apply andb_true_iff in Hvis as [_ Hframe]. rewrite Hframe. now left.
  - rewrite Hvis. right. now left.
Qed.


End HitTest_facts.

Section HitTest_witness.
Import HitTest.


End HitTest_witness.

(* --------------------------------------------------------------------- *)
(** ** Graphics: the order of the replay list                             *)
(* --------------------------------------------------------------------- *)

Section Graphics_facts.
Import Graphics.
Context {num : Type} `{JSNumber num} `{JSMath num}.

Abbreviation Cmds := (list (Command num)).

Lemma Replay_nil : Replay ([] : Cmds).
Proof. exists []. split; [reflexivity|constructor]. Qed.

Lemma Replay_snoc (l sub : Cmds) : Replay l -> Subpath sub -> Replay (l ++ sub).
Proof.
  intros (subs & -> & Hsubs) Hsub. exists (subs ++ [sub]). split.
  - rewrite concat_app. simpl. now rewrite app_nil_r.
  - apply Forall_app. split; [exact Hsubs|]. now repeat constructor.
Qed.

(** A replay list that is not empty starts with the begin-path command. *)
Lemma Replay_head (l : Cmds) :
  Replay l -> l = [] \/ exists rest, l = beginCmd :: rest.
Proof.
  intros (subs & -> & Hsubs). induction Hsubs as [|sub subs Hsub _ _].
  - now left.
  - right. destruct Hsub. simpl. eauto.
Qed.

Lemma _updateInstructions_layout (g : Graphics.t num) :
  _instructions (_updateInstructions g) = _oldInstructions g ++ current_subpath g.
Proof.
  unfold _updateInstructions, current_subpath; simpl.
  destruct (_fillInstructions g), (_strokeInstructions g),
    (_strokeStyleInstructions g); simpl;
    repeat rewrite <- app_assoc; simpl; rewrite ?app_nil_r; reflexivity.
Qed.

Lemma _updateInstructions_fields (g : Graphics.t num) :
  _oldInstructions (_updateInstructions g) = _oldInstructions g /\
  _activeInstructions (_updateInstructions g) = _activeInstructions g /\
  _fillInstructions (_updateInstructions g) = _fillInstructions g /\
  _strokeInstructions (_updateInstructions g) = _strokeInstructions g /\
  _strokeStyleInstructions (_updateInstructions g) = _strokeStyleInstructions g /\
  _active (_updateInstructions g) = _active g /\
  _dirty (_updateInstructions g) = _dirty g.
Proof. repeat split. Qed.

Lemma current_subpath_shape (g : Graphics.t num) :
  Forall (fun c => is_path c = true) (_activeInstructions g) ->
  styles_ok g -> Subpath (current_subpath g).
Proof.
  intros Hpath (Hfill & Hstroke & Hstyle). unfold current_subpath.
  pose proof (Subpath_intro (opt_cmds (_fillInstructions g))
    (opt_cmds (_strokeInstructions g))
    (match _strokeInstructions g with
     | Some _ => opt_cmds (_strokeStyleInstructions g)
     | None => []
     end) (_activeInstructions g)) as Hshape.
  assert (Hf : match opt_cmds (_fillInstructions g) with
               | [] => ([] : Cmds) | _ :: _ => [fillCmd] end
               = match _fillInstructions g with
                 | Some _ => [fillCmd] | None => [] end).
  { destruct (_fillInstructions g) as [[|c l]|]; simpl; try reflexivity.
    now destruct Hfill. }
  assert (Hs : match opt_cmds (_strokeInstructions g) with
               | [] => ([] : Cmds) | _ :: _ => [strokeCmd] end
               = match _strokeInstructions g with
                 | Some _ => [strokeCmd] | None => [] end).
  { destruct (_strokeInstructions g) as [[|c l]|]; simpl; try reflexivity.
    now destruct Hstroke. }
  rewrite Hf, Hs in Hshape. apply Hshape.
  - destruct (_fillInstructions g); [apply Hfill|constructor].
  - destruct (_strokeInstructions g); [apply Hstroke|constructor].
  - destruct (_strokeInstructions g); [|constructor].
    destruct (_strokeStyleInstructions g); [exact Hstyle|constructor].
  - exact Hpath.
Qed.

Lemma _updateInstructions_well_formed (g : Graphics.t num) :
  well_formed g -> well_formed (_updateInstructions g).
Proof.
  intros (Hi & Ho & Ha & Hs).
  split; [|split; [exact Ho|split; [exact Ha|exact Hs]]].
  rewrite _updateInstructions_layout.
  apply Replay_snoc; [exact Ho|now apply current_subpath_shape].
Qed.

Lemma end_subpath_well_formed (g : Graphics.t num) :
  well_formed g -> well_formed (end_subpath g).
Proof.
  intros Hg. unfold end_subpath. destruct (_active g); [|exact Hg].
  unfold _newPath.
  assert (Hg1 : well_formed (if _dirty g then _updateInstructions g else g)).
  { destruct (_dirty g); [now apply _updateInstructions_well_formed|exact Hg]. }
  destruct Hg1 as (Hi & _ & _ & Hs).
  split; [exact Hi|]. split; [exact Hi|]. split; [constructor|exact Hs].
Qed.

Lemma push_active_well_formed (g : Graphics.t num) (cmds : Cmds) :
  Forall (fun c => is_path c = true) cmds ->
  well_formed g -> well_formed (push_active g cmds).
Proof.
  intros Hc (Hi & Ho & Ha & Hs).
  split; [exact Hi|split; [exact Ho|split; [|exact Hs]]].
  simpl. apply Forall_app. now split.
Qed.

Lemma set_active_dirty_well_formed (g : Graphics.t num) v :
  well_formed g -> well_formed (set_active_dirty g v).
Proof. unfold well_formed, styles_ok. simpl. tauto. Qed.

Lemma set_dirty_well_formed (g : Graphics.t num) v :
  well_formed g -> well_formed (set_dirty g v).
Proof. unfold well_formed, styles_ok. simpl. tauto. Qed.

Lemma set_fillInstructions_well_formed (g : Graphics.t num) v :
  match v with
  | Some l => l <> [] /\ Forall (fun c => is_fillStyle c = true) l
  | None => True
  end ->
  well_formed g -> well_formed (set_fillInstructions g v).
Proof. unfold well_formed, styles_ok. simpl. tauto. Qed.

Lemma set_strokeInstructions_well_formed (g : Graphics.t num) v :
  match v with
  | Some l => l <> [] /\ Forall (fun c => is_strokeStyle c = true) l
  | None => True
  end ->
  well_formed g -> well_formed (set_strokeInstructions g v).
Proof. unfold well_formed, styles_ok. simpl. tauto. Qed.

Lemma set_strokeStyleInstructions_well_formed (g : Graphics.t num) v :
  match v with
  | Some l => Forall (fun c => is_strokeAppearance c = true) l
  | None => True
  end ->
  well_formed g -> well_formed (set_strokeStyleInstructions g v).
Proof. unfold well_formed, styles_ok. simpl. tauto. Qed.

Lemma polyStarLoop_path sides x y radius pointSize a angle :
  Forall (fun c => is_path c = true)
    (polyStarLoop sides x y radius pointSize a angle).
Proof.
  revert angle. induction sides as [|n IH]; intros angle; simpl; [constructor|].
  apply Forall_app. split.
  - destruct (negb (neqb pointSize (lit 1))); now repeat constructor.
  - constructor; [reflexivity|apply IH].
Qed.

Lemma new_well_formed : well_formed (Graphics.new (num := num)).
Proof.
  split; [apply Replay_nil|]. split; [apply Replay_nil|].
  split; [constructor|]. now repeat split.
Qed.

Create HintDb graphics.

#[local] Hint Resolve end_subpath_well_formed push_active_well_formed
  set_active_dirty_well_formed set_dirty_well_formed
  set_fillInstructions_well_formed set_strokeInstructions_well_formed
  set_strokeStyleInstructions_well_formed polyStarLoop_path
  new_well_formed : graphics.

Ltac path_commands :=
  repeat first [apply Forall_nil_2 | apply Forall_cons_2; [reflexivity|]].

Ltac style_commands :=
  split; [discriminate | repeat constructor].

Lemma record_well_formed (g : Graphics.t num) (call : Call) :
  well_formed g -> well_formed (record g call).
Proof.
  intros Hg. destruct call; simpl;
    unfold moveTo, lineTo, arcTo, arc, quadraticCurveTo, bezierCurveTo, rect,
      closePath, endFill, endStroke, beginFill, beginStroke,
      beginLinearGradientFill, beginRadialGradientFill, beginBitmapFill,
      beginLinearGradientStroke, beginRadialGradientStroke, beginBitmapStroke,
      setStrokeStyle, drawRoundRect, drawRoundRectComplex, drawCircle, arc,
      drawEllipse, drawPolyStar;
    try (apply push_active_well_formed;
         [path_commands | auto with graphics]; fail).
  - destruct (_active g); [|exact Hg].
    apply push_active_well_formed; [path_commands|auto with graphics].
  - apply new_well_formed.
  - apply set_fillInstructions_well_formed; [|auto with graphics].
    destruct color as [s|]; [|exact I].
    destruct (truthy_str (Some s)); [style_commands|exact I].
  - apply set_fillInstructions_well_formed; [style_commands|auto with graphics].
  - apply set_fillInstructions_well_formed; [style_commands|auto with graphics].
  - apply set_fillInstructions_well_formed; [style_commands|auto with graphics].
  - apply set_fillInstructions_well_formed; [exact I|auto with graphics].
  - apply set_strokeStyleInstructions_well_formed; [|auto with graphics].
    repeat constructor.
  - apply set_strokeInstructions_well_formed; [|auto with graphics].
    destruct color as [s|]; [|exact I].
    destruct (truthy_str (Some s)); [style_commands|exact I].
  - apply set_strokeInstructions_well_formed; [style_commands|auto with graphics].
  - apply set_strokeInstructions_well_formed; [style_commands|auto with graphics].
  - apply set_strokeInstructions_well_formed; [style_commands|auto with graphics].
  - apply set_strokeInstructions_well_formed; [exact I|auto with graphics].
  - apply push_active_well_formed; [apply polyStarLoop_path|].
    apply push_active_well_formed; [path_commands|auto with graphics].
Qed.

Lemma recordAll_well_formed (calls : list Call) : well_formed (recordAll calls).
Proof.
  unfold recordAll. generalize (new_well_formed).
  generalize (Graphics.new (num := num)).
  induction calls as [|call calls IH]; intros g Hg; simpl; [exact Hg|].
  apply IH. now apply record_well_formed.
Qed.


End Graphics_facts.

Section Graphics_examples.
Import Graphics.

(** [setStrokeStyle(5).beginStroke("#F00").beginFill("#00F").drawRect(...)],
    the styles given in an order that is not the replay order. *)
Example replay_stroke_fill_rect :
  snd (draw (recordAll
    [CallSetStrokeStyle (Some 5%Q) None None None;
     CallBeginStroke (Some "#F00"%string);
     CallBeginFill (Some "#00F"%string);
     CallRect 20%Q 20%Q 100%Q 50%Q]))
  = [beginCmd; setFill "#00F"; setStroke "#F00";
     mkCommand SetProp [VStr "lineWidth"; VNum 5%Q];
     mkCommand SetProp [VStr "lineCap"; VStr "butt"];
     mkCommand SetProp [VStr "lineJoin"; VStr "miter"];
     mkCommand SetProp [VStr "miterLimit"; VStr "10"];
     rectCmd; fillCmd; strokeCmd].
Proof. reflexivity. Qed.

(** A stroke appearance without a stroke style is recorded and not replayed;
    a fill begun after a path command closes the subpath before it. *)
Example replay_appearance_without_stroke :
  snd (draw (recordAll
    [CallSetStrokeStyle (Some 5%Q) None None None;
     CallRect 20%Q 20%Q 100%Q 50%Q;
     CallBeginFill (Some "#00F"%string);
     CallRect 20%Q 20%Q 100%Q 50%Q]))
  = [beginCmd; rectCmd; beginCmd; setFill "#00F"; rectCmd; fillCmd].
Proof. reflexivity. Qed.

End Graphics_examples.

(* --------------------------------------------------------------------- *)
(** ** Container: the other methods of the child list                     *)
(* --------------------------------------------------------------------- *)

Section Container_child_list.
Import Container.
Implicit Types (h : Heap) (this child : oid) (cs : list oid).

Lemma indexOf_not_member cs child : child ∉ cs -> indexOf cs child = -1.
Proof.
  intros Hni. unfold indexOf.
  destruct (list_find (fun y => y = child) cs) as [[i y]|] eqn:E; [|reflexivity].
  apply list_find_Some in E as (Hi & -> & _).
  exfalso. apply Hni. eapply list_elem_of_lookup_2, Hi.
Qed.

Lemma indexOf_first cs child (i : nat) :
  NoDup cs -> cs !! i = Some child -> indexOf cs child = Z.of_nat i.
Proof.
  intros Hnd Hi.
  destruct (indexOf_member cs child) as (j & Hj & Hc).
  { eapply list_elem_of_lookup_2, Hi. }
  rewrite Hj. f_equal. eapply NoDup_lookup; eassumption.
Qed.

Lemma filter_ne_id cs child :
  child ∉ cs -> filter (fun x => x <> child) cs = cs.
Proof.
  induction cs as [|x cs IH]; intros Hni; [reflexivity|].
  apply not_elem_of_cons in Hni as [Hne Hni].
  rewrite filter_cons_True by congruence. now rewrite IH.
Qed.

Lemma delete_filter_ne cs (i : nat) child :
  NoDup cs -> cs !! i = Some child ->
  delete i cs = filter (fun x => x <> child) cs.
Proof.
  revert i. induction cs as [|x cs IH]; intros i Hnd Hi; [discriminate|].
  apply NoDup_cons in Hnd as [Hx Hnd]. destruct i as [|i]; simpl in *.
  - inversion Hi; subst. rewrite filter_cons_False by tauto.
    now rewrite filter_ne_id.
  - assert (x <> child).
    { intros ->. apply Hx. eapply list_elem_of_lookup_2, Hi. }
    rewrite filter_cons_True by assumption. f_equal. now apply IH.
Qed.

(** X1. [removeChild(child)] on a heap that satisfies single ownership: when
    [child] is not in the child list the call returns false and changes
    nothing; when it is, the call returns true, the list is the old one
    without [child], the parent of [child] is null, no other parent field and
    no other child list changes, and single ownership still holds. *)
Theorem removeChild_removes_or_refuses h this cs child :
  single_owner h -> children h !! this = Some cs ->
  (child ∉ cs -> removeChild h this child = Some (h, false)) /\
  (child ∈ cs ->
   exists h',
     removeChild h this child = Some (h', true) /\
     children h' !! this = Some (filter (fun x => x <> child) cs) /\
     parent h' !! child = None /\
     (forall x, x <> child -> parent h' !! x = parent h !! x) /\
     (forall g, g <> this -> children h' !! g = children h !! g) /\
     single_owner h').
Proof.
  intros Hinv Hcs. split.
  - intros Hni. unfold removeChild, removeChildAt. rewrite Hcs; simpl.
    rewrite (indexOf_not_member cs child Hni).
    apply (removeChildAt1_out_of_range h this cs); [exact Hcs|lia].
  - intros Hin.
    destruct (removeChild_member h this cs child Hcs Hin) as (i & Hi & Hrun).
    exists (detached h this cs i child). split; [exact Hrun|]. simpl.
    split.
    { rewrite lookup_insert_eq. f_equal.
      apply delete_filter_ne; [|exact Hi]. now apply (proj1 Hinv this). }
    split; [apply lookup_delete_eq|].
    split; [intros x Hx; apply lookup_delete_ne; congruence|].
    split; [intros g Hg; now apply lookup_insert_ne|].
    now apply detached_single_owner.
Qed.

(** X1, witness: the child 10, and the stranger 20, on Container 1 of the
    heap of two Containers. *)
Lemma removeChild_witness :
  removeChild two_groups 1%nat 20%nat = Some (two_groups, false) /\
  exists h', removeChild two_groups 1%nat 10%nat = Some (h', true) /\
             children h' !! 1%nat = Some [11%nat].
Proof.
  destruct (removeChild_removes_or_refuses two_groups 1%nat [10; 11]%nat 20%nat
              two_groups_single_owner eq_refl) as [Hno _].
  destruct (removeChild_removes_or_refuses two_groups 1%nat [10; 11]%nat 10%nat
              two_groups_single_owner eq_refl) as [_ Hyes].
  split.
  - apply Hno. intros Hin. repeat (apply elem_of_cons in Hin as [Hin|Hin];
      [discriminate|]). now apply elem_of_nil in Hin.
  - destruct Hyes as (h' & Hrun & Hl & _); [now left|].
    exists h'. split; [exact Hrun|exact Hl].
Defined.

Lemma foldr_delete_lookup (m : gmap oid oid) cs x :
  foldr delete m cs !! x = if bool_decide (x ∈ cs) then None else m !! x.
Proof.
  induction cs as [|c cs IH]; cbn [foldr].
  - rewrite bool_decide_eq_false_2 by apply not_elem_of_nil. reflexivity.
  - destruct (decide (x = c)) as [->|Hne].
    + rewrite lookup_delete_eq, bool_decide_eq_true_2 by (now left).
      reflexivity.
    + rewrite lookup_delete_ne by congruence. rewrite IH.
      destruct (decide (x ∈ cs)) as [Hin|Hni].
      * rewrite !bool_decide_eq_true_2; [reflexivity|now right|exact Hin].
      * rewrite !bool_decide_eq_false_2; [reflexivity| |exact Hni].
        intros [?|?]%elem_of_cons; [congruence|contradiction].
Qed.

Lemma foldr_delete_commute (m : gmap oid oid) cs c :
  foldr delete (delete c m) cs = delete c (foldr delete m cs).
Proof.
  induction cs as [|x cs IH]; simpl; [reflexivity|].
  rewrite IH. apply delete_delete.
Qed.

Lemma removeAllChildren_run cs :
  forall fuel h this,
  children h !! this = Some cs -> (length cs <= fuel)%nat ->
  removeAllChildren fuel h this = Finished (emptied h this cs).
Proof.
  induction cs as [|c cs IH]; intros fuel h this Hcs Hfuel.
  - destruct fuel; simpl; rewrite Hcs; unfold emptied; simpl;
      rewrite insert_id by exact Hcs; now rewrite heap_eta.
  - destruct fuel as [|fuel]; [simpl in Hfuel; lia|].
    simpl. rewrite Hcs. unfold removeChildAt.
    rewrite (removeChildAt1_in_range h this (c :: cs) 0 c Hcs) by (reflexivity || lia).
    simpl. rewrite (IH fuel); simpl.
    + unfold emptied; simpl. rewrite insert_insert_eq.
      now rewrite foldr_delete_commute.
    + apply lookup_insert_eq.
    + simpl in Hfuel. lia.
Qed.

Lemma emptied_single_owner h this cs :
  single_owner h -> children h !! this = Some cs ->
  single_owner (emptied h this cs).
Proof.
  intros [Hnd Hown] Hcs. split; simpl.
  - intros g l Hg. destruct (decide (this = g)) as [<-|Hne].
    + rewrite lookup_insert_eq in Hg. inversion Hg. apply NoDup_nil_2.
    + rewrite lookup_insert_ne in Hg by exact Hne. eauto.
  - intros x g. rewrite foldr_delete_lookup. case_bool_decide as Hx.
    + split; [discriminate|]. intros (l & Hg & Hin). exfalso.
      destruct (decide (this = g)) as [<-|Hne].
      * rewrite lookup_insert_eq in Hg. inversion Hg; subst.
        now apply elem_of_nil in Hin.
      * rewrite lookup_insert_ne in Hg by exact Hne.
        assert (parent h !! x = Some g) by (apply Hown; eauto).
        assert (parent h !! x = Some this) by (apply Hown; eauto).
        congruence.
    + rewrite Hown. destruct (decide (this = g)) as [<-|Hne].
      * rewrite lookup_insert_eq, Hcs. split.
        -- intros (? & [= <-] & Hin). contradiction.
        -- intros (? & [= <-] & Hin). now apply elem_of_nil in Hin.
      * now rewrite lookup_insert_ne by exact Hne.
Qed.

(** X2. [removeAllChildren()] on a Container with the child list [cs]
    finishes within [length cs] iterations of its loop. Afterwards the child
    list is empty, the parent of every former child is null, no other parent
    field and no other child list has changed, and a heap that satisfied
    single ownership still does. *)
Theorem removeAllChildren_empties_the_list h this cs fuel :
  children h !! this = Some cs -> (length cs <= fuel)%nat ->
  exists h',
    removeAllChildren fuel h this = Finished h' /\
    children h' !! this = Some [] /\
    (forall c, c ∈ cs -> parent h' !! c = None) /\
    (forall x, x ∉ cs -> parent h' !! x = parent h !! x) /\
    (forall g, g <> this -> children h' !! g = children h !! g) /\
    (single_owner h -> single_owner h').
Proof.
  intros Hcs Hfuel. exists (emptied h this cs).
  split; [now apply removeAllChildren_run|]. simpl.
  split; [apply lookup_insert_eq|].
  split; [intros c Hc; rewrite foldr_delete_lookup; now rewrite bool_decide_eq_true_2|].
  split; [intros x Hx; rewrite foldr_delete_lookup; now rewrite bool_decide_eq_false_2|].
  split; [intros g Hg; now apply lookup_insert_ne|].
  intros Hinv. now apply emptied_single_owner.
Qed.

(** X2, witness: the Container with three children, three iterations. *)
Lemma removeAllChildren_witness :
  exists h',
    removeAllChildren 3 three_children 1%nat = Finished h' /\
    children h' !! 1%nat = Some [] /\
    parent h' !! 11%nat = None.
Proof.
  destruct (removeAllChildren_empties_the_list
              three_children 1%nat [10; 11; 12]%nat 3)
    as (h' & Hrun & Hl & Hp & _).
  - reflexivity.
  - simpl. lia.
  - exists h'. split; [exact Hrun|]. split; [exact Hl|].
    apply Hp. right. now left.
Defined.

(** A node without a parent may be put anywhere in a child list. *)
Lemma placed_single_owner h g cs child l :
  single_owner h -> children h !! g = Some cs -> parent h !! child = None ->
  l ≡ₚ child :: cs ->
  single_owner (mkHeap (<[child := g]> (parent h)) (<[g := l]> (children h))).
Proof.
  intros [Hnd Hown] Hcs Hnone Hp.
  assert (Hfree : forall g' cs', children h !! g' = Some cs' -> child ∉ cs').
  { intros g' cs' Hg' Hin.
    assert (parent h !! child = Some g') by (apply Hown; eauto). congruence. }
  assert (Hmem : forall x, x ∈ l <-> x = child \/ x ∈ cs).
  { intros x. rewrite Hp. apply elem_of_cons. }
  split; simpl.
  - intros g' cs' Hg'. destruct (decide (g = g')) as [<-|Hne].
    + rewrite lookup_insert_eq in Hg'. inversion Hg'; subst.
      rewrite Hp. apply NoDup_cons. split; [now apply (Hfree g)|eauto].
    + rewrite lookup_insert_ne in Hg' by exact Hne. eauto.
  - intros x g'. destruct (decide (x = child)) as [->|Hx].
    + rewrite lookup_insert_eq. split.
      * intros [= <-]. rewrite lookup_insert_eq. eexists. split; [reflexivity|].
        apply Hmem. now left.
      * intros (cs' & Hg' & Hin). destruct (decide (g = g')) as [<-|Hne];
          [reflexivity|].
        rewrite lookup_insert_ne in Hg' by exact Hne.
        now apply Hfree in Hg'.
    + rewrite lookup_insert_ne by congruence. rewrite Hown.
      destruct (decide (g = g')) as [<-|Hne].
      * rewrite lookup_insert_eq, Hcs. split.
        -- intros (? & [= <-] & Hin). eexists. split; [reflexivity|].
           apply Hmem. now right.
        -- intros (? & [= <-] & Hin). eexists. split; [reflexivity|].
           apply Hmem in Hin as [?|?]; [contradiction|assumption].
      * now rewrite lookup_insert_ne by exact Hne.
Qed.

(** The first step of [addChild] and [addChildAt]: the child leaves the list
    of its parent, if it has one. *)
Lemma detach_for_add h this child cs :
  single_owner h -> children h !! this = Some cs ->
  exists h1,
    match parent h !! child with
    | Some p => fst <$> removeChild h p child
    | None => Some h
    end = Some h1 /\
    children h1 !! this = Some (filter (fun x => x <> child) cs) /\
    parent h1 !! child = None /\
    single_owner h1 /\
    (forall x, x <> child -> parent h1 !! x = parent h !! x) /\
    (forall g l, g <> this -> children h !! g = Some l ->
                 children h1 !! g = Some (filter (fun x => x <> child) l)).
Proof.
  intros Hinv Hcs. pose proof Hinv as [Hnd Hown].
  destruct (parent h !! child) as [p|] eqn:Hp.
  - destruct (proj1 (Hown child p) Hp) as (ps & Hps & Hin).
    destruct (removeChild_member h p ps child Hps Hin) as (i & Hi & Hrun).
    assert (Hdel : delete i ps = filter (fun x => x <> child) ps).
    { apply delete_filter_ne; [eauto|exact Hi]. }
    assert (Hother : forall g l, g <> p -> children h !! g = Some l -> child ∉ l).
    { intros g l Hg Hl Hc.
      assert (parent h !! child = Some g) by (apply Hown; eauto). congruence. }
    exists (detached h p ps i child). rewrite Hrun. simpl.
    split; [reflexivity|]. split.
    { destruct (decide (p = this)) as [->|Hne].
      - rewrite lookup_insert_eq. rewrite Hcs in Hps. inversion Hps; subst.
        now rewrite Hdel.
      - rewrite lookup_insert_ne by exact Hne. rewrite Hcs. f_equal.
        symmetry. apply filter_ne_id. apply (Hother this); congruence. }
    split; [apply lookup_delete_eq|].
    split; [now apply detached_single_owner|].
    split; [intros x Hx; apply lookup_delete_ne; congruence|].
    intros g l Hg Hl. destruct (decide (p = g)) as [<-|Hne].
    + rewrite lookup_insert_eq. rewrite Hl in Hps. inversion Hps; subst.
      now rewrite Hdel.
    + rewrite lookup_insert_ne by exact Hne. rewrite Hl. f_equal.
      symmetry. apply filter_ne_id. apply (Hother g); congruence.
  - assert (Hfree : forall g l, children h !! g = Some l -> child ∉ l).
    { intros g l Hl Hc.
      assert (parent h !! child = Some g) by (apply Hown; eauto). congruence. }
    exists h. split; [reflexivity|].
    split; [rewrite Hcs; f_equal; symmetry; apply filter_ne_id; eauto|].
    split; [exact Hp|]. split; [exact Hinv|]. split; [reflexivity|].
    intros g l _ Hl. rewrite Hl. f_equal. symmetry. apply filter_ne_id. eauto.
Qed.

Lemma splice_insert_Permutation cs index child :
  splice_insert cs index child ≡ₚ child :: cs.
Proof.
  unfold splice_insert. rewrite <- Permutation_middle.
  now rewrite take_drop.
Qed.

(** The position that [splice] gives to an index. *)
Lemma splice_insert_lookup cs index child :
  let len := Z.of_nat (length cs) in
  let start := if bool_decide (index < 0)
               then Z.max (len + index) 0 else Z.min index len in
  0 <= start <= len /\
  splice_insert cs index child !! Z.to_nat start = Some child.
Proof.
  intros len start.
  assert (Hs : 0 <= start <= len).
  { subst start len. case_bool_decide; lia. }
  split; [exact Hs|]. unfold splice_insert. fold len. fold start.
  rewrite lookup_app_r by (rewrite length_take; lia).
  rewrite length_take. subst len.
  replace (Z.to_nat start - Z.to_nat start `min` length cs)%nat with 0%nat by lia.
  reflexivity.
Qed.

Lemma splice_insert_filter cs index child :
  child ∉ cs ->
  filter (fun x => x <> child) (splice_insert cs index child) = cs.
Proof.
  intros Hni. unfold splice_insert.
  rewrite filter_app, filter_cons_False by tauto.
  rewrite <- filter_app, take_drop. now apply filter_ne_id.
Qed.

(** X3. [addChildAt(child, index)] on a heap that satisfies single ownership
    returns [child]; [child] first leaves the list it was in, and is then
    inserted into the list of [this] at the position [splice] gives to the
    index: the index itself when it is between 0 and the length of the list,
    the end when it is larger, counted from the end (and not before the
    front) when it is negative. The other children keep their order, the
    parent of [child] is [this], and single ownership still holds. *)
Theorem addChildAt_inserts_at_index h this cs child index :
  single_owner h -> children h !! this = Some cs ->
  let cs1 := filter (fun x => x <> child) cs in
  let len := Z.of_nat (length cs1) in
  let pos := if bool_decide (index < 0)
             then Z.max (len + index) 0 else Z.min index len in
  exists h' cs',
    addChildAt h this child index = Some (h', child) /\
    children h' !! this = Some cs' /\
    getChildAt h' this pos = Some (Some child) /\
    (0 <= index <= len -> pos = index) /\
    filter (fun x => x <> child) cs' = cs1 /\
    length cs' = S (length cs1) /\
    parent h' !! child = Some this /\
    single_owner h'.
Proof.
  intros Hinv Hcs cs1 len pos.
  destruct (detach_for_add h this child cs Hinv Hcs)
    as (h1 & Hrun & Hcs1 & Hnone & Hinv1 & _).
  fold cs1 in Hcs1.
  assert (Hni : child ∉ cs1).
  { subst cs1. rewrite list_elem_of_filter. tauto. }
  destruct (splice_insert_lookup cs1 index child) as [Hpos Hat].
  fold len in Hpos, Hat. fold pos in Hpos, Hat.
  exists (mkHeap (<[child := this]> (parent h1))
            (<[this := splice_insert cs1 index child]> (children h1))),
         (splice_insert cs1 index child).
  split.
  { unfold addChildAt. rewrite Hrun. simpl. now rewrite Hcs1. }
  split; [apply lookup_insert_eq|].
  split.
  { unfold getChildAt. simpl. rewrite lookup_insert_eq. simpl.
    rewrite bool_decide_eq_true_2 by lia. now rewrite Hat. }
  split.
  { intros Hr. subst pos. rewrite bool_decide_eq_false_2 by lia. lia. }
  split; [now apply splice_insert_filter|].
  split.
  { rewrite (Permutation_length (splice_insert_Permutation cs1 index child)).
    reflexivity. }
  split; [apply lookup_insert_eq|].
  apply (placed_single_owner h1 this cs1 child); auto.
  apply splice_insert_Permutation.
Qed.

(** X3, witness: the child 20 of Container 2 goes between the children 10
    and 11 of Container 1. *)
Lemma addChildAt_witness :
  exists h',
    addChildAt two_groups 1%nat 20%nat 1 = Some (h', 20%nat) /\
    getChildAt h' 1%nat 1 = Some (Some 20%nat) /\
    single_owner h'.
Proof.
  destruct (addChildAt_inserts_at_index two_groups 1%nat [10; 11]%nat 20%nat 1
              two_groups_single_owner eq_refl)
    as (h' & cs' & Hrun & _ & Hat & _ & _ & _ & _ & Hinv).
  exists h'. split; [exact Hrun|]. split; [exact Hat|exact Hinv].
Defined.

(** X4. In a heap that satisfies single ownership, [getChildAt] and
    [getChildIndex] are inverse to each other: the child at a position [i]
    (not negative) is [c] exactly when the index of [c] is [i]; and the index
    of [c] is -1 exactly when [c] is not in the child list. *)
Theorem getChildAt_getChildIndex_inverse h this cs c (i : Z) :
  single_owner h -> children h !! this = Some cs -> 0 <= i ->
  (getChildAt h this i = Some (Some c) <-> getChildIndex h this c = Some i) /\
  (getChildIndex h this c = Some (-1) <-> c ∉ cs).
Proof.
  intros [Hnd _] Hcs Hi. unfold getChildAt, getChildIndex. rewrite Hcs. simpl.
  rewrite bool_decide_eq_true_2 by exact Hi.
  specialize (Hnd this cs Hcs). split; split.
  - intros [= Hc]. rewrite (indexOf_first cs c (Z.to_nat i)) by assumption.
    f_equal. lia.
  - intros [= Hx]. destruct (decide (c ∈ cs)) as [Hin|Hni].
    + destruct (indexOf_member cs c Hin) as (j & Hj & Hc).
      rewrite Hj in Hx. subst i. now rewrite Nat2Z.id, Hc.
    + rewrite (indexOf_not_member cs c Hni) in Hx. lia.
  - intros [= Hx] Hin. destruct (indexOf_member cs c Hin) as (j & Hj & _). lia.
  - intros Hni. now rewrite (indexOf_not_member cs c Hni).
Qed.

(** X4, witness: child 11 stands at position 1 of Container 1. *)
Lemma getChildAt_getChildIndex_witness :
  getChildIndex two_groups 1%nat 11%nat = Some 1.
Proof.
  apply (getChildAt_getChildIndex_inverse two_groups 1%nat [10; 11]%nat 11%nat 1
           two_groups_single_owner eq_refl); [lia|reflexivity].
Defined.

(** [addChild(child)] in full on a heap that satisfies single ownership. *)
Lemma addChild1_moves h this child cs :
  single_owner h -> children h !! this = Some cs ->
  exists h',
    addChild1 h this child = Some (h', child) /\
    children h' !! this = Some (filter (fun x => x <> child) cs ++ [child]) /\
    parent h' !! child = Some this /\
    (forall x, x <> child -> parent h' !! x = parent h !! x) /\
    (forall g l, g <> this -> children h !! g = Some l ->
                 children h' !! g = Some (filter (fun x => x <> child) l)) /\
    single_owner h'.
Proof.
  intros Hinv Hcs.
  destruct (detach_for_add h this child cs Hinv Hcs)
    as (h1 & Hrun & Hcs1 & Hnone & Hinv1 & Hpar & Hoth).
  exists (attached h1 this (filter (fun x => x <> child) cs) child).
  split.
  { unfold addChild1. rewrite Hrun. simpl. now rewrite Hcs1. }
  simpl. split; [apply lookup_insert_eq|]. split; [apply lookup_insert_eq|].
  split.
  { intros x Hx. rewrite lookup_insert_ne by congruence. now apply Hpar. }
  split.
  { intros g l Hg Hl. rewrite lookup_insert_ne by congruence. now apply Hoth. }
  now apply attached_single_owner.
Qed.

Lemma filter_not_in_cons (l : list oid) x args :
  filter (fun y => y ∉ args) (filter (fun y => y <> x) l)
  = filter (fun y => y ∉ x :: args) l.
Proof.
  induction l as [|y l IH]; [reflexivity|].
  destruct (decide (y = x)) as [->|Hne].
  - rewrite (filter_cons_False (fun y => y <> x)) by tauto.
    rewrite (filter_cons_False (fun y => y ∉ x :: args)); [exact IH|].
    intros H. apply H. now left.
  - rewrite (filter_cons_True (fun y => y <> x)) by exact Hne.
    destruct (decide (y ∈ args)) as [Hin|Hni].
    + rewrite (filter_cons_False (fun y => y ∉ args)) by tauto.
      rewrite (filter_cons_False (fun y => y ∉ x :: args)); [exact IH|].
      intros H. apply H. now right.
    + rewrite (filter_cons_True (fun y => y ∉ args)) by exact Hni.
      rewrite (filter_cons_True (fun y => y ∉ x :: args)); [now rewrite IH|].
      intros [?|?]%elem_of_cons; [congruence|contradiction].
Qed.

Lemma filter_not_in_nil (l : list oid) : filter (fun y => y ∉ []) l = l.
Proof.
  induction l as [|y l IH]; [reflexivity|].
  rewrite filter_cons_True by apply not_elem_of_nil. now rewrite IH.
Qed.

Lemma addChild_loop_moves this args :
  forall h cs,
  single_owner h -> children h !! this = Some cs -> NoDup args ->
  exists h',
    addChild_loop h this args = Some h' /\
    children h' !! this = Some (filter (fun x => x ∉ args) cs ++ args) /\
    (forall x, x ∈ args -> parent h' !! x = Some this) /\
    (forall x, x ∉ args -> parent h' !! x = parent h !! x) /\
    (forall g l, g <> this -> children h !! g = Some l ->
                 children h' !! g = Some (filter (fun x => x ∉ args) l)) /\
    single_owner h'.
Proof.
  induction args as [|x args IH]; intros h cs Hinv Hcs Hnd.
  - exists h. simpl. split; [reflexivity|].
    split; [now rewrite filter_not_in_nil, app_nil_r|].
    split; [intros ? []%elem_of_nil|]. split; [reflexivity|].
    split; [|exact Hinv]. intros g l _ Hl. now rewrite filter_not_in_nil.
  - apply NoDup_cons in Hnd as [Hx Hnd].
    destruct (addChild1_moves h this x cs Hinv Hcs)
      as (h1 & Hrun1 & Hcs1 & Hp1 & Hpar1 & Hoth1 & Hinv1).
    destruct (IH h1 _ Hinv1 Hcs1 Hnd)
      as (h2 & Hrun2 & Hcs2 & Hp2 & Hpar2 & Hoth2 & Hinv2).
    exists h2. simpl. rewrite Hrun1. simpl. split; [exact Hrun2|].
    split.
    { rewrite Hcs2. f_equal. rewrite filter_app, filter_not_in_cons.
      rewrite (filter_cons_True (fun y => y ∉ args)) by exact Hx.
      rewrite filter_nil, <- app_assoc. reflexivity. }
    split.
    { intros y [->|Hy]%elem_of_cons; [|now apply Hp2].
      rewrite Hpar2 by exact Hx. exact Hp1. }
    split.
    { intros y Hy. apply not_elem_of_cons in Hy as [Hyx Hy].
      rewrite Hpar2 by exact Hy. now apply Hpar1. }
    split; [|exact Hinv2].
    intros g l Hg Hl. rewrite (Hoth2 g _ Hg (Hoth1 g l Hg Hl)).
    now rewrite filter_not_in_cons.
Qed.

(** X5. [addChild(c1, ..., cn)] with distinct arguments, one or several, on
    a heap that satisfies single ownership, returns the last argument. The
    list of [this] afterwards is the old one without the arguments, followed
    by the arguments in the order given; every argument has [this] as its
    parent and has left every other list; nothing else changes, and single
    ownership still holds. *)
Theorem addChild_appends_in_order h this cs child more :
  single_owner h -> children h !! this = Some cs -> NoDup (child :: more) ->
  let args := child :: more in
  exists h',
    addChild h this child more = Some (h', List.last more child) /\
    children h' !! this = Some (filter (fun x => x ∉ args) cs ++ args) /\
    (forall x, x ∈ args -> parent h' !! x = Some this) /\
    (forall x, x ∉ args -> parent h' !! x = parent h !! x) /\
    (forall g l, g <> this -> children h !! g = Some l ->
                 children h' !! g = Some (filter (fun x => x ∉ args) l)) /\
    single_owner h'.
Proof.
  intros Hinv Hcs Hnd args.
  destruct (addChild_loop_moves this args h cs Hinv Hcs Hnd)
    as (h' & Hrun & Hrest).
  exists h'. split; [|exact Hrest].
  destruct more as [|y more]; unfold addChild.
  - subst args. simpl in Hrun.
    destruct (addChild1 h this child) as [[h1 r]|] eqn:E; [|discriminate].
    simpl in Hrun. inversion Hrun; subst.
    destruct (addChild1_moves h this child cs Hinv Hcs) as (h2 & Hrun2 & _).
    rewrite E in Hrun2. inversion Hrun2; subst. reflexivity.
  - subst args. now rewrite Hrun.
Qed.

(** X5, witness: the children 20 (of Container 2) and 10 (of Container 1
    itself) are added to Container 1. *)
Lemma addChild_appends_witness :
  exists h',
    addChild two_groups 1%nat 20%nat [10%nat] = Some (h', 10%nat) /\
    children h' !! 1%nat = Some [11; 20; 10]%nat /\
    children h' !! 2%nat = Some [].
Proof.
  destruct (addChild_appends_in_order two_groups 1%nat [10; 11]%nat 20%nat [10%nat]
              two_groups_single_owner eq_refl)
    as (h' & Hrun & Hl & _ & _ & Hoth & _).
  - apply NoDup_cons. split; [|apply NoDup_singleton].
    intros Hin. apply list_elem_of_singleton in Hin. discriminate.
  - exists h'. split; [exact Hrun|]. split; [exact Hl|].
    apply (Hoth 2%nat [20%nat]); [discriminate|reflexivity].
Defined.

Lemma removeChildAt_loop_false a : forall h this,
  removeChildAt_loop h this a false = Some (h, false).
Proof. induction a as [|i a IH]; intros h this; [reflexivity|apply IH]. Qed.

Lemma removeChildAt_loop_app a b : forall h this good,
  removeChildAt_loop h this (a ++ b) good
  = '(h1, r) ← removeChildAt_loop h this a good; removeChildAt_loop h1 this b r.
Proof.
  induction a as [|i a IH]; intros h this good; [reflexivity|].
  simpl. destruct good; [|apply IH].
  destruct (removeChildAt1 h this i) as [[h1 r]|]; [apply IH|reflexivity].
Qed.

(** X6. [removeChildAt] with one index or several, one of which is at or
    beyond the number of children: the call returns false and removes
    nothing, whatever the other indices are. *)
Theorem removeChildAt_index_beyond_length h this cs index more (i : Z) :
  children h !! this = Some cs ->
  i ∈ index :: more -> Z.of_nat (length cs) <= i ->
  removeChildAt h this index more = Some (h, false).
Proof.
  intros Hcs Hin Hi. destruct more as [|j more].
  - apply list_elem_of_singleton in Hin as ->. unfold removeChildAt.
    apply (removeChildAt1_out_of_range h this cs); [exact Hcs|lia].
  - unfold removeChildAt.
    destruct (sort_descending_spec (index :: j :: more)) as (Hs & _ & Hm).
    apply Hm in Hin.
    destruct (sort_descending (index :: j :: more)) as [|m s].
    + now apply elem_of_nil in Hin.
    + assert (Hmax : i <= m).
      { apply elem_of_cons in Hin as [->|Hin]; [lia|].
        apply StronglySorted_inv in Hs as [_ Hall].
        rewrite Forall_forall in Hall. specialize (Hall i Hin). lia. }
      simpl.
      rewrite (removeChildAt1_out_of_range h this cs) by (exact Hcs || lia).
      simpl. apply removeChildAt_loop_false.
Qed.

(** X6, witness: [removeChildAt(0, 3)] on the Container with three
    children. *)
Lemma removeChildAt_index_beyond_length_witness :
  removeChildAt three_children 1%nat 0 [3] = Some (three_children, false).
Proof.
  apply (removeChildAt_index_beyond_length
           three_children 1%nat [10; 11; 12]%nat 0 [3] 3).
  - reflexivity.
  - right. now left.
  - simpl. lia.
Defined.

(** Only the positions that a list has matter to [omit_from]. *)
Lemma omit_from_ext_above k s s' (l : list oid) :
  0 <= k -> (forall i, k <= i -> i ∈ s <-> i ∈ s') ->
  omit_from k s l = omit_from k s' l.
Proof.
  revert k. induction l as [|x l IH]; intros k Hk H; [reflexivity|].
  simpl. rewrite (bool_decide_ext _ _ (H k ltac:(lia))).
  rewrite (IH (k + 1)); [reflexivity|lia|]. intros i Hi. apply H. lia.
Qed.

Lemma filter_all_negative (s : list Z) :
  Forall (fun j => j < 0) s ->
  filter (fun i => 0 <= i) s = [] /\ filter (fun i => i < 0) s = s.
Proof.
  induction s as [|j s IH]; intros H; [now split|].
  apply Forall_cons in H as [Hj H]. destruct (IH H) as [E1 E2].
  rewrite (filter_cons_False (fun i => 0 <= i)) by lia.
  rewrite (filter_cons_True (fun i => i < 0)) by exact Hj.
  now rewrite E1, E2.
Qed.

Lemma sorted_descending_split (s : list Z) :
  StronglySorted Z.ge s ->
  s = filter (fun i => 0 <= i) s ++ filter (fun i => i < 0) s.
Proof.
  induction s as [|i s IH]; intros Hs; [reflexivity|].
  apply StronglySorted_inv in Hs as [Hs Hall].
  destruct (decide (0 <= i)) as [Hi|Hi].
  - rewrite (filter_cons_True (fun i => 0 <= i)) by exact Hi.
    rewrite (filter_cons_False (fun i => i < 0)) by lia.
    simpl. f_equal. now apply IH.
  - rewrite (filter_cons_False (fun i => 0 <= i)) by exact Hi.
    rewrite (filter_cons_True (fun i => i < 0)) by lia.
    destruct (filter_all_negative s) as [E1 E2].
    { rewrite Forall_forall in *. intros j Hj. specialize (Hall j Hj). lia. }
    now rewrite E1, E2.
Qed.

(** X7. [removeChildAt] with several distinct indices, all below the number
    of children and at least one of them negative: the call returns false,
    and yet the children at the indices that are not negative have been
    removed, as in a successful call; their parents are null, and nothing
    else has changed. *)
Theorem removeChildAt_negative_index_removes_the_rest
    h this cs index more (i : Z) :
  children h !! this = Some cs ->
  more <> [] ->
  NoDup (index :: more) ->
  (forall j, j ∈ index :: more -> j < Z.of_nat (length cs)) ->
  i ∈ index :: more -> i < 0 ->
  exists h',
    removeChildAt h this index more = Some (h', false) /\
    children h' !! this = Some (omit (index :: more) cs) /\
    (forall j c, j ∈ index :: more -> 0 <= j -> cs !! Z.to_nat j = Some c ->
                 parent h' !! c = None) /\
    (forall x, (forall j, j ∈ index :: more -> 0 <= j ->
                          cs !! Z.to_nat j <> Some x) ->
               parent h' !! x = parent h !! x) /\
    (forall g, g <> this -> children h' !! g = children h !! g).
Proof.
  intros Hcs Hmore Hnd Hr Hin Hi.
  destruct (sort_descending_spec (index :: more)) as (Hs & Hn & Hm).
  specialize (Hn Hnd).
  set (s := sort_descending (index :: more)) in *.
  set (a := filter (fun i => 0 <= i) s).
  set (b := filter (fun i => i < 0) s).
  assert (Hsplit : s = a ++ b) by now apply sorted_descending_split.
  assert (Ha : forall j, j ∈ a <-> j ∈ index :: more /\ 0 <= j).
  { intros j. subst a. rewrite list_elem_of_filter, Hm. tauto. }
  assert (Hb : exists n b', b = n :: b' /\ n < 0).
  { destruct b as [|n b'] eqn:E.
    - exfalso. assert (i ∈ b) by (subst b; rewrite list_elem_of_filter, Hm; tauto).
      rewrite E in H. now apply elem_of_nil in H.
    - exists n, b'. split; [reflexivity|].
      assert (n ∈ b) by (rewrite E; now left).
      subst b. apply list_elem_of_filter in H. tauto. }
  destruct Hb as (n & b' & Eb & Hneg).
  assert (Hsa : StronglySorted Z.ge a).
  { rewrite Hsplit in Hs. now apply StronglySorted_app_1_l in Hs. }
  assert (Hna : NoDup a) by (subst a; now apply NoDup_filter).
  exists (mkHeap (detach_all cs (parent h) a) (<[this := omit a cs]> (children h))).
  split.
  { destruct more as [|m more]; [contradiction|]. unfold removeChildAt.
    fold s. rewrite Hsplit, removeChildAt_loop_app.
    pose proof (removeChildAt_loop_descending this a h cs Hcs Hsa Hna) as Hrun.
    rewrite Hrun.
    2:{ intros j Hj. apply Ha in Hj as [Hj ?]. specialize (Hr j Hj). lia. }
    simpl. rewrite Eb. simpl.
    rewrite (removeChildAt1_out_of_range _ this (omit a cs));
      [|apply lookup_insert_eq|lia].
    simpl. apply removeChildAt_loop_false. }
  simpl. split.
  { rewrite lookup_insert_eq. f_equal. unfold omit.
    apply omit_from_ext_above; [lia|]. intros k Hk. rewrite Ha. tauto. }
  split.
  { intros j c Hj H0 Hc. apply (detach_all_removed cs _ _ j); [|exact Hc].
    apply Ha. tauto. }
  split.
  { intros x Hx. apply detach_all_other. intros j Hj.
    apply Ha in Hj as [Hj H0]. now apply Hx. }
  intros g Hg. now apply lookup_insert_ne.
Qed.

(** X7, witness: [removeChildAt(0, -1)] on the Container with three children
    removes the first child and returns false. *)
Lemma removeChildAt_negative_index_witness :
  exists h',
    removeChildAt three_children 1%nat 0 [-1] = Some (h', false) /\
    children h' !! 1%nat = Some [11; 12]%nat /\
    parent h' !! 10%nat = None.
Proof.
  destruct (removeChildAt_negative_index_removes_the_rest
              three_children 1%nat [10; 11; 12]%nat 0 [-1] (-1))
    as (h' & Hrun & Hl & Hp & _).
  - reflexivity.
  - discriminate.
  - apply NoDup_cons. split; [|apply NoDup_singleton].
    intros Hin. apply list_elem_of_singleton in Hin. discriminate.
  - intros j [->|Hj]%elem_of_cons; [simpl; lia|].
    apply list_elem_of_singleton in Hj as ->. simpl; lia.
  - right. now left.
  - lia.
  - exists h'. split; [exact Hrun|]. split; [exact Hl|].
    apply (Hp 0 10%nat); [now left|lia|reflexivity].
Defined.

Lemma removeChild_loop_false args : forall h this,
  removeChild_loop h this args false = Some (h, false).
Proof. induction args as [|x args IH]; intros h this; [reflexivity|apply IH]. Qed.

Lemma removeChildren_loop h this child more :
  removeChildren h this child more
  = removeChild_loop h this (child :: more) true.
Proof.
  destruct more as [|y more]; [|reflexivity]. simpl.
  now destruct (removeChild h this child) as [[h1 r]|].
Qed.

Lemma removeChild_stranger h this cs child :
  children h !! this = Some cs -> child ∉ cs ->
  removeChild h this child = Some (h, false).
Proof.
  intros Hcs Hni. unfold removeChild, removeChildAt. rewrite Hcs; simpl.
  rewrite (indexOf_not_member cs child Hni).
  apply (removeChildAt1_out_of_range h this cs); [exact Hcs|lia].
Qed.

Lemma removeChild_loop_until_stranger this pre tail :
  forall h cs,
  single_owner h -> children h !! this = Some cs ->
  NoDup pre -> (forall x, x ∈ pre -> x ∈ cs) ->
  (forall bad, head tail = Some bad -> bad ∉ cs \/ bad ∈ pre) ->
  exists h',
    removeChild_loop h this (pre ++ tail) true
    = Some (h', bool_decide (tail = [])) /\
    children h' !! this = Some (filter (fun x => x ∉ pre) cs) /\
    (forall x, x ∈ pre -> parent h' !! x = None) /\
    (forall x, x ∉ pre -> parent h' !! x = parent h !! x) /\
    (forall g, g <> this -> children h' !! g = children h !! g) /\
    single_owner h'.
Proof.
  induction pre as [|x pre IH]; intros h cs Hinv Hcs Hnd Hsub Hbad.
  - exists h. split.
    { destruct tail as [|bad rest]; [reflexivity|]. simpl.
      destruct (Hbad bad eq_refl) as [Hni|Hin]; [|now apply elem_of_nil in Hin].
      rewrite (removeChild_stranger h this cs bad Hcs Hni). simpl.
      apply removeChild_loop_false. }
    split; [now rewrite filter_not_in_nil|].
    split; [intros ? []%elem_of_nil|].
    split; [reflexivity|]. split; [reflexivity|exact Hinv].
  - apply NoDup_cons in Hnd as [Hx Hnd].
    assert (Hin : x ∈ cs) by (apply Hsub; now left).
    destruct (removeChild_member h this cs x Hcs Hin) as (i & Hi & Hrun).
    pose proof (detached_single_owner h this cs i x Hinv Hcs Hi) as Hinv1.
    assert (Hdel : delete i cs = filter (fun y => y <> x) cs).
    { apply delete_filter_ne; [|exact Hi]. now apply (proj1 Hinv this). }
    destruct (IH (detached h this cs i x) (filter (fun y => y <> x) cs))
      as (h' & Hrun' & Hl & Hp & Hpar & Hoth & Hinv'); auto.
    { simpl. rewrite lookup_insert_eq. now rewrite Hdel. }
    { intros y Hy. apply list_elem_of_filter. split.
      - intros ->. contradiction.
      - apply Hsub. now right. }
    { intros bad Hb. destruct (Hbad bad Hb) as [Hni|Hb'].
      - left. rewrite list_elem_of_filter. tauto.
      - apply elem_of_cons in Hb' as [->|Hb']; [|now right].
        left. rewrite list_elem_of_filter. tauto. }
    exists h'. split.
    { simpl. rewrite Hrun. simpl. exact Hrun'. }
    split; [now rewrite Hl, filter_not_in_cons|].
    split.
    { intros y [->|Hy]%elem_of_cons; [|now apply Hp].
      rewrite Hpar by exact Hx. simpl. apply lookup_delete_eq. }
    split.
    { intros y Hy. apply not_elem_of_cons in Hy as [Hyx Hy].
      rewrite Hpar by exact Hy. simpl. now apply lookup_delete_ne. }
    split; [|exact Hinv'].
    intros g Hg. rewrite Hoth by exact Hg. simpl. now apply lookup_insert_ne.
Qed.

(** X8. [removeChild(c1, ..., cn)], with one argument or several, on a heap
    that satisfies single ownership, removes its arguments one after the
    other and stops at the first one that is not (or is no longer) in the
    child list: the arguments before it have been removed and their parents
    are null, the arguments after it are left where they are, and the call
    returns false. When every argument is a child and no argument is
    repeated, all are removed and the call returns true. Single ownership
    holds afterwards. *)
Theorem removeChild_stops_at_first_stranger
    h this cs child more (pre tail : list oid) :
  single_owner h -> children h !! this = Some cs ->
  child :: more = pre ++ tail ->
  NoDup pre -> (forall x, x ∈ pre -> x ∈ cs) ->
  (forall bad, head tail = Some bad -> bad ∉ cs \/ bad ∈ pre) ->
  exists h',
    removeChildren h this child more = Some (h', bool_decide (tail = [])) /\
    children h' !! this = Some (filter (fun x => x ∉ pre) cs) /\
    (forall x, x ∈ pre -> parent h' !! x = None) /\
    (forall x, x ∉ pre -> parent h' !! x = parent h !! x) /\
    (forall g, g <> this -> children h' !! g = children h !! g) /\
    single_owner h'.
Proof.
  intros Hinv Hcs Hargs Hnd Hsub Hbad.
  rewrite removeChildren_loop, Hargs.
  now apply (removeChild_loop_until_stranger this pre tail h cs).
Qed.

(** X8, witness: [removeChild(10, 20, 11)] on Container 1, whose children
    are 10 and 11: 10 is removed, 20 is a stranger, 11 stays. *)
Lemma removeChild_stops_witness :
  exists h',
    removeChildren two_groups 1%nat 10%nat [20; 11]%nat = Some (h', false) /\
    children h' !! 1%nat = Some [11%nat] /\
    parent h' !! 11%nat = Some 1%nat.
Proof.
  destruct (removeChild_stops_at_first_stranger
              two_groups 1%nat [10; 11]%nat 10%nat [20; 11]%nat
              [10%nat] [20; 11]%nat two_groups_single_owner eq_refl eq_refl)
    as (h' & Hrun & Hl & _ & Hpar & _).
  - apply NoDup_singleton.
  - intros x Hx. apply list_elem_of_singleton in Hx as ->. now left.
  - intros bad [= <-]. left. intros Hin.
    repeat (apply elem_of_cons in Hin as [Hin|Hin]; [discriminate|]).
    now apply elem_of_nil in Hin.
  - exists h'. split; [exact Hrun|]. split; [exact Hl|].
    rewrite Hpar; [reflexivity|].
    intros Hin. apply list_elem_of_singleton in Hin. discriminate.
Defined.

Lemma ancestors_length n h x : (length (ancestors n h x) <= n)%nat.
Proof.
  revert x. induction n as [|n IH]; intros x; simpl; [lia|].
  destruct (parent h !! x) as [p|]; simpl; [specialize (IH p)|]; lia.
Qed.

Lemma contains_step n h this c :
  contains (S n) h this (Some c)
  = if bool_decide (c = this) then Finished true
    else contains n h this (parent h !! c).
Proof. reflexivity. Qed.

(** X9. [contains(child)] walks up the parent fields. When the chain of
    parents above [child] ends within [n] steps, the walk finishes within
    [n + 1] iterations, and it answers true exactly when [this] is [child]
    itself or one of its ancestors. For [null] the answer is false. *)
Theorem contains_is_child_or_ancestor n h this c :
  (length (ancestors (S n) h c) <= n)%nat ->
  contains (S n) h this (Some c)
  = Finished (bool_decide (this ∈ c :: ancestors n h c)) /\
  contains (S n) h this None = Finished false.
Proof.
  intros Hlen. split; [|reflexivity].
  revert c Hlen. induction n as [|n IH]; intros c Hlen.
  - simpl in *. destruct (parent h !! c) as [p|]; [simpl in Hlen; lia|].
    case_bool_decide as Hc.
    + subst. now rewrite bool_decide_eq_true_2 by (now left).
    + rewrite bool_decide_eq_false_2; [reflexivity|].
      intros Hin. apply list_elem_of_singleton in Hin. congruence.
  - rewrite contains_step. case_bool_decide as Hc.
    + subst. now rewrite bool_decide_eq_true_2 by (now left).
    + cbn [ancestors] in *. destruct (parent h !! c) as [p|] eqn:Hp.
      * rewrite IH by (simpl in Hlen; lia). f_equal.
        apply bool_decide_ext. rewrite (elem_of_cons _ this c). split.
        -- now right.
        -- intros [?|?]; [congruence|assumption].
      * rewrite bool_decide_eq_false_2; [reflexivity|].
        intros Hin. apply list_elem_of_singleton in Hin. congruence.
Qed.

(** X9, witness: Container 1 contains its child 11, Container 2 does not. *)
Lemma contains_witness :
  contains 2 two_groups 1%nat (Some 11%nat) = Finished true /\
  contains 2 two_groups 2%nat (Some 11%nat) = Finished false.
Proof.
  split.
  - apply (contains_is_child_or_ancestor 1 two_groups 1%nat 11%nat).
    vm_compute. lia.
  - apply (contains_is_child_or_ancestor 1 two_groups 2%nat 11%nat).
    vm_compute. lia.
Defined.

(** A Container may be added to itself; the walk of [contains] from it then
    never ends for another Container. *)
Example contains_does_not_end (fuel : nat) :
  exists h',
    addChild (mkHeap ∅ (<[1%nat := []]> (<[2%nat := []]> ∅))) 1%nat 1%nat []
    = Some (h', 1%nat) /\
    contains fuel h' 2%nat (Some 1%nat) = OutOfFuel.
Proof.
  eexists. split; [reflexivity|].
  induction fuel as [|fuel IH]; [reflexivity|exact IH].
Qed.

End Container_child_list.

(* --------------------------------------------------------------------- *)
(** ** Container: what the point queries return                           *)
(* --------------------------------------------------------------------- *)

Section HitTest_results.
Import HitTest.
(** The pixel test of a node does not depend on what earlier misses left in
    the probe canvas. *)
Variable hit : Node -> bool.

Lemma skip_reportable child :
  negb (isVisible child) || negb (mouseEnabled (props child))
  = negb (reportable child).
Proof. unfold reportable. now rewrite negb_andb. Qed.

(** The loop in the mode that collects: it falls through, and the array has
    grown by the nodes under the point. *)
Lemma children_loop_collects this l :
  Forall (fun c => forall a probe, exists v probe',
            _getObjectsUnderPoint (pixel_test hit) c (Some a) 0 probe
            = (v, Some (a ++ under hit c), probe')) l ->
  forall a probe, exists probe',
    children_loop (pixel_test hit) (_getObjectsUnderPoint (pixel_test hit)) this false 0
      l (Some a) probe
    = (Fallthrough, Some (a ++ under_children hit (under hit) l), probe').
Proof.
  induction 1 as [|child l Hchild Hl IH]; intros a probe.
  - exists probe. simpl. now rewrite app_nil_r.
  - destruct (IH a probe) as [probe1 Hrun].
    cbn [children_loop under_children]. rewrite Hrun, skip_reportable.
    destruct (reportable child) eqn:Hrep; simpl.
    2:{ exists probe1. now rewrite app_nil_r. }
    destruct child as [cp k|cp cs].
    + unfold pixel_test at 1. destruct (hit (Leaf cp k)); simpl.
      * exists []. now rewrite app_assoc.
      * eexists. now rewrite app_nil_r.
    + destruct (Hchild (a ++ under_children hit (under hit) l) probe1)
        as (v & probe2 & Hrec).
      rewrite Hrec. exists probe2. rewrite <- app_assoc.
      now destruct v.
Qed.

Lemma _getObjectsUnderPoint_collects this :
  forall a probe, exists v probe',
    _getObjectsUnderPoint (pixel_test hit) this (Some a) 0 probe
    = (v, Some (a ++ under hit this), probe').
Proof.
  induction this as [p k|p cs IH] using Node_nested_ind; intros a probe.
  - exists None, probe. simpl. now rewrite app_nil_r.
  - cbn [_getObjectsUnderPoint under]. rewrite handles_no_events.
    assert (Hrun : forall probe0, exists v probe',
      loop_result
        (children_loop (pixel_test hit) (_getObjectsUnderPoint (pixel_test hit))
           (Container p cs) false 0 cs (Some a) probe0)
      = (v, Some (a ++ under_children hit (under hit) cs), probe')).
    { intros probe0.
      destruct (children_loop_collects (Container p cs) cs IH a probe0)
        as [probe' ->]. now exists None, probe'. }
    destruct (cacheCanvas p); simpl; [|apply Hrun].
    unfold pixel_test at 1. destruct (hit (Container p cs)); simpl.
    + apply Hrun.
    + eexists _, _. now rewrite app_nil_r.
Qed.


(** The loop in the mode that stops at the first hit, over children without
    caches. *)
Lemma children_loop_first this l :
  Forall (fun c => uncached c = true -> forall probe, exists probe',
            _getObjectsUnderPoint (pixel_test hit) c None 0 probe
            = (match under hit c with
               | [] => None
               | x :: _ => Some [x]
               end, None, probe')) l ->
  forallb uncached l = true ->
  forall probe, exists probe',
    children_loop (pixel_test hit) (_getObjectsUnderPoint (pixel_test hit)) this false 0
      l None probe
    = (match under_children hit (under hit) l with
       | [] => Fallthrough
       | x :: _ => Returned (Some [x])
       end, None, probe').
Proof.
  induction 1 as [|child l Hchild Hl IH]; intros Hun probe.
  - now exists probe.
  - simpl in Hun. apply andb_true_iff in Hun as [Hc Hun].
    destruct (IH Hun probe) as [probe1 Hrun].
    cbn [children_loop under_children]. rewrite Hrun, skip_reportable.
    destruct (under_children hit (under hit) l) as [|x rest]; simpl.
    2:{ now exists probe1. }
    destruct (reportable child) eqn:Hrep; simpl; [|now exists probe1].
    destruct child as [cp k|cp cs].
    + unfold pixel_test at 1. destruct (hit (Leaf cp k)); simpl.
      * now exists [].
      * now eexists.
    + destruct (Hchild Hc probe1) as (probe2 & Hrec). rewrite Hrec.
      exists probe2. now destruct (under hit (Container cp cs)).
Qed.

Lemma _getObjectsUnderPoint_first this :
  uncached this = true ->
  forall probe, exists probe',
    _getObjectsUnderPoint (pixel_test hit) this None 0 probe
    = (match under hit this with
       | [] => None
       | x :: _ => Some [x]
       end, None, probe').
Proof.
  induction this as [p k|p cs IH] using Node_nested_ind; intros Hun probe.
  - now exists probe.
  - cbn [uncached] in Hun. apply andb_true_iff in Hun as [Hp Hcs].
    apply negb_true_iff in Hp.
    cbn [_getObjectsUnderPoint under]. rewrite handles_no_events, Hp. simpl.
    destruct (children_loop_first (Container p cs) cs IH Hcs probe)
      as [probe' ->].
    exists probe'. now destruct (under_children hit (under hit) cs).
Qed.


Lemma draw_uncached_container p cs ignoreCache :
  cacheCanvas p = false ->
  draw (Container p cs) ignoreCache = draw_children draw cs.
Proof. intros Hp. simpl. now rewrite Hp. Qed.

(** What is under the point is painted, for a tree without caches on its
    Containers. *)
Lemma under_is_painted this :
  uncached this = true ->
  forall n ignoreCache, n ∈ under hit this ->
  Blit n ∈ draw this ignoreCache \/ Content_ n ∈ draw this ignoreCache.
Proof.
  induction this as [p k|p cs IH] using Node_nested_ind;
    intros Hun n ignoreCache Hn.
  - now apply elem_of_nil in Hn.
  - cbn [uncached] in Hun. apply andb_true_iff in Hun as [Hp Hcs].
    apply negb_true_iff in Hp.
    rewrite (draw_uncached_container p cs ignoreCache Hp).
    cbn [under] in Hn. rewrite Hp in Hn. cbn [andb] in Hn.
    clear Hp. induction IH as [|child cs Hchild _ IHcs].
    + now apply elem_of_nil in Hn.
    + cbn [forallb] in Hcs. apply andb_true_iff in Hcs as [Hc Hcs].
      cbn [under_children] in Hn. apply elem_of_app in Hn as [Hn|Hn].
      * destruct (IHcs Hcs Hn) as [Hop|Hop]; [left|right];
          cbn [draw_children]; apply elem_of_app; now right.
      * destruct (reportable child) eqn:Hrep;
          [|now apply elem_of_nil in Hn].
        assert (Hvis : isVisible child = true).
        { unfold reportable in Hrep. now apply andb_true_iff in Hrep as [? _]. }
        cbn [draw_children]. rewrite Hvis.
        destruct child as [cp k|cp ccs].
        -- destruct (hit (Leaf cp k)); [|now apply elem_of_nil in Hn].
           apply list_elem_of_singleton in Hn as ->.
           destruct (draw_leaf cp k Hvis) as [Hop|Hop]; [left|right];
             apply elem_of_app; now left.
        -- destruct (Hchild Hc n false Hn) as [Hop|Hop]; [left|right];
             apply elem_of_app; now left.
Qed.


End HitTest_results.

Section HitTest_results_witness.
Import HitTest.


(** The three shapes, the top-most first. *)
Example getObjectsUnderPoint_three_shapes :
  getObjectsUnderPoint always_hit three_shapes []
  = [Leaf (plain_props 3 true) Plain;
     Leaf (plain_props 2 true) Plain;
     Leaf (plain_props 1 true) Plain].
Proof. reflexivity. Qed.


End HitTest_results_witness.

(* --------------------------------------------------------------------- *)
(** ** BitmapSequence: cadence, sequences and the frame rectangle         *)
(* --------------------------------------------------------------------- *)

Section BitmapSequence_runs.
Import BitmapSequence.
Variable invoke : Callback -> t -> t.

Lemma rem_is_zero_div (a f : Z) :
  0 < f ->
  a / f = (a - 1) / f + (if rem_is_zero a f then 1 else 0).
Proof.
  intros Hf. unfold rem_is_zero.
  rewrite (proj2 (Z.eqb_neq f 0)) by lia.
  pose proof (Z.div_mod a f ltac:(lia)) as Ha.
  pose proof (Z.mod_pos_bound a f Hf) as Hb.
  destruct (Z.rem a f =? 0) eqn:E.
  - apply Z.eqb_eq in E. apply Z.rem_divide in E; [|lia].
    apply Z.mod_divide in E; [|lia].
    symmetry. rewrite Z.add_comm.
    assert (Hq : (a - 1) / f = a / f - 1).
    { symmetry. apply (Z.div_unique (a - 1) f (a / f - 1) (f - 1)); lia. }
    lia.
  - apply Z.eqb_neq in E.
    assert (a mod f <> 0).
    { intros Hm. apply E. apply Z.rem_divide; [lia|].
      apply Z.mod_divide; [lia|exact Hm]. }
    rewrite Z.add_0_r.
    apply (Z.div_unique (a - 1) f (a / f) (a mod f - 1)); lia.
Qed.

Lemma normalize_in_window s calls :
  in_window s (currentFrame s) ->
  _normalizeCurrentFrame invoke s calls = Some (s, calls).
Proof.
  unfold in_window, _normalizeCurrentFrame.
  destruct (currentEndFrame s) as [e|]; intros Hw;
    rewrite bool_decide_eq_false_2 by lia; reflexivity.
Qed.

Lemma at_frame_same s : at_frame s (currentFrame s) (_advanceCount s) = s.
Proof. now destruct s. Qed.

(** One tick of an instance that plays, away from the end of its window. *)
Lemma tick_in_window s calls :
  paused s = false -> 0 <= currentFrame s -> 0 < advanceFrequency s ->
  let d := if rem_is_zero (_advanceCount s + 1 + advanceOffset s)
                (advanceFrequency s) then 1 else 0 in
  in_window s (currentFrame s + d) ->
  _tick invoke s calls
  = Some (at_frame s (currentFrame s + d) (_advanceCount s + 1), calls).
Proof.
  intros Hp Hcf Hf d Hw. unfold _tick.
  rewrite (bool_decide_eq_false_2 (currentFrame s = -1)) by lia.
  simpl. rewrite Hp. simpl. subst d.
  destruct (rem_is_zero (_advanceCount s + 1 + advanceOffset s)
              (advanceFrequency s)).
  - rewrite normalize_in_window; [reflexivity|exact Hw].
  - now rewrite Z.add_0_r.
Qed.

Lemma ticks_in_window n :
  forall s calls,
  paused s = false -> 0 <= currentFrame s -> 0 < advanceFrequency s ->
  let c := _advanceCount s + advanceOffset s in
  let k := (c + Z.of_nat n) / advanceFrequency s - c / advanceFrequency s in
  in_window s (currentFrame s + k) ->
  ticks invoke n s calls
  = Some (at_frame s (currentFrame s + k) (_advanceCount s + Z.of_nat n), calls).
Proof.
  induction n as [|n IH]; intros s calls Hp Hcf Hf c k Hw.
  - subst k. simpl. rewrite !Z.add_0_r, Z.sub_diag, Z.add_0_r.
    now rewrite at_frame_same.
  - pose proof (rem_is_zero_div (c + 1) (advanceFrequency s) Hf) as Hd.
    replace (c + 1 - 1) with c in Hd by lia.
    set (d := if rem_is_zero (c + 1) (advanceFrequency s) then 1 else 0) in *.
    assert (Hd01 : 0 <= d <= 1) by (subst d; destruct rem_is_zero; lia).
    set (k1 := (c + 1 + Z.of_nat n) / advanceFrequency s
               - (c + 1) / advanceFrequency s).
    assert (Hk1 : 0 <= k1).
    { subst k1. pose proof (Z.div_le_mono (c + 1) (c + 1 + Z.of_nat n)
                              (advanceFrequency s) Hf ltac:(lia)). lia. }
    assert (Hk : k = d + k1).
    { subst k k1. replace (c + Z.of_nat (S n)) with (c + 1 + Z.of_nat n) by lia.
      lia. }
    assert (Hw1 : in_window s (currentFrame s + d)).
    { unfold in_window in *. destruct (currentEndFrame s); lia. }
    cbn [ticks].
    rewrite (tick_in_window s calls Hp Hcf Hf).
    2:{ subst c d. replace (_advanceCount s + 1 + advanceOffset s)
          with (_advanceCount s + advanceOffset s + 1) by lia. exact Hw1. }
    simpl.
    replace (_advanceCount s + 1 + advanceOffset s) with (c + 1) by (subst c; lia).
    fold d.
    rewrite IH; simpl; try assumption; try lia.
    + f_equal. f_equal. unfold at_frame; simpl. f_equal.
      * replace (_advanceCount s + 1 + advanceOffset s) with (c + 1)
          by (subst c; lia). fold k1. lia.
      * lia.
    + replace (_advanceCount s + 1 + advanceOffset s) with (c + 1)
        by (subst c; lia). fold k1.
      unfold in_window in *; simpl. destruct (currentEndFrame s); lia.
Qed.

(** X12. The cadence of an instance that plays. With [advanceFrequency = f]
    (positive), tick count [c] and [advanceOffset = o], [n] ticks advance the
    frame by the number of multiples of [f] among [c+o+1, ..., c+o+n], that
    is by [(c+o+n)/f - (c+o)/f], and call nothing, as long as that keeps the
    frame within the sequence (or below the frame count in simple mode). In
    particular [f] ticks in a row advance the frame by exactly one. *)
Theorem ticks_follow_the_cadence (s : t) (calls : Calls) (n : nat) :
  paused s = false -> 0 <= currentFrame s -> 0 < advanceFrequency s ->
  let f := advanceFrequency s in
  let c := _advanceCount s + advanceOffset s in
  (in_window s (currentFrame s + ((c + Z.of_nat n) / f - c / f)) ->
   ticks invoke n s calls
   = Some (at_frame s (currentFrame s + ((c + Z.of_nat n) / f - c / f))
             (_advanceCount s + Z.of_nat n), calls)) /\
  (in_window s (currentFrame s + 1) ->
   ticks invoke (Z.to_nat f) s calls
   = Some (at_frame s (currentFrame s + 1) (_advanceCount s + f), calls)).
Proof.
  intros Hp Hcf Hf f c. split.
  - intros Hw. now apply ticks_in_window.
  - intros Hw.
    assert (E : (c + Z.of_nat (Z.to_nat f)) / f - c / f = 1).
    { rewrite Z2Nat.id by lia.
      replace (c + f) with (c + 1 * f) by lia.
      rewrite Z.div_add by lia. lia. }
    pose proof (ticks_in_window (Z.to_nat f) s calls Hp Hcf Hf) as Hrun.
    cbv zeta in Hrun. fold f c in Hrun. rewrite E in Hrun.
    rewrite Z2Nat.id in Hrun by lia. now apply Hrun.
Qed.

Lemma tick_paused s calls :
  paused s = true -> _tick invoke s calls = Some (s, calls).
Proof.
  intros Hp. unfold _tick.
  destruct (bool_decide (currentFrame s = -1)
            && bool_decide (is_Some (frameData (spriteSheet s)))).
  - simpl. f_equal. f_equal. destruct s; simpl in *. now subst.
  - now rewrite Hp.
Qed.

Lemma ticks_paused n s calls :
  paused s = true -> ticks invoke n s calls = Some (s, calls).
Proof.
  intros Hp. induction n as [|n IH]; [reflexivity|].
  simpl. rewrite tick_paused by exact Hp. exact IH.
Qed.

(** X13. [gotoAndStop] freezes the playhead: the instance it leaves is
    paused, and any number of ticks leaves it as it is -- its frame, its tick
    count and every other field -- and calls no callback. With a frame number
    [gotoAndStop] always succeeds, the frame is that number, and the
    instance is in simple mode. *)
Theorem gotoAndStop_freezes_the_playhead
    (s : t) (frame : Z) (calls : Calls) (n : nat) :
  (forall target s', gotoAndStop s target = Some s' ->
     paused s' = true /\ ticks invoke n s' calls = Some (s', calls)) /\
  (exists s', gotoAndStop s (Frame frame) = Some s' /\
     currentFrame s' = frame /\ currentEndFrame s' = None /\
     currentSequence s' = None /\
     ticks invoke n s' calls = Some (s', calls)).
Proof.
  assert (Hp : forall target s', gotoAndStop s target = Some s' ->
                                 paused s' = true).
  { intros target s' Hrun. unfold gotoAndStop, _goto in Hrun.
    destruct target as [m|name].
    - inversion Hrun; subst. reflexivity.
    - destruct (bool_decide (Some name = currentSequence (set_paused s true))).
      + destruct (currentStartFrame (set_paused s true)); inversion Hrun.
        reflexivity.
      + destruct (frameData (spriteSheet (set_paused s true))) as [table|];
          [|discriminate]. simpl in Hrun.
        destruct (table !! name) as [[st e nx|fr]|]; inversion Hrun; reflexivity. }
  split.
  - intros target s' Hrun. split; [now apply (Hp target)|].
    apply ticks_paused. now apply (Hp target).
  - eexists. split; [reflexivity|]. repeat split. now apply ticks_paused.
Qed.

Lemma ticks_app n m : forall s calls,
  ticks invoke (n + m) s calls
  = '(s1, calls1) ← ticks invoke n s calls; ticks invoke m s1 calls1.
Proof.
  induction n as [|n IH]; intros s calls; [reflexivity|].
  simpl. destruct (_tick invoke s calls) as [[s1 calls1]|]; [apply IH|reflexivity].
Qed.



End BitmapSequence_runs.

Section BitmapSequence_runs_witness.
Import BitmapSequence.

(** X12, witness: on every second tick. *)
Lemma ticks_follow_the_cadence_witness :
  ticks quiet_callback 1 every_second_tick []
  = Some (at_frame every_second_tick 0 1, []) /\
  ticks quiet_callback 2 every_second_tick []
  = Some (at_frame every_second_tick 1 2, []).
Proof.
  destruct (ticks_follow_the_cadence quiet_callback every_second_tick [] 1)
    as [H1 _]; [reflexivity|simpl; lia|simpl; lia|].
  destruct (ticks_follow_the_cadence quiet_callback every_second_tick [] 2)
    as [_ H2]; [reflexivity|simpl; lia|simpl; lia|].
  split; [apply H1|apply H2]; vm_compute; reflexivity.
Defined.



End BitmapSequence_runs_witness.

(* --------------------------------------------------------------------- *)
(** ** Matrix2D: the algebra of the transformations                       *)
(* --------------------------------------------------------------------- *)

Section Matrix2D_algebra.
Import Matrix2D.
Local Open Scope Q_scope.
(** Whatever [Math.cos], [Math.sin] and [Math.PI] are. *)
Context (math : JSMath Q).
Implicit Types (m n k : Matrix2D.t Q).

(** [prepend] without the shortcut that it takes when the matrix given has
    the linear part of the identity. *)
Lemma prepend_normal m (a' b' c' d' tx' ty' : Q) :
  let r := prepend m a' b' c' d' tx' ty' in
  (a r == a m * a' + b m * c' /\ b r == a m * b' + b m * d' /\
   c r == c m * a' + d m * c' /\ d r == c m * b' + d m * d' /\
   tx r == tx m * a' + ty m * c' + tx' /\
   ty r == tx m * b' + ty m * d' + ty')%Q /\
  alpha r = alpha m /\ shadow r = shadow m /\
  compositeOperation r = compositeOperation m.
Proof.
  unfold prepend. cbn [neqb lit rational_number nadd nmul].
  destruct (negb (Qeq_bool a' 1) || negb (Qeq_bool b' 0)
            || negb (Qeq_bool c' 0) || negb (Qeq_bool d' 1)) eqn:E; simpl.
  - repeat split; reflexivity.
  - apply orb_false_iff in E as [E Ed]. apply orb_false_iff in E as [E Ec].
    apply orb_false_iff in E as [Ea Eb].
    apply negb_false_iff, Qeq_bool_iff in Ea, Eb, Ec, Ed.
    repeat split; try reflexivity; rewrite ?Ea, ?Eb, ?Ec, ?Ed; ring.
Qed.

Lemma obj_or_assoc {A} (x y z : option A) :
  obj_or x (obj_or y z) = obj_or (obj_or x y) z.
Proof. now destruct x, y. Qed.

Lemma str_or_assoc (x y z : option string) :
  str_or x (str_or y z) = str_or (str_or x y) z.
Proof.
  unfold str_or. destruct (truthy_str x) eqn:Ex; [now rewrite Ex|].
  destruct (truthy_str y) eqn:Ey; now rewrite ?Ey.
Qed.



(** X17. [prependMatrix] and [appendMatrix] are the same concatenation read
    from either side: over the rationals [m.prependMatrix(n)] and
    [n.appendMatrix(m)] agree in the six coefficients, in alpha, in the
    shadow and in the compositeOperation. *)
Theorem prependMatrix_is_appendMatrix_flipped m n :
  matrix_eq (prependMatrix m n) (appendMatrix n m).
Proof.
  unfold matrix_eq, coefficients_eq, prependMatrix, appendMatrix.
  destruct (prepend_normal m (a n) (b n) (c n) (d n) (tx n) (ty n))
    as ((Ha & Hb & Hc & Hd & Htx & Hty) & Hal & Hsh & Hco).
  cbv zeta in *.
  unfold prependProperties, appendProperties, append.
  cbn [a b c d tx ty alpha shadow compositeOperation nadd nmul rational_number].
  rewrite Ha, Hb, Hc, Hd, Htx, Hty, Hal, Hsh, Hco.
  repeat split; ring.
Qed.


(** X19. The elementary transformations are concatenations: over the
    rationals, [translate(x, y)] is [prepend(1, 0, 0, 1, x, y)],
    [rotate(angle)] is [prepend(cos, sin, -sin, cos, 0, 0)] with the cosine
    and sine of [angle], and [scale(x, y)] is [prepend(x, 0, 0, y, 0, 0)] on
    a matrix with [b = c = 0]; on other matrices [scale] leaves [b] and [c]
    as they are. *)
Theorem elementary_transformations_are_prepends m (x y angle : Q) :
  matrix_eq (translate m x y) (prepend m 1 0 0 1 x y) /\
  matrix_eq (rotate m angle)
    (prepend m (Math_cos angle) (Math_sin angle)
       (- Math_sin angle) (Math_cos angle) 0 0) /\
  ((b m == 0)%Q -> (c m == 0)%Q ->
   matrix_eq (scale m x y) (prepend m x 0 0 y 0 0)) /\
  b (scale m x y) = b m /\ c (scale m x y) = c m.
Proof.
  unfold matrix_eq, coefficients_eq.
  split; [|split; [|split]].
  - destruct (prepend_normal m 1 0 0 1 x y)
      as ((Ha & Hb & Hc & Hd & Htx & Hty) & Hal & Hsh & Hco).
    cbv zeta in *. rewrite Ha, Hb, Hc, Hd, Htx, Hty, Hal, Hsh, Hco.
    unfold translate, set_translation; simpl. repeat split; ring.
  - destruct (prepend_normal m (Math_cos angle) (Math_sin angle)
                (- Math_sin angle) (Math_cos angle) 0 0)
      as ((Ha & Hb & Hc & Hd & Htx & Hty) & Hal & Hsh & Hco).
    cbv zeta in *. rewrite Ha, Hb, Hc, Hd, Htx, Hty, Hal, Hsh, Hco.
    unfold rotate; simpl. repeat split; ring.
  - intros Hb0 Hc0.
    destruct (prepend_normal m x 0 0 y 0 0)
      as ((Ha & Hb & Hc & Hd & Htx & Hty) & Hal & Hsh & Hco).
    cbv zeta in *. rewrite Ha, Hb, Hc, Hd, Htx, Hty, Hal, Hsh, Hco.
    unfold scale; simpl. repeat split; try ring; rewrite ?Hb0, ?Hc0; ring.
  - split; reflexivity.
Qed.

Lemma truthy_neqb_zero (x : Q) : truthy x = negb (neqb x (lit 0)).
Proof. reflexivity. Qed.

Lemma coefficients_eq_trans m n k :
  coefficients_eq m n -> coefficients_eq n k -> coefficients_eq m k.
Proof.
  intros (Ha & Hb & Hc & Hd & Htx & Hty) (Ha' & Hb' & Hc' & Hd' & Htx' & Hty').
  unfold coefficients_eq.
  rewrite Ha, Hb, Hc, Hd, Htx, Hty. now repeat split.
Qed.

Lemma coefficients_eq_sym m n : coefficients_eq m n -> coefficients_eq n m.
Proof.
  intros (Ha & Hb & Hc & Hd & Htx & Hty). unfold coefficients_eq.
  now rewrite Ha, Hb, Hc, Hd, Htx, Hty.
Qed.

Lemma prepend_once m (a' b' c' d' tx' ty' : Q) :
  coefficients_eq (prepend m a' b' c' d' tx' ty')
    (mk (a m * a' + b m * c') (a m * b' + b m * d')
        (c m * a' + d m * c') (c m * b' + d m * d')
        (tx m * a' + ty m * c' + tx') (tx m * b' + ty m * d' + ty')
        (alpha m) (shadow m) (compositeOperation m)).
Proof. apply prepend_normal. Qed.

Lemma prepend_twice m (a1 b1 c1 d1 tx1 ty1 a2 b2 c2 d2 tx2 ty2 : Q) :
  coefficients_eq
    (prepend (prepend m a1 b1 c1 d1 tx1 ty1) a2 b2 c2 d2 tx2 ty2)
    (mk ((a m * a1 + b m * c1) * a2 + (a m * b1 + b m * d1) * c2)
        ((a m * a1 + b m * c1) * b2 + (a m * b1 + b m * d1) * d2)
        ((c m * a1 + d m * c1) * a2 + (c m * b1 + d m * d1) * c2)
        ((c m * a1 + d m * c1) * b2 + (c m * b1 + d m * d1) * d2)
        ((tx m * a1 + ty m * c1 + tx1) * a2
         + (tx m * b1 + ty m * d1 + ty1) * c2 + tx2)
        ((tx m * a1 + ty m * c1 + tx1) * b2
         + (tx m * b1 + ty m * d1 + ty1) * d2 + ty2)
        (alpha m) (shadow m) (compositeOperation m)).
Proof.
  destruct (prepend_normal m a1 b1 c1 d1 tx1 ty1)
    as ((Ha & Hb & Hc & Hd & Htx & Hty) & _).
  destruct (prepend_normal (prepend m a1 b1 c1 d1 tx1 ty1) a2 b2 c2 d2 tx2 ty2)
    as ((Ha' & Hb' & Hc' & Hd' & Htx' & Hty') & _).
  cbv zeta in *. unfold coefficients_eq.
  cbn [a b c d tx ty].
  repeat split.
  - now rewrite Ha', Ha, Hb.
  - now rewrite Hb', Ha, Hb.
  - now rewrite Hc', Hc, Hd.
  - now rewrite Hd', Hc, Hd.
  - now rewrite Htx', Htx, Hty.
  - now rewrite Hty', Htx, Hty.
Qed.

(** Brings the [prepend]s of the right-hand side into their normal form and
    computes the coefficients of both sides. *)
Ltac agree_on_identity :=
  lazymatch goal with
  | |- coefficients_eq _ (prepend (prepend _ _ _ _ _ _ _) _ _ _ _ _ _) =>
      eapply coefficients_eq_trans;
        [|apply coefficients_eq_sym, prepend_twice]
  | |- coefficients_eq _ (prepend _ _ _ _ _ _ _) =>
      eapply coefficients_eq_trans;
        [|apply coefficients_eq_sym, prepend_once]
  end;
  unfold coefficients_eq, append, set_translation, identity;
  cbn [a b c d tx ty alpha shadow compositeOperation
       nadd nsub nmul nneg lit rational_number].


(** X27. The identity matrix is neutral for concatenation: over the
    rationals, appending the identity matrix (as [identity()] makes it, with
    alpha 1 and no shadow or compositeOperation) to a matrix changes none of
    its fields; prepending it changes neither the coefficients, nor alpha,
    nor the shadow, and leaves a compositeOperation that is not the empty
    string as it is. *)
Theorem identity_is_neutral m :
  let one := identity prototype in
  matrix_eq (appendMatrix m one) m /\
  coefficients_eq (prependMatrix m one) m /\
  alpha (prependMatrix m one) == alpha m /\
  shadow (prependMatrix m one) = shadow m /\
  (compositeOperation m <> Some ""%string ->
   compositeOperation (prependMatrix m one) = compositeOperation m).
Proof.
  intros one. subst one. unfold matrix_eq, coefficients_eq.
  destruct (prepend_normal m 1 0 0 1 0 0)
    as ((Ha & Hb & Hc & Hd & Htx & Hty) & Hal & Hsh & Hco).
  cbv zeta in *.
  unfold prependMatrix, appendMatrix, prependProperties, appendProperties,
    append, identity.
  cbn [a b c d tx ty alpha shadow compositeOperation
       nadd nmul lit rational_number obj_or str_or truthy_str].
  rewrite Ha, Hb, Hc, Hd, Htx, Hty, Hal, Hsh, Hco.
  repeat split; try ring.
  - now destruct (shadow m).
  - intros Hne. destruct (compositeOperation m) as [[|ch rest]|];
      [contradiction|reflexivity|reflexivity].
Qed.

(** The shortcut of [appendTransform] for an object that is only moved adds
    the position to [tx] and [ty] whatever the matrix is: on a matrix that
    scales by 2 it moves by 10 where the general branch, which appends
    [(1, 0, 0, 1, 10, 0)], moves by 20. *)
Example appendTransform_shortcut_on_a_scaled_matrix :
  let m := mk 2 0 0 2 0 0 1 None None in
  tx (appendTransform m 10 0 1 1 0 0 0 0 0) == 10 /\
  tx (append m 1 0 0 1 10 0) == 20.
Proof. split; reflexivity. Qed.

End Matrix2D_algebra.

(* --------------------------------------------------------------------- *)
(** ** DisplayObject: the coordinate conversions                          *)
(* --------------------------------------------------------------------- *)

Section DisplayObject_coordinates.
Import DisplayObject.
Local Open Scope Q_scope.
(** Whatever [Math.cos], [Math.sin] and [Math.PI] are. *)
Context (math : JSMath Q).
Implicit Types (chain : list (Placement Q)) (m : Matrix2D.t Q).

(** A point taken through a matrix and then through its inverse. *)
Lemma through_matrix_and_back m (px py : Q) :
  ~ Matrix2D.det m == 0 ->
  let there := Matrix2D.append m 1 0 0 1 px py in
  let back := Matrix2D.append (Matrix2D.invert m) 1 0 0 1
                (Matrix2D.tx there) (Matrix2D.ty there) in
  Matrix2D.tx back == px /\ Matrix2D.ty back == py.
Proof.
  destruct m as [a0 b0 c0 d0 tx0 ty0 al sh co].
  unfold Matrix2D.det; simpl. intros Hdet. split; field; exact Hdet.
Qed.

Lemma through_inverse_and_back m (px py : Q) :
  ~ Matrix2D.det m == 0 ->
  let there := Matrix2D.append (Matrix2D.invert m) 1 0 0 1 px py in
  let back := Matrix2D.append m 1 0 0 1
                (Matrix2D.tx there) (Matrix2D.ty there) in
  Matrix2D.tx back == px /\ Matrix2D.ty back == py.
Proof.
  destruct m as [a0 b0 c0 d0 tx0 ty0 al sh co].
  unfold Matrix2D.det; simpl. intros Hdet. split; field; exact Hdet.
Qed.


(** The concatenated matrix of a chain of objects that are only moved. *)
Lemma getConcatenatedMatrix_moved_only chain :
  Forall moved_only chain ->
  forall m,
  Matrix2D.a m == 1 -> Matrix2D.b m == 0 ->
  Matrix2D.c m == 0 -> Matrix2D.d m == 1 ->
  let r := fold_left
    (fun mtx target =>
       Matrix2D.prependProperties
         (Matrix2D.prependTransform mtx (x target) (y target)
            (scaleX target) (scaleY target) (rotation target)
            (skewX target) (skewY target) (regX target) (regY target))
         (alpha target) (shadow target) (compositeOperation target))
    chain m in
  Matrix2D.a r == 1 /\ Matrix2D.b r == 0 /\
  Matrix2D.c r == 0 /\ Matrix2D.d r == 1 /\
  Matrix2D.tx r == Matrix2D.tx m + Qsum (map x chain) /\
  Matrix2D.ty r == Matrix2D.ty m + Qsum (map y chain) /\
  Matrix2D.alpha r == Matrix2D.alpha m * Qproduct (map alpha chain).
Proof.
  induction 1 as [|p chain Hp Hchain IH]; intros m Ha Hb Hc Hd.
  - simpl. rewrite Ha, Hb, Hc, Hd. repeat split; ring.
  - destruct Hp as (Hsx & Hsy & Hrot & Hkx & Hky & Hrx & Hry).
    cbn [fold_left map Qsum Qproduct fold_right].
    set (m1 := Matrix2D.prependProperties _ _ _ _).
    assert (Hm1 : Matrix2D.a m1 == 1 /\ Matrix2D.b m1 == 0 /\
                  Matrix2D.c m1 == 0 /\ Matrix2D.d m1 == 1 /\
                  Matrix2D.tx m1 == Matrix2D.tx m + x p /\
                  Matrix2D.ty m1 == Matrix2D.ty m + y p /\
                  Matrix2D.alpha m1 == Matrix2D.alpha m * alpha p).
    { subst m1. unfold Matrix2D.prependTransform, Matrix2D.rotation_cos_sin.
      rewrite Hsx, Hsy, Hrot, Hkx, Hky, Hrx, Hry.
      change (truthy (nrem 0 (lit 360))) with false.
      change (truthy 0) with false. cbn [orb].
      destruct (prepend_normal m (lit 1 * 1) (lit 0 * 1) (nneg (lit 0) * 1)
                  (lit 1 * 1) (x p) (y p))
        as ((Ha' & Hb' & Hc' & Hd' & Htx' & Hty') & Hal & _).
      cbv zeta in *.
      unfold Matrix2D.prependProperties.
      cbn [Matrix2D.a Matrix2D.b Matrix2D.c Matrix2D.d Matrix2D.tx
           Matrix2D.ty Matrix2D.alpha nmul rational_number].
      rewrite Ha', Hb', Hc', Hd', Htx', Hty', Hal.
      cbn [lit nmul nneg rational_number].
      rewrite Ha, Hb, Hc, Hd. repeat split; ring. }
    destruct Hm1 as (Ha1 & Hb1 & Hc1 & Hd1 & Htx1 & Hty1 & Hal1).
    destruct (IH m1 Ha1 Hb1 Hc1 Hd1) as (Ha2 & Hb2 & Hc2 & Hd2 & Htx2 & Hty2 & Hal2).
    cbv zeta in *. fold (Qsum (map x chain)) (Qsum (map y chain))
      (Qproduct (map alpha chain)).
    rewrite Ha2, Hb2, Hc2, Hd2, Htx2, Hty2, Hal2, Htx1, Hty1, Hal1.
    repeat split; ring.
Qed.


End DisplayObject_coordinates.

Section DisplayObject_coordinates_witness.
Import DisplayObject.
Local Open Scope Q_scope.
#[local] Existing Instance Graphics.rational_math.



End DisplayObject_coordinates_witness.

(* --------------------------------------------------------------------- *)
(** ** Graphics: what recording and drawing keep                          *)
(* --------------------------------------------------------------------- *)

Section Graphics_history.
Import Graphics.
Context {num : Type} `{JSNumber num} `{JSMath num}.
Implicit Types (g earlier : Graphics.t num).

(** The building blocks of the recording methods keep the finalized
    subpaths of an earlier instance [earlier] in front. *)
Lemma kept_push earlier g cmds : kept earlier g -> kept earlier (push_active g cmds).
Proof. intros H1. exact H1. Qed.

Lemma kept_active_dirty earlier g : kept earlier g -> kept earlier (set_active_dirty g true).
Proof. intros [Hs He]. split; [intros Hd; discriminate|exact He]. Qed.

Lemma kept_dirty earlier g : kept earlier g -> kept earlier (set_dirty g true).
Proof. intros [Hs He]. split; [intros Hd; discriminate|exact He]. Qed.

Lemma kept_fill earlier g v : kept earlier g -> kept earlier (set_fillInstructions g v).
Proof. intros H1. exact H1. Qed.

Lemma kept_stroke earlier g v : kept earlier g -> kept earlier (set_strokeInstructions g v).
Proof. intros H1. exact H1. Qed.

Lemma kept_strokeStyle earlier g v :
  kept earlier g -> kept earlier (set_strokeStyleInstructions g v).
Proof. intros H1. exact H1. Qed.

Lemma kept_end_subpath earlier g : kept earlier g -> kept earlier (end_subpath g).
Proof.
  intros [Hs [ext He]]. unfold end_subpath.
  destruct (_active g); [|split; [exact Hs|now exists ext]].
  unfold _newPath. split; [intros _; reflexivity|].
  unfold extends. cbn [_oldInstructions].
  destruct (_dirty g) eqn:Hd.
  - rewrite _updateInstructions_layout, He, <- app_assoc. eauto.
  - rewrite (Hs Hd), He. eauto.
Qed.

Lemma kept_refl g : settled g -> kept g g.
Proof. intros Hs. split; [exact Hs|]. exists []. now rewrite app_nil_r. Qed.

Ltac kept_blocks :=
  repeat first
    [ apply kept_push | apply kept_active_dirty | apply kept_dirty
    | apply kept_fill | apply kept_stroke | apply kept_strokeStyle
    | apply kept_end_subpath ].

Lemma record_kept earlier g call :
  call <> CallClear -> kept earlier g -> kept earlier (record g call).
Proof.
  intros Hcall Hg. destruct call; try contradiction; cbn [record];
    unfold moveTo, lineTo, arcTo, arc, quadraticCurveTo, bezierCurveTo, rect,
      closePath, endFill, endStroke, beginFill, beginStroke,
      beginLinearGradientFill, beginRadialGradientFill, beginBitmapFill,
      beginLinearGradientStroke, beginRadialGradientStroke, beginBitmapStroke,
      setStrokeStyle, drawRoundRect, drawRoundRectComplex, drawCircle, arc,
      drawEllipse, drawPolyStar;
    cbv zeta; try (destruct (_active g)); kept_blocks; exact Hg.
Qed.

Lemma Call_is_clear (call : Call (num := num)) :
  call = CallClear \/ call <> CallClear.
Proof. destruct call; first [now left | right; discriminate]. Qed.

Lemma record_settled g call : settled g -> settled (record g call).
Proof.
  intros Hs. destruct (Call_is_clear call) as [->|Hne].
  - intros _. reflexivity.
  - now apply (record_kept g g call Hne (kept_refl g Hs)).
Qed.

Lemma recordAll_settled (calls : list (Call (num := num))) :
  settled (recordAll calls).
Proof.
  unfold recordAll.
  assert (Hnew : settled (Graphics.new (num := num))) by (intros _; reflexivity).
  revert Hnew. generalize (Graphics.new (num := num)).
  induction calls as [|call calls IH]; intros g Hg; simpl; [exact Hg|].
  apply IH. now apply record_settled.
Qed.

Lemma fold_record_kept (calls : list (Call (num := num))) :
  Forall (fun call => call <> CallClear) calls ->
  forall earlier g, kept earlier g -> kept earlier (fold_left record calls g).
Proof.
  induction 1 as [|call calls Hcall _ IH]; intros earlier g Hg; simpl;
    [exact Hg|].
  apply IH. now apply record_kept.
Qed.


Lemma same_recording_refl g : same_recording g g.
Proof. now repeat split. Qed.

Lemma record_same_recording g g' (call : Call) :
  same_recording g g' -> same_recording (record g call) (record g' call).
Proof.
  intros (H1 & H2 & H3 & H4 & H5 & H6 & H7 & H8).
  destruct g as [s ss fl i o a act d], g' as [s' ss' fl' i' o' a' act' d'].
  simpl in *. subst. destruct d'.
  - destruct call; cbn [record];
      unfold moveTo, lineTo, arcTo, arc, quadraticCurveTo, bezierCurveTo, rect,
        closePath, endFill, endStroke, beginFill, beginStroke,
        beginLinearGradientFill, beginRadialGradientFill, beginBitmapFill,
        beginLinearGradientStroke, beginRadialGradientStroke,
        beginBitmapStroke, setStrokeStyle, drawRoundRect,
        drawRoundRectComplex, drawCircle, arc, drawEllipse, drawPolyStar,
        end_subpath, _newPath, same_recording;
      cbn; destruct act'; cbn; repeat split; try reflexivity;
      intros; discriminate.
  - rewrite (H8 eq_refl). apply same_recording_refl.
Qed.

Lemma fold_record_same_recording (calls : list (Call (num := num))) :
  forall g g', same_recording g g' ->
  same_recording (fold_left record calls g) (fold_left record calls g').
Proof.
  induction calls as [|call calls IH]; intros g g' Hg; simpl; [exact Hg|].
  apply IH. now apply record_same_recording.
Qed.

Lemma same_recording_draw g g' :
  same_recording g g' -> snd (draw g) = snd (draw g').
Proof.
  intros (H1 & H2 & H3 & H4 & H5 & H6 & H7 & H8).
  unfold draw. cbn [snd]. rewrite <- H7. destruct (_dirty g) eqn:Hd.
  - rewrite !_updateInstructions_layout. unfold current_subpath.
    now rewrite H1, H2, H3, H4, H5.
  - now apply H8.
Qed.


End Graphics_history.

Section Graphics_history_witness.
Import Graphics.


End Graphics_history_witness.

(* --------------------------------------------------------------------- *)
(** ** DisplayObject: the life cycle of a cache                           *)
(* --------------------------------------------------------------------- *)

Section DisplayObject_cache.
Import DisplayObject.
Variable paint : Canvas -> Canvas.

Lemma applyFilter_fold_pixels (l : list Filter) (w h : Z) (cv : Canvas) :
  pixels (fold_left (fun ctx f => applyFilter ctx f 0 0 w h) l cv)
  = pixels cv ++ map (fun f => ApplyFilter f 0 0 w h) l.
Proof.
  revert cv. induction l as [|f l IH]; intros cv; simpl.
  - now rewrite app_nil_r.
  - rewrite IH. simpl. now rewrite <- app_assoc.
Qed.

(** X25. [_applyFilters] runs every filter of the node once, in the order
    of the [filters] array, each over the whole cache canvas
    [(0, 0, width, height)], and changes nothing else of the canvas or the
    node; without filters, with an empty array, or without a cache, it does
    nothing. *)
Theorem applyFilters_runs_every_filter_once
    (cc : Canvas) (ox oy : Z) (fl : list Filter) :
  (exists cc',
     _applyFilters (mk (Some cc) ox oy (Some fl)) = mk (Some cc') ox oy (Some fl) /\
     pixels cc'
     = pixels cc ++ map (fun f => ApplyFilter f 0 0 (width cc) (height cc)) fl /\
     width cc' = width cc /\ height cc' = height cc /\
     translate cc' = translate cc /\
     globalCompositeOperation cc' = globalCompositeOperation cc) /\
  _applyFilters (mk (Some cc) ox oy None) = mk (Some cc) ox oy None /\
  _applyFilters (mk None ox oy (Some fl)) = mk None ox oy (Some fl).
Proof.
  split; [|split; [reflexivity|now destruct fl]].
  rewrite _applyFilters_cached. eexists. split; [reflexivity|].
  unfold filtered.
  destruct (applyFilter_fold_state fl (width cc) (height cc) cc)
    as (Hg & Hw & Hh & Ht).
  split; [apply applyFilter_fold_pixels|]. now repeat split.
Qed.

Lemma cache_result (o : t) (x y w h : Z) :
  cache paint o x y w h
  = mk (Some (filtered (filters o)
                (paint (clearRect (setTransform (set_size createCanvas w h)
                                     (- x) (- y))
                          0 0 (w + 1) (h + 1))))) x y (filters o).
Proof.
  unfold cache.
  cbn [draw draw_base cacheCanvas _cacheOffsetX _cacheOffsetY filters].
  rewrite _applyFilters_cached. now destruct (cacheCanvas o).
Qed.

(** X26. The life cycle of a cache. After [cache(x, y, w, h)] the node has
    a cache canvas and the offsets [(x, y)]; [draw(ctx)] then does not paint
    the node again but draws the cache canvas into [ctx] at the offsets, once,
    while [draw(ctx, true)] ignores the cache and paints; [updateCache()]
    completes normally. After [uncache()] the cache canvas is null and the
    offsets are 0; [draw(ctx)] paints the node, and [updateCache()] throws.
    Caching again after [uncache()] gives the same node as caching once. *)
Theorem cache_life_cycle (o : t) (x y w h : Z) (ctx : Canvas) :
  let cached := cache paint o x y w h in
  exists cc,
    cacheCanvas cached = Some cc /\
    _cacheOffsetX cached = x /\ _cacheOffsetY cached = y /\
    draw paint cached ctx false = drawImage ctx cc x y /\
    pixels (draw paint cached ctx false)
    = pixels ctx ++ [DrawImage (fst (translate ctx) + x) (snd (translate ctx) + y)
                       (globalCompositeOperation ctx)] /\
    draw paint cached ctx true = paint ctx /\
    (exists o', updateCache paint cached None = Normal o') /\
    cacheCanvas (uncache cached) = None /\
    _cacheOffsetX (uncache cached) = 0 /\ _cacheOffsetY (uncache cached) = 0 /\
    draw paint (uncache cached) ctx false = paint ctx /\
    updateCache paint (uncache cached) None = Throw updateCache_message /\
    cache paint (uncache cached) x y w h = cached.
Proof.
  intros cached. subst cached. rewrite cache_result.
  set (cc := filtered (filters o) _).
  exists cc. repeat (split; [reflexivity|]).
  split.
  { rewrite (updateCache_clear_redraw paint cc x y (filters o) None eq_refl).
    eexists. reflexivity. }
  repeat (split; [reflexivity|]).
  rewrite cache_result. reflexivity.
Qed.

End DisplayObject_cache.
